(** * Karma OBJ parser: lexer and statement parser of
      [12_ObjParser/src/Karma/kabstractobjparser.cpp]

    The development embeds the private parser class
    [KAbstractObjParserPrivate] as pure functions over explicit state:
    the character reader with its two characters of lookahead, the lexer
    with its two tokens of lookahead, and the statement rules that call
    the sink ([onVertex], [onTexture], [onNormal], [onParameter],
    [onFace]).  The sink is modelled by the list of calls it received.

    Conventions.
    - [int] is a 32-bit two's complement integer held in [Z]; every
      arithmetic step of the source is followed by [wrap32].
    - [uint64_t] is held in [Z] and reduced modulo [2^64].
    - [float] values are exact rationals ([Q], kept in lowest terms):
      rounding, infinities and NaN are outside the model.
    - [qFatal] does not return: it is the [Fatal] result.
    - Loops whose exit depends on the external character predicates carry
      a fuel argument; running out of it is the [OutOfFuel] result. *)

From Stdlib Require Import ZArith QArith List Bool Lia String Ascii.
Import ListNotations.
Open Scope Z_scope.

(** ** Characters *)

Definition chr (a : ascii) : Z := Z.of_N (N_of_ascii a).

Definition chars (s : string) : list Z := map chr (list_ascii_of_string s).

Definition SPACE : Z := 32.
Definition TAB : Z := 9.
Definition CR : Z := 13.
Definition NEWLINE : Z := 10.
Definition HASH : Z := 35.
Definition SLASH : Z := 47.
Definition DOT : Z := 46.
Definition MINUS : Z := 45.
Definition PLUS : Z := 43.
Definition LOWER_E : Z := 101.
Definition LOWER_F : Z := 102.

(** The WHITESPACE macro: [' '], ['\t'], ['\r']. *)
Definition isWhitespace (c : Z) : bool :=
  (c =? SPACE) || (c =? TAB) || (c =? CR).

(** ** Machine arithmetic *)

Definition wrap32 (z : Z) : Z := (z + 2 ^ 31) mod 2 ^ 32 - 2 ^ 31.

Definition wrap64 (z : Z) : Z := z mod 2 ^ 64.

Definition float := Q.

Definition float_of_int (z : Z) : float := inject_Z z.

Definition fadd (a b : float) : float := Qred (a + b)%Q.
Definition fsub (a b : float) : float := Qred (a - b)%Q.
Definition fmul (a b : float) : float := Qred (a * b)%Q.
Definition fdiv (a b : float) : float := Qred (a / b)%Q.

(** [std::powf(10.0f, power)] for an integer [power]. *)
Definition powf10 (power : Z) : float := Qred (Qpower (10 # 1) power).

(** ** Declarations the file takes from headers that are not part of it

    [KAbstractReader::EndOfFile] comes from kabstractreader.h, the
    character helpers of namespace [Karma] from kcommon.h.  They are
    parameters of the whole development. *)

Class Externals := {
  EndOfFile : Z;
  isNumeric : Z -> bool;
  isAlpha : Z -> bool;
  ctoi : Z -> Z;
  toLower : Z -> Z
}.

(** ** Parser definitions *)

Inductive ParseToken :=
| PT_ERROR
| PT_EOF
| PT_VERTEX
| PT_TEXTURE
| PT_NORMAL
| PT_PARAMETER
| PT_FACE
| PT_OBJECT
| PT_GROUP
| PT_ENDSTATEMENT
| PT_STRING
| PT_INTEGER
| PT_FLOAT
| PT_MATERIAL
| PT_USEMATERIAL
| PT_SMOOTHING
| PT_SEPARATOR.

Definition ParseToken_eqb (a b : ParseToken) : bool :=
  match a, b with
  | PT_ERROR, PT_ERROR | PT_EOF, PT_EOF | PT_VERTEX, PT_VERTEX
  | PT_TEXTURE, PT_TEXTURE | PT_NORMAL, PT_NORMAL
  | PT_PARAMETER, PT_PARAMETER | PT_FACE, PT_FACE | PT_OBJECT, PT_OBJECT
  | PT_GROUP, PT_GROUP | PT_ENDSTATEMENT, PT_ENDSTATEMENT
  | PT_STRING, PT_STRING | PT_INTEGER, PT_INTEGER | PT_FLOAT, PT_FLOAT
  | PT_MATERIAL, PT_MATERIAL | PT_USEMATERIAL, PT_USEMATERIAL
  | PT_SMOOTHING, PT_SMOOTHING | PT_SEPARATOR, PT_SEPARATOR => true
  | _, _ => false
  end.

(** [union TokenAttrib]: the member written last; a fresh token holds an
    indeterminate value. *)
Inductive TokenAttrib :=
| Indeterminate
| asInteger (i : Z)
| asFloat (f : float).

(** Reading a member of the union.  The statement rules read [asInteger]
    only from a [PT_INTEGER] token and [asFloat] only from a [PT_FLOAT]
    token; for any other content the model answers zero. *)
Definition read_asInteger (a : TokenAttrib) : Z :=
  match a with asInteger i => i | _ => 0 end.

Definition read_asFloat (a : TokenAttrib) : float :=
  match a with asFloat f => f | _ => 0%Q end.

(** [ParseString]: the characters before the terminating NUL. *)
Definition ParseString := list Z.

(** Conversion of an [int] character to [char], as [operator=(char)] and
    [operator+=(char)] do. *)
Definition to_char (c : Z) : Z := c mod 256.

(** The C string a [ParseString] denotes through [data()]. *)
Fixpoint c_str (s : ParseString) : list Z :=
  match s with
  | [] => []
  | c :: s' => if c =? 0 then [] else c :: c_str s'
  end.

Definition list_Z_eqb (a b : list Z) : bool :=
  if list_eq_dec Z.eq_dec a b then true else false.

(** [ParseMap sg_reserved]. *)
Definition sg_reserved : list (list Z * ParseToken) :=
  [ (chars "v", PT_VERTEX);
    (chars "vt", PT_TEXTURE);
    (chars "vn", PT_NORMAL);
    (chars "vp", PT_PARAMETER);
    (chars "f", PT_FACE);
    (chars "o", PT_OBJECT);
    (chars "g", PT_GROUP);
    (chars "mtllib", PT_MATERIAL);
    (chars "usemtl", PT_USEMATERIAL);
    (chars "s", PT_SMOOTHING) ].

Fixpoint find (m : list (list Z * ParseToken)) (key : list Z)
  : option ParseToken :=
  match m with
  | [] => None
  | (k, t) :: m' => if list_Z_eqb k key then Some t else find m' key
  end.

Record Token := mkToken {
  m_token : ParseToken;
  m_lexicon : ParseString;
  m_attribute : TokenAttrib
}.

(** [Token::Token()]. *)
Definition Token_new : Token := mkToken PT_ERROR [] Indeterminate.

Definition set_attribute (t : Token) (a : TokenAttrib) : Token :=
  mkToken (m_token t) (m_lexicon t) a.

Definition set_lexicon (t : Token) (s : ParseString) : Token :=
  mkToken (m_token t) s (m_attribute t).

Definition set_token (t : Token) (k : ParseToken) : Token :=
  mkToken k (m_lexicon t) (m_attribute t).

(** ** Results *)

Inductive FatalError :=
| UnexpectedCharacter (line col c : Z)
| TokenMismatch (expected received : ParseToken)
| EncounteredError.

Inductive Res (A : Type) :=
| Ok (a : A)
| Fatal (e : FatalError)
| OutOfFuel.

Arguments Ok {A} a.
Arguments Fatal {A} e.
Arguments OutOfFuel {A}.

Definition bind {A B : Type} (r : Res A) (k : A -> Res B) : Res B :=
  match r with
  | Ok a => k a
  | Fatal e => Fatal e
  | OutOfFuel => OutOfFuel
  end.

Notation "x <- r ;; k" := (bind r (fun x => k))
  (at level 61, r at next level, right associativity).
Notation "' p <- r ;; k" := (bind r (fun p => k))
  (at level 61, p pattern, r at next level, right associativity).

(** ** Reader and lexer state

    The members under the comments "Reader" and "Lexer" of the class,
    with the two position counters the reader maintains.  [m_reader] is
    the sequence of characters [KAbstractReader::next] has not returned
    yet; once it is empty [next] answers [EndOfFile] for ever. *)

Record Lexer := mkLexer {
  m_reader : list Z;
  m_currChar : Z;
  m_peekChar : Z;
  m_currToken : Token;
  m_peekToken : Token;
  m_currLineCount : Z;
  m_currCharCount : Z
}.

Section WithExternals.

Context {ext : Externals}.

(** [m_reader->next()]. *)
Definition next (rd : list Z) : Z * list Z :=
  match rd with
  | [] => (EndOfFile, [])
  | c :: rd' => (c, rd')
  end.

Definition nextChar (l : Lexer) : Z * Lexer :=
  let curr := m_peekChar l in
  let (peek, rd) := next (m_reader l) in
  let (line, col) :=
    if curr =? NEWLINE
    then (wrap32 (m_currLineCount l + 1), 0)
    else (m_currLineCount l, wrap32 (m_currCharCount l + 1)) in
  (curr, mkLexer rd curr peek (m_currToken l) (m_peekToken l) line col).

(** The loop of [nextLine]: read until newline, ignoring everything. *)
Fixpoint nextLine_loop (rd : list Z) (curr : Z) : Z * list Z :=
  if curr =? NEWLINE then (curr, rd)
  else
    match rd with
    | [] => (EndOfFile, [])
    | c :: rd' => if c =? EndOfFile then (c, rd') else nextLine_loop rd' c
    end.

Definition nextLine (l : Lexer) : Lexer :=
  let line := wrap32 (m_currLineCount l + 1) in
  let (curr, rd) := nextLine_loop (m_reader l) (m_peekChar l) in
  let (peek, rd) := next rd in
  mkLexer rd curr peek (m_currToken l) (m_peekToken l) line 0.

(** *** Lexer *)

(** The switch that opens [lexToken]: the token kinds after which the
    rest of the line is skipped. *)
Definition skipsLine (t : ParseToken) : bool :=
  match t with
  | PT_GROUP | PT_OBJECT | PT_SMOOTHING | PT_MATERIAL => true
  | _ => false
  end.

(** The [while] loop shared by both overloads of [lexReadInteger]; [pow]
    is only meaningful for the overload that reports a power. *)
Fixpoint lexReadInteger_loop (fuel : nat) (pow integer : Z) (l : Lexer)
  : Res (Z * Z * Lexer) :=
  match fuel with
  | O => OutOfFuel
  | S fuel =>
      if isNumeric (m_peekChar l) then
        let pow := wrap32 (pow * 10) in
        let integer := wrap32 (integer * 10) in
        let (c, l) := nextChar l in
        lexReadInteger_loop fuel pow (wrap32 (integer + ctoi c)) l
      else Ok (pow, integer, l)
  end.

(** [int lexReadInteger(int *power)]: the result is the power and the
    signed integer. *)
Definition lexReadInteger_power (fuel : nat) (l : Lexer)
  : Res (Z * Z * Lexer) :=
  let c := m_currChar l in
  let sign := if c =? MINUS then -1 else 1 in
  let integer :=
    if c =? MINUS then 0 else if c =? PLUS then 0 else ctoi c in
  '(pow, integer, l) <- lexReadInteger_loop fuel 1 integer l ;;
  Ok (pow, wrap32 (sign * integer), l).

(** [int lexReadInteger()]. *)
Definition lexReadInteger (fuel : nat) (l : Lexer) : Res (Z * Lexer) :=
  '(_, integer, l) <- lexReadInteger_power fuel l ;;
  Ok (integer, l).

Definition lexTokenFloatExponent (fuel : nat) (l : Lexer) (token : Token)
  (value : float) : Res (ParseToken * Token * Lexer) :=
  '(power, l) <- lexReadInteger fuel l ;;
  Ok (PT_FLOAT, set_attribute token (asFloat (fmul value (powf10 power))), l).

Definition lexTokenFloat (fuel : nat) (l : Lexer) (token : Token)
  (integer : Z) : Res (ParseToken * Token * Lexer) :=
  '(power, fraction, l) <- lexReadInteger_power fuel l ;;
  let decimal := fdiv (float_of_int fraction) (float_of_int power) in
  let value :=
    if 0 <=? integer
    then fadd (float_of_int integer) decimal
    else fsub (float_of_int integer) decimal in
  if toLower (m_peekChar l) =? LOWER_E then
    let (_, l) := nextChar l in
    let (_, l) := nextChar l in
    lexTokenFloatExponent fuel l token value
  else Ok (PT_FLOAT, set_attribute token (asFloat value), l).

Definition lexTokenInteger (fuel : nat) (l : Lexer) (token : Token)
  : Res (ParseToken * Token * Lexer) :=
  '(integer, l) <- lexReadInteger fuel l ;;
  if m_peekChar l =? DOT then
    let (_, l) := nextChar l in
    let (_, l) := nextChar l in
    lexTokenFloat fuel l token integer
  else Ok (PT_INTEGER, set_attribute token (asInteger integer), l).

Definition symResolve (token : Token) (t : ParseToken) : ParseToken :=
  match find sg_reserved (c_str (m_lexicon token)) with
  | Some k => k
  | None => t
  end.

Fixpoint lexTokenIdentifier_loop (fuel : nat) (l : Lexer) (token : Token)
  : Res (ParseToken * Token * Lexer) :=
  match fuel with
  | O => OutOfFuel
  | S fuel =>
      if isAlpha (m_peekChar l) then
        let (c, l) := nextChar l in
        lexTokenIdentifier_loop fuel l
          (set_lexicon token (m_lexicon token ++ [to_char c]))
      else Ok (symResolve token PT_STRING, token, l)
  end.

Definition lexTokenIdentifier (fuel : nat) (l : Lexer) (token : Token)
  : Res (ParseToken * Token * Lexer) :=
  lexTokenIdentifier_loop fuel l
    (set_lexicon token [to_char (m_currChar l)]).

(** The tokenization loop of [lexToken]. *)
Fixpoint lexToken_loop (fuel : nat) (l : Lexer) (token : Token)
  : Res (ParseToken * Token * Lexer) :=
  match fuel with
  | O => OutOfFuel
  | S fuel =>
      let (c, l) := nextChar l in
      if c =? EndOfFile then Ok (PT_EOF, token, l)
      else if isWhitespace c then lexToken_loop fuel l token
      else if c =? NEWLINE then Ok (PT_ENDSTATEMENT, token, l)
      else if c =? HASH then Ok (PT_ENDSTATEMENT, token, nextLine l)
      else if c =? SLASH then Ok (PT_SEPARATOR, token, l)
      else if isNumeric (m_currChar l) then lexTokenInteger fuel l token
      else if isAlpha (m_currChar l) then lexTokenIdentifier fuel l token
      else Fatal (UnexpectedCharacter (m_currLineCount l)
                    (m_currCharCount l) (m_currChar l))
  end.

Definition lexToken (fuel : nat) (l : Lexer) (token : Token)
  : Res (ParseToken * Token * Lexer) :=
  let l := if skipsLine (m_token (m_currToken l)) then nextLine l else l in
  lexToken_loop fuel l token.

(** [Token::swap] applied to the two token members. *)
Definition swapTokens (l : Lexer) : Lexer :=
  mkLexer (m_reader l) (m_currChar l) (m_peekChar l)
    (m_peekToken l) (m_currToken l)
    (m_currLineCount l) (m_currCharCount l).

Definition set_peekToken (l : Lexer) (t : Token) : Lexer :=
  mkLexer (m_reader l) (m_currChar l) (m_peekChar l)
    (m_currToken l) t
    (m_currLineCount l) (m_currCharCount l).

(** [nextToken]: the caller reads the current token from the state. *)
Definition nextToken (fuel : nat) (l : Lexer) : Res Lexer :=
  let l := swapTokens l in
  '(k, token, l) <- lexToken fuel l (m_peekToken l) ;;
  Ok (set_peekToken l (set_token token k)).

Definition currToken (l : Lexer) : Token := m_currToken l.

Definition peekToken (l : Lexer) : Token := m_peekToken l.

(** [checkToken]. *)
Definition checkToken (fuel : nat) (l : Lexer) (t : ParseToken)
  : Res (bool * Lexer) :=
  if ParseToken_eqb (m_token (peekToken l)) t then
    l <- nextToken fuel l ;; Ok (true, l)
  else Ok (false, l).

(** [expectToken]. *)
Definition expectToken (fuel : nat) (l : Lexer) (t : ParseToken)
  : Res Lexer :=
  l <- nextToken fuel l ;;
  if ParseToken_eqb (m_token (currToken l)) t then Ok l
  else Fatal (TokenMismatch t (m_token (currToken l))).

End WithExternals.

(** ** Parser state

    [index_type] is [uint64_t] (the type [parseInteger] writes) and
    [index_array] an array of three of them.  [sink] records the calls
    made on [m_parser], oldest first; a call receives a pointer to the
    scratch storage, so the record keeps the storage as it was at the
    time of the call. *)

Definition index_array : Type := Z * Z * Z.

Definition index_array_new : index_array := (0, 0, 0).

Record Float4 := mkFloat4 { x0 : float; x1 : float; x2 : float; x3 : float }.

Arguments mkFloat4 (x0 x1 x2 x3)%_Q_scope.

Definition get_float (a : Float4) (i : nat) : float :=
  match i with
  | 0%nat => x0 a
  | 1%nat => x1 a
  | 2%nat => x2 a
  | _ => x3 a
  end.

Definition set_float (a : Float4) (i : nat) (v : float) : Float4 :=
  match i with
  | 0%nat => mkFloat4 v (x1 a) (x2 a) (x3 a)
  | 1%nat => mkFloat4 (x0 a) v (x2 a) (x3 a)
  | 2%nat => mkFloat4 (x0 a) (x1 a) v (x3 a)
  | _ => mkFloat4 (x0 a) (x1 a) (x2 a) v
  end.

Inductive SinkCall :=
| onVertex (v : Float4)
| onTexture (v : Float4)
| onNormal (v : Float4)
| onParameter (v : Float4)
| onFace (data : list index_array) (count : Z).

Record Parser := mkParser {
  lexer : Lexer;
  m_vertexCount : Z;
  m_textureCount : Z;
  m_normalCount : Z;
  m_parameterCount : Z;
  m_faceCount : Z;
  m_float4 : Float4;
  m_vector_index_array : list index_array;
  sink : list SinkCall
}.

Definition set_lexer (p : Parser) (l : Lexer) : Parser :=
  mkParser l (m_vertexCount p) (m_textureCount p) (m_normalCount p)
    (m_parameterCount p) (m_faceCount p) (m_float4 p)
    (m_vector_index_array p) (sink p).

Definition set_float4 (p : Parser) (a : Float4) : Parser :=
  mkParser (lexer p) (m_vertexCount p) (m_textureCount p) (m_normalCount p)
    (m_parameterCount p) (m_faceCount p) a
    (m_vector_index_array p) (sink p).

Definition set_vector (p : Parser) (v : list index_array) : Parser :=
  mkParser (lexer p) (m_vertexCount p) (m_textureCount p) (m_normalCount p)
    (m_parameterCount p) (m_faceCount p) (m_float4 p) v (sink p).

Definition call (p : Parser) (c : SinkCall) : Parser :=
  mkParser (lexer p) (m_vertexCount p) (m_textureCount p) (m_normalCount p)
    (m_parameterCount p) (m_faceCount p) (m_float4 p)
    (m_vector_index_array p) (sink p ++ [c]).

Definition incr_vertexCount (p : Parser) : Parser :=
  mkParser (lexer p) (wrap64 (m_vertexCount p + 1)) (m_textureCount p)
    (m_normalCount p) (m_parameterCount p) (m_faceCount p) (m_float4 p)
    (m_vector_index_array p) (sink p).

Definition incr_textureCount (p : Parser) : Parser :=
  mkParser (lexer p) (m_vertexCount p) (wrap64 (m_textureCount p + 1))
    (m_normalCount p) (m_parameterCount p) (m_faceCount p) (m_float4 p)
    (m_vector_index_array p) (sink p).

Definition incr_normalCount (p : Parser) : Parser :=
  mkParser (lexer p) (m_vertexCount p) (m_textureCount p)
    (wrap64 (m_normalCount p + 1)) (m_parameterCount p) (m_faceCount p)
    (m_float4 p) (m_vector_index_array p) (sink p).

Definition incr_parameterCount (p : Parser) : Parser :=
  mkParser (lexer p) (m_vertexCount p) (m_textureCount p)
    (m_normalCount p) (wrap64 (m_parameterCount p + 1)) (m_faceCount p)
    (m_float4 p) (m_vector_index_array p) (sink p).

(** [std::vector] operations used by [parseFace]. *)
Definition push_back {A : Type} (v : list A) (a : A) : list A := v ++ [a].

Definition back {A : Type} (d : A) (v : list A) : A := last v d.

Definition set_back {A : Type} (v : list A) (a : A) : list A :=
  removelast v ++ [a].

(** The values the constructor leaves uninitialised. *)
Record Uninitialised := mkUninitialised {
  u_currChar : Z;
  u_peekChar : Z;
  u_float4 : Float4
}.

Section ParserWithExternals.

Context {ext : Externals}.

(** [bool parseFloat(float &f)]: the second component of the result is
    the value of [f] afterwards. *)
Definition parseFloat (fuel : nat) (l : Lexer) (f : float)
  : Res (bool * float * Lexer) :=
  match m_token (peekToken l) with
  | PT_FLOAT =>
      l <- nextToken fuel l ;;
      Ok (true, read_asFloat (m_attribute (currToken l)), l)
  | PT_INTEGER =>
      l <- nextToken fuel l ;;
      Ok (true, float_of_int (read_asInteger (m_attribute (currToken l))), l)
  | _ => Ok (false, f, l)
  end.

(** [bool parseInteger(uint64_t &i)]. *)
Definition parseInteger (fuel : nat) (l : Lexer) (i : Z)
  : Res (bool * Z * Lexer) :=
  match m_token (peekToken l) with
  | PT_INTEGER =>
      l <- nextToken fuel l ;;
      Ok (true, wrap64 (read_asInteger (m_attribute (currToken l))), l)
  | _ => Ok (false, i, l)
  end.

(** [parseFloat(m_float4[i])]. *)
Definition parseFloat_at (fuel : nat) (i : nat) (p : Parser)
  : Res (bool * Parser) :=
  '(b, f, l) <- parseFloat fuel (lexer p) (get_float (m_float4 p) i) ;;
  Ok (b, set_float4 (set_lexer p l) (set_float (m_float4 p) i f)).

Definition parseVertex (fuel : nat) (p : Parser) : Res Parser :=
  let p := incr_vertexCount p in
  '(_, p) <- parseFloat_at fuel 0 p ;;
  '(_, p) <- parseFloat_at fuel 1 p ;;
  '(_, p) <- parseFloat_at fuel 2 p ;;
  '(b, p) <- parseFloat_at fuel 3 p ;;
  let p := if b then p else set_float4 p (set_float (m_float4 p) 3 1%Q) in
  Ok (call p (onVertex (m_float4 p))).

Definition parseTexture (fuel : nat) (p : Parser) : Res Parser :=
  let p := incr_textureCount p in
  '(_, p) <- parseFloat_at fuel 0 p ;;
  '(_, p) <- parseFloat_at fuel 1 p ;;
  '(b, p) <- parseFloat_at fuel 2 p ;;
  let p := if b then p else set_float4 p (set_float (m_float4 p) 2 1%Q) in
  Ok (call p (onTexture (m_float4 p))).

Definition parseNormal (fuel : nat) (p : Parser) : Res Parser :=
  let p := incr_normalCount p in
  '(_, p) <- parseFloat_at fuel 0 p ;;
  '(_, p) <- parseFloat_at fuel 1 p ;;
  '(_, p) <- parseFloat_at fuel 2 p ;;
  Ok (call p (onNormal (m_float4 p))).

Definition parseParameter (fuel : nat) (p : Parser) : Res Parser :=
  let p := incr_parameterCount p in
  '(_, p) <- parseFloat_at fuel 0 p ;;
  '(b, p) <- parseFloat_at fuel 1 p ;;
  p <- (if b then
          '(b, p) <- parseFloat_at fuel 2 p ;;
          Ok (if b then p else set_float4 p (set_float (m_float4 p) 2 0%Q))
        else Ok (set_float4 p (set_float (m_float4 p) 1 0%Q))) ;;
  Ok (call p (onParameter (m_float4 p))).

Definition parseFaceIndices (fuel : nat) (l : Lexer) (indices : index_array)
  : Res (bool * index_array * Lexer) :=
  let '(i0, i1, i2) := indices in
  '(b, i0, l) <- parseInteger fuel l i0 ;;
  if negb b then Ok (false, (i0, i1, i2), l)
  else
    '(sep, l) <- checkToken fuel l PT_SEPARATOR ;;
    '(i1, l) <- (if sep then
                   '(b, i1, l) <- parseInteger fuel l i1 ;;
                   Ok (if b then i1 else 0, l)
                 else Ok (0, l)) ;;
    '(sep, l) <- checkToken fuel l PT_SEPARATOR ;;
    '(i2, l) <- (if sep then
                   '(b, i2, l) <- parseInteger fuel l i2 ;;
                   Ok (if b then i2 else 0, l)
                 else Ok (0, l)) ;;
    Ok (true, (i0, i1, i2), l).

(** The [do ... while] loop of [parseFace]. *)
Fixpoint parseFace_loop (fuel : nat) (l : Lexer) (v : list index_array)
  : Res (list index_array * Lexer) :=
  match fuel with
  | O => OutOfFuel
  | S fuel =>
      let v := push_back v index_array_new in
      '(b, ia, l) <- parseFaceIndices fuel l (back index_array_new v) ;;
      let v := set_back v ia in
      if b then parseFace_loop fuel l v else Ok (v, l)
  end.

Definition parseFace (fuel : nat) (p : Parser) : Res Parser :=
  '(v, l) <- parseFace_loop fuel (lexer p) [] ;;
  let p := set_vector (set_lexer p l) v in
  Ok (call p (onFace v (Z.of_nat (List.length v) - 1))).

(** One turn of the loop of [parse]: [Some b] when the loop returns [b],
    [None] when it goes round again. *)
Definition parse_body (fuel : nat) (p : Parser)
  : Res (option bool * Parser) :=
  l <- nextToken fuel (lexer p) ;;
  let p := set_lexer p l in
  match m_token (currToken l) with
  | PT_ERROR => Fatal EncounteredError
  | PT_EOF => Ok (Some true, p)
  | PT_VERTEX => p <- parseVertex fuel p ;; Ok (None, p)
  | PT_TEXTURE => p <- parseTexture fuel p ;; Ok (None, p)
  | PT_NORMAL => p <- parseNormal fuel p ;; Ok (None, p)
  | PT_PARAMETER => p <- parseParameter fuel p ;; Ok (None, p)
  | PT_FACE => p <- parseFace fuel p ;; Ok (None, p)
  | _ => Ok (None, p)
  end.

(** [KAbstractObjParserPrivate::parse]. *)
Fixpoint parse (fuel : nat) (p : Parser) : Res (bool * Parser) :=
  match fuel with
  | O => OutOfFuel
  | S fuel =>
      '(r, p) <- parse_body fuel p ;;
      match r with
      | Some b => Ok (b, p)
      | None => parse fuel p
      end
  end.

(** The kinds of the tokens successive calls of [nextToken] make
    current, up to and including the first [PT_EOF]: the loop of [parse]
    with the statement rules taken out. *)
Fixpoint tokens (fuel : nat) (l : Lexer) : Res (list ParseToken) :=
  match fuel with
  | O => OutOfFuel
  | S fuel =>
      l <- nextToken fuel l ;;
      let k := m_token (currToken l) in
      if ParseToken_eqb k PT_EOF then Ok [k]
      else ts <- tokens fuel l ;; Ok (k :: ts)
  end.

(** The constructor: the members are initialised, then the two lookahead
    values are filled by [nextChar] and [nextToken]. *)
Definition KAbstractObjParserPrivate (fuel : nat) (reader : list Z)
  (u : Uninitialised) : Res Parser :=
  let l := mkLexer reader (u_currChar u) (u_peekChar u)
             Token_new Token_new 1 (-1) in
  let (_, l) := nextChar l in
  l <- nextToken fuel l ;;
  Ok (mkParser l 0 0 0 0 0 (u_float4 u) [] []).

(** [KAbstractObjParser(reader).parse()]: construction followed by the
    public [parse]. *)
Definition KAbstractObjParser_parse (fuel : nat) (reader : list Z)
  (u : Uninitialised) : Res (bool * Parser) :=
  p <- KAbstractObjParserPrivate fuel reader u ;;
  parse fuel p.

(** The token kinds of a whole input, as the parser built on it sees
    them. *)
Definition tokenize (fuel : nat) (reader : list Z) (u : Uninitialised)
  : Res (list ParseToken) :=
  p <- KAbstractObjParserPrivate fuel reader u ;;
  tokens fuel (lexer p).

End ParserWithExternals.

(** ** A concrete reading of the external declarations *)

Definition isDigit (c : Z) : bool := (48 <=? c) && (c <=? 57).

Definition isUpper (c : Z) : bool := (65 <=? c) && (c <=? 90).

Definition isLower (c : Z) : bool := (97 <=? c) && (c <=? 122).

(** Modelled from the spec: [KAbstractReader::EndOfFile] and the helpers
    [Karma::isNumeric], [Karma::isAlpha], [Karma::ctoi] and
    [Karma::toLower]; kabstractreader.h and kcommon.h are not among the
    sources.  The spec has numeric literals start with a digit or an
    optional sign and identifiers made of alphabetic characters; the end
    of input is a value no character has. *)
#[local] Instance ascii_externals : Externals := {|
  EndOfFile := -1;
  isNumeric := fun c => isDigit c || (c =? MINUS) || (c =? PLUS);
  isAlpha := fun c => isUpper c || isLower c;
  ctoi := fun c => c - 48;
  toLower := fun c => if isUpper c then c + 32 else c
|}.

(** What the proofs about concrete texts need from the character helpers:
    the end of input is no character and neither numeric nor alphabetic;
    digits are numeric; whitespace, slash and newline are not; the letter
    f is alphabetic and not numeric; whitespace and newline are not
    alphabetic. *)
Definition conventional (ext : Externals) : Prop :=
  isNumeric EndOfFile = false /\
  isAlpha EndOfFile = false /\
  (EndOfFile < 0 \/ 255 < EndOfFile) /\
  (forall c, isDigit c = true -> isNumeric c = true) /\
  (forall c, isWhitespace c = true -> isNumeric c = false) /\
  isNumeric SLASH = false /\
  isNumeric NEWLINE = false /\
  isNumeric LOWER_F = false /\
  isAlpha LOWER_F = true /\
  (forall c, isWhitespace c = true -> isAlpha c = false) /\
  isAlpha NEWLINE = false.

Definition zeros : Float4 := mkFloat4 0%Q 0%Q 0%Q 0%Q.

Definition blank : Uninitialised := mkUninitialised 0 0 zeros.

(** The sink calls of a whole run on a text, when it returns. *)
Definition calls_of (r : Res (bool * Parser)) : option (bool * list SinkCall) :=
  match r with
  | Ok (b, p) => Some (b, sink p)
  | _ => None
  end.

(** A text given line by line: every line is closed by a newline. *)
Definition line (s : string) : list Z := chars s ++ [NEWLINE].

Definition text (ls : list string) : list Z :=
  List.concat (map line ls).

Definition run (fuel : nat) (ls : list string) : Res (bool * Parser) :=
  KAbstractObjParser_parse fuel (text ls) blank.

(** The state in which the loop of [parse] dispatches on the first token
    of a text: after construction and one call of [nextToken]. *)
Definition at_first_token (fuel : nat) (ls : list string)
  (u : Uninitialised) : Res Parser :=
  p <- KAbstractObjParserPrivate fuel (text ls) u ;;
  l <- nextToken fuel (lexer p) ;;
  Ok (set_lexer p l).

(** * Vocabulary of the properties

    The predicates and measures the statements below are written with. *)

Section Vocabulary.

Context {ext : Externals}.

(** [ensures E P r]: if [r] is a result it satisfies [P], and if it is a
    fatal error the error satisfies [E]. *)
Definition ensures {A : Type} (E : FatalError -> Prop) (P : A -> Prop)
  (r : Res A) : Prop :=
  match r with
  | Ok a => P a
  | Fatal e => E e
  | OutOfFuel => True
  end.

(** The lexer's only error: an unexpected character. *)
Definition lexical (e : FatalError) : Prop :=
  exists line col c, e = UnexpectedCharacter line col c.

(** No fatal error at all. *)
Definition never (e : FatalError) : Prop := False.

(** The two token members are left alone. *)
Definition same_tokens (l l' : Lexer) : Prop :=
  m_currToken l' = m_currToken l /\ m_peekToken l' = m_peekToken l.

(** What every lexing function guarantees about its answer: the kind is
    not [PT_ERROR] and the token members of the state are untouched. *)
Definition lexed (l : Lexer) (r : ParseToken * Token * Lexer) : Prop :=
  fst (fst r) <> PT_ERROR /\ same_tokens l (snd r).

(** The lookahead token is not the error token. *)
Definition peek_ok (l : Lexer) : Prop := m_token (m_peekToken l) <> PT_ERROR.

(** The token kinds a statement rule consumes. *)
Definition filler (k : ParseToken) : bool :=
  match k with
  | PT_INTEGER | PT_FLOAT | PT_SEPARATOR => true
  | _ => false
  end.

(** [steps l l']: [l'] is reached from [l] by calls of [nextToken], each
    of which consumes a lookahead token of a [filler] kind. *)
Inductive steps : Lexer -> Lexer -> Prop :=
| steps_refl : forall l, steps l l
| steps_next : forall fuel l l1 l2,
    filler (m_token (peekToken l)) = true ->
    nextToken fuel l = Ok l1 ->
    steps l1 l2 ->
    steps l l2.

(** The five statistics counters are where they were. *)
Definition same_counts (p p' : Parser) : Prop :=
  m_vertexCount p' = m_vertexCount p /\
  m_textureCount p' = m_textureCount p /\
  m_normalCount p' = m_normalCount p /\
  m_parameterCount p' = m_parameterCount p /\
  m_faceCount p' = m_faceCount p.

(** [quiet p p']: tokens were consumed and scratch storage written, but
    no counter moved and the sink was not called. *)
Definition quiet (p p' : Parser) : Prop :=
  steps (lexer p) (lexer p') /\ same_counts p p' /\ sink p' = sink p.

(** The keyword a sink call answers. *)
Definition call_kind (c : SinkCall) : ParseToken :=
  match c with
  | onVertex _ => PT_VERTEX
  | onTexture _ => PT_TEXTURE
  | onNormal _ => PT_NORMAL
  | onParameter _ => PT_PARAMETER
  | onFace _ _ => PT_FACE
  end.

(** How a statement rule for keyword [k] moves the counters: the face
    counter is moved by no rule. *)
Definition counted (k : ParseToken) (p p' : Parser) : Prop :=
  m_vertexCount p' =
    (if ParseToken_eqb k PT_VERTEX then wrap64 (m_vertexCount p + 1)
     else m_vertexCount p) /\
  m_textureCount p' =
    (if ParseToken_eqb k PT_TEXTURE then wrap64 (m_textureCount p + 1)
     else m_textureCount p) /\
  m_normalCount p' =
    (if ParseToken_eqb k PT_NORMAL then wrap64 (m_normalCount p + 1)
     else m_normalCount p) /\
  m_parameterCount p' =
    (if ParseToken_eqb k PT_PARAMETER then wrap64 (m_parameterCount p + 1)
     else m_parameterCount p) /\
  m_faceCount p' = m_faceCount p.

(** [emitted k p p']: a rule for keyword [k] ran from [p] to [p']: it
    consumed filler tokens, moved the counters as [counted] says and
    called the sink exactly once, with the call for [k]. *)
Definition emitted (k : ParseToken) (p p' : Parser) : Prop :=
  steps (lexer p) (lexer p') /\
  counted k p p' /\
  exists c, sink p' = sink p ++ [c] /\ call_kind c = k.

(** The keywords the loop of [parse] dispatches to a statement rule. *)
Definition geometry (k : ParseToken) : bool :=
  match k with
  | PT_VERTEX | PT_TEXTURE | PT_NORMAL | PT_PARAMETER | PT_FACE => true
  | _ => false
  end.

(** One turn of the loop of [parse], seen from outside. *)
Definition turn (p : Parser) (r : option bool * Parser) : Prop :=
  exists fuel l1,
    nextToken fuel (lexer p) = Ok l1 /\
    let k := m_token (currToken l1) in
    match fst r with
    | Some b => b = true /\ k = PT_EOF /\ snd r = set_lexer p l1
    | None =>
        k <> PT_EOF /\
        if geometry k then emitted k (set_lexer p l1) (snd r)
        else snd r = set_lexer p l1
    end.

(** [runs p p']: a whole run of the loop of [parse] from [p] to the
    state [p'] in which it returns. *)
Inductive runs : Parser -> Parser -> Prop :=
| runs_eof : forall fuel p l1,
    nextToken fuel (lexer p) = Ok l1 ->
    m_token (currToken l1) = PT_EOF ->
    runs p (set_lexer p l1)
| runs_skip : forall fuel p l1 p',
    nextToken fuel (lexer p) = Ok l1 ->
    m_token (currToken l1) <> PT_EOF ->
    geometry (m_token (currToken l1)) = false ->
    runs (set_lexer p l1) p' ->
    runs p p'
| runs_rule : forall fuel p l1 p1 p',
    nextToken fuel (lexer p) = Ok l1 ->
    geometry (m_token (currToken l1)) = true ->
    emitted (m_token (currToken l1)) (set_lexer p l1) p1 ->
    runs p1 p' ->
    runs p p'.

(** The number of calls of kind [k] among [calls]. *)
Definition count_calls (k : ParseToken) (calls : list SinkCall) : Z :=
  Z.of_nat (List.length
              (filter (fun c => ParseToken_eqb (call_kind c) k) calls)).

(** The counters a rule increments agree with the calls made so far; the
    face counter has never moved. *)
Definition counters_agree (p : Parser) : Prop :=
  m_vertexCount p = wrap64 (count_calls PT_VERTEX (sink p)) /\
  m_textureCount p = wrap64 (count_calls PT_TEXTURE (sink p)) /\
  m_normalCount p = wrap64 (count_calls PT_NORMAL (sink p)) /\
  m_parameterCount p = wrap64 (count_calls PT_PARAMETER (sink p)) /\
  m_faceCount p = 0.

(** [stream l ts]: [ts] are the kinds of the tokens successive calls of
    [nextToken] make current from state [l] on, up to and including the
    first [PT_EOF]. *)
Inductive stream : Lexer -> list ParseToken -> Prop :=
| stream_eof : forall fuel l l1,
    nextToken fuel l = Ok l1 ->
    m_token (currToken l1) = PT_EOF ->
    stream l [PT_EOF]
| stream_cons : forall fuel l l1 ts,
    nextToken fuel l = Ok l1 ->
    m_token (currToken l1) <> PT_EOF ->
    stream l1 ts ->
    stream l (m_token (currToken l1) :: ts).

(** The statements the loop of [parse] recognises in a token stream: its
    geometry keywords, in order. *)
Definition statements (ts : list ParseToken) : list ParseToken :=
  filter geometry ts.

(** [finishes P r]: the computation did not run out of fuel, and a
    result satisfies [P]. *)
Definition finishes {A : Type} (P : A -> Prop) (r : Res A) : Prop :=
  match r with
  | Ok a => P a
  | Fatal _ => True
  | OutOfFuel => False
  end.

(** Characters the reader can still deliver before the end of input:
    those not yet pulled and the lookahead character. *)
Definition pending (l : Lexer) : nat :=
  (List.length (m_reader l) +
   (if (m_peekChar l =? EndOfFile)%Z then 0 else 1))%nat.

(** Lexing never puts characters back. *)
Definition not_more (l : Lexer) (r : ParseToken * Token * Lexer) : Prop :=
  (pending (snd r) <= pending l)%nat.

(** A token other than [PT_EOF] costs at least one character. *)
Definition consumed (l : Lexer) (r : ParseToken * Token * Lexer) : Prop :=
  (pending (snd r) + (if ParseToken_eqb (fst (fst r)) PT_EOF then 0 else 1)
   <= pending l)%nat.

(** Tokens the lexer can still deliver: one per pending character at
    most, and the lookahead token unless it is [PT_EOF]. *)
Definition remaining (l : Lexer) : nat :=
  (pending l +
   (if ParseToken_eqb (m_token (peekToken l)) PT_EOF then 0 else 1))%nat.

(** A statement rule never adds to the tokens left. *)
Definition no_more_tokens (p : Parser) (p' : Parser) : Prop :=
  (remaining (lexer p') <= remaining (lexer p))%nat.

(** [stable f]: once [f] answers with some fuel, it gives the same answer
    with more. *)
Definition stable {A : Type} (f : nat -> Res A) : Prop :=
  forall n m, (n <= m)%nat -> f n <> OutOfFuel -> f m = f n.

(** The token kinds [parseFloat] accepts. *)
Definition numeric (k : ParseToken) : bool :=
  match k with
  | PT_FLOAT | PT_INTEGER => true
  | _ => false
  end.

(** The value [parseFloat] stores for a numeric token. *)
Definition token_value (t : Token) : float :=
  match m_token t with
  | PT_FLOAT => read_asFloat (m_attribute t)
  | PT_INTEGER => float_of_int (read_asInteger (m_attribute t))
  | _ => 0%Q
  end.

(** Writing successive values into the scratch storage from slot [i]. *)
Fixpoint fill (a : Float4) (i : nat) (vals : list float) : Float4 :=
  match vals with
  | [] => a
  | v :: vs => fill (set_float a i v) (S i) vs
  end.

(** [numeric_fields fuel l vals l']: from [l] the lexer delivers numeric
    tokens with the values [vals], one per call of [nextToken], ends in
    [l'], and the lookahead token of [l'] is not numeric. *)
Fixpoint numeric_fields (fuel : nat) (l : Lexer) (vals : list float)
  (l' : Lexer) : Prop :=
  match vals with
  | [] => l' = l /\ numeric (m_token (peekToken l)) = false
  | v :: vs =>
      numeric (m_token (peekToken l)) = true /\
      token_value (peekToken l) = v /\
      exists l1, nextToken fuel l = Ok l1 /\ numeric_fields fuel l1 vs l'
  end.

(** What a rule leaves behind when it found the fields [vals] and then a
    token that is not numeric: the lexer state [l'], and the scratch
    storage with [vals] written from slot 0 on. *)
Definition after_fields (p : Parser) (l' : Lexer) (vals : list float)
  : Parser :=
  set_float4 (set_lexer p l') (fill (m_float4 p) 0 vals).

(** A non-empty string of decimal digits. *)
Definition digits (ds : list Z) : Prop :=
  ds <> [] /\ Forall (fun c => isDigit c = true) ds.

(** A run of whitespace characters. *)
Definition blanks (ws : list Z) : Prop :=
  Forall (fun c => isWhitespace c = true) ws.

(** The lexemes of a face statement: an integer, a separator, the end of
    the statement; each comes with the whitespace written before it. *)
Inductive Lexeme :=
| LInt (ds : list Z)
| LSep
| LEnd.

Definition lexeme_text (x : Lexeme) : list Z :=
  match x with
  | LInt ds => ds
  | LSep => [SLASH]
  | LEnd => [NEWLINE]
  end.

Definition spaced_text (x : list Z * Lexeme) : list Z :=
  fst x ++ lexeme_text (snd x).

Definition lexemes_text (xs : list (list Z * Lexeme)) : list Z :=
  List.concat (map spaced_text xs).

(** There is a first lexeme, and it is not an integer written without
    whitespace before it. *)
Definition separate (xs : list (list Z * Lexeme)) : Prop :=
  match xs with
  | [] => False
  | ([], LInt _) :: _ => False
  | _ => True
  end.

(** Whitespace is whitespace, an integer lexeme is a digit string, and
    after an integer comes a lexeme that does not continue it. *)
Fixpoint lexable (xs : list (list Z * Lexeme)) : Prop :=
  match xs with
  | [] => True
  | x :: xs' =>
      (blanks (fst x) /\
       match snd x with
       | LInt ds => digits ds /\ separate xs'
       | _ => True
       end) /\ lexable xs'
  end.

(** The index groups of a face statement as they are written: the
    whitespace before the group, a vertex index, and for the texture and
    the normal index either nothing, a separator alone, or a separator
    and an index. *)
Inductive Slot :=
| Absent
| Empty
| Index (ds : list Z).

Record Group := mkGroup {
  g_space : list Z;
  g_vertex : list Z;
  g_texture : Slot;
  g_normal : Slot
}.

Definition slot_text (s : Slot) : list Z :=
  match s with
  | Absent => []
  | Empty => [SLASH]
  | Index ds => SLASH :: ds
  end.

Definition group_text (g : Group) : list Z :=
  g_vertex g ++ slot_text (g_texture g) ++ slot_text (g_normal g).

(** What a face statement holds after its keyword: the groups, each
    after its whitespace, the whitespace [tl] that ends the line, and the
    newline. *)
Definition groups_text (gs : list Group) (tl : list Z) : list Z :=
  List.concat (map (fun g => g_space g ++ group_text g) gs)
    ++ tl ++ [NEWLINE].

(** A face statement on a line of its own. *)
Definition face_line (gs : list Group) (tl : list Z) : list Z :=
  chars "f" ++ groups_text gs tl.

Definition slot_ok (s : Slot) : Prop :=
  match s with
  | Index ds => digits ds
  | _ => True
  end.

(** A group is well formed when whitespace separates it from what comes
    before, its indices are digit strings and a normal slot is only
    written after a texture slot. *)
Definition group_ok (g : Group) : Prop :=
  (g_space g <> [] /\ blanks (g_space g)) /\
  digits (g_vertex g) /\ slot_ok (g_texture g) /\ slot_ok (g_normal g) /\
  (g_texture g = Absent -> g_normal g = Absent).

(** The group ends with a separator. *)
Definition open_ended (g : Group) : bool :=
  match g_normal g with
  | Empty => true
  | Index _ => false
  | Absent => match g_texture g with Empty => true | _ => false end
  end.

(** Every group is well formed, and only the last may end with a
    separator. *)
Fixpoint groups_ok (gs : list Group) : Prop :=
  match gs with
  | [] => True
  | g :: gs' =>
      group_ok g /\
      (gs' <> [] -> open_ended g = false) /\
      groups_ok gs'
  end.

Definition slot_lexemes (s : Slot) : list (list Z * Lexeme) :=
  match s with
  | Absent => []
  | Empty => [([], LSep)]
  | Index ds => [([], LSep); ([], LInt ds)]
  end.

Definition group_lexemes (g : Group) : list (list Z * Lexeme) :=
  (g_space g, LInt (g_vertex g))
    :: slot_lexemes (g_texture g) ++ slot_lexemes (g_normal g).

Definition line_lexemes (gs : list Group) (tl : list Z)
  : list (list Z * Lexeme) :=
  List.concat (map group_lexemes gs) ++ [(tl, LEnd)].

(** The value the loop of [lexReadInteger] accumulates over a digit
    string, and the value [lexReadInteger] answers for an unsigned one. *)
Fixpoint digits_value (integer : Z) (ds : list Z) : Z :=
  match ds with
  | [] => integer
  | d :: ds' =>
      digits_value (wrap32 (wrap32 (integer * 10) + ctoi d)) ds'
  end.

Definition integer_value (ds : list Z) : Z :=
  match ds with
  | [] => 0
  | d :: ds' => wrap32 (1 * digits_value (ctoi d) ds')
  end.

(** [reads l cs]: the characters the reader of [l] delivers next are
    exactly [cs], followed by the end of input. *)
Definition reads (l : Lexer) (cs : list Z) : Prop :=
  match cs with
  | [] => m_peekChar l = EndOfFile /\ m_reader l = []
  | c :: cs' => m_peekChar l = c /\ m_reader l = cs'
  end.

(** A token as the statement rules see it: its kind, and its value when
    it is an integer. *)
Definition lexeme_tok (x : list Z * Lexeme) : ParseToken * Z :=
  match snd x with
  | LInt ds => (PT_INTEGER, integer_value ds)
  | LSep => (PT_SEPARATOR, 0)
  | LEnd => (PT_ENDSTATEMENT, 0)
  end.

(** Token [t] has the kind, and for an integer the value, of [k]. *)
Definition token_is (t : Token) (k : ParseToken * Z) : Prop :=
  m_token t = fst k /\
  (fst k = PT_INTEGER -> m_attribute t = asInteger (snd k)).

(** [script rest l ts]: the lookahead token of [l] and the tokens
    [nextToken] delivers after it are [ts], each call succeeding with any
    fuel beyond the pending characters; when the last of them is the
    lookahead token the reader stands in front of [rest]. *)
Inductive script (rest : list Z) : Lexer -> list (ParseToken * Z) -> Prop :=
| script_one : forall l t,
    token_is (peekToken l) t -> reads l rest -> script rest l [t]
| script_more : forall l l1 t ts,
    token_is (peekToken l) t ->
    (forall fuel, (pending l < fuel)%nat -> nextToken fuel l = Ok l1) ->
    m_currToken l1 = m_peekToken l ->
    (pending l1 < pending l)%nat ->
    script rest l1 ts ->
    script rest l (t :: ts).

(** The index a slot decodes to: 0 unless an index is written. *)
Definition slot_index (s : Slot) : Z :=
  match s with
  | Index ds => wrap64 (integer_value ds)
  | _ => 0
  end.

(** The index triple a group decodes to. *)
Definition triple (g : Group) : index_array :=
  (wrap64 (integer_value (g_vertex g)),
   slot_index (g_texture g), slot_index (g_normal g)).

(** A line: characters other than the newline and the end of input. *)
Definition in_line (c : Z) : Prop := c <> NEWLINE /\ c <> EndOfFile.

(** Uninitialised members with recognisable scratch storage. *)
Definition stale : Uninitialised :=
  mkUninitialised 0 0 (mkFloat4 11 12 13 14).

(** The texture and the normal component of an index triple. *)
Definition texture_of (ia : index_array) : Z := snd (fst ia).

Definition normal_of (ia : index_array) : Z := snd ia.

(** The lexer in the text "g a$b" / "v 1" at the moment the keyword [g]
    has become the current token: the reader stands after the keyword. *)
Definition after_group_keyword : Lexer :=
  mkLexer (text ["a$b"%string; "v 1"%string]) 103 SPACE
    (mkToken PT_GROUP [103] Indeterminate) Token_new 1 1.

End Vocabulary.

(** * The reserved map and the string class on their containers

    [sg_reserved] above lists the insertions of the constructor of
    [ParseMap]; here is the map itself, ordered by [ParseCompare]. *)

(** [std::strcmp] on two C strings, each given by the characters before
    its terminator: negative, zero or positive. *)
Fixpoint strcmp (lhs rhs : list Z) : Z :=
  match lhs, rhs with
  | [], [] => 0
  | [], _ :: _ => -1
  | _ :: _, [] => 1
  | x :: lhs', y :: rhs' =>
      if x =? y then strcmp lhs' rhs' else if x <? y then -1 else 1
  end.

(** [ParseCompare::operator()]. *)
Definition ParseCompare (lhs rhs : list Z) : bool := strcmp lhs rhs <? 0.

(** [std::map<char const*, ParseToken, ParseCompare>]: the entries in the
    order of [ParseCompare], no two keys equivalent. *)
Definition ParseMap : Type := list (list Z * ParseToken).

(** [std::map::insert]: the entry goes to its place in the order; when
    the map holds an equivalent key already it is left as it is. *)
Fixpoint map_insert (m : ParseMap) (v : list Z * ParseToken) : ParseMap :=
  match m with
  | [] => [v]
  | e :: m' =>
      if ParseCompare (fst v) (fst e) then v :: m
      else if ParseCompare (fst e) (fst v) then e :: map_insert m' v
      else m
  end.

(** [std::map::find]: the value of the entry whose key is equivalent to
    [key], [None] for [end()]. *)
Fixpoint map_find (m : ParseMap) (key : list Z) : option ParseToken :=
  match m with
  | [] => None
  | e :: m' =>
      if ParseCompare key (fst e) then None
      else if ParseCompare (fst e) key then map_find m' key
      else Some (snd e)
  end.

(** [ParseMap::ParseMap()]: the ten insertions in the order of the
    source. *)
Definition ParseMap_new : ParseMap := fold_left map_insert sg_reserved [].

(** The entries stand in strictly ascending order of their keys. *)
Fixpoint ascending (m : ParseMap) : Prop :=
  match m with
  | [] => True
  | e :: m' =>
      Forall (fun e' => ParseCompare (fst e) (fst e') = true) m' /\
      ascending m'
  end.

(** ** The class [ParseString] on its vector

    [ParseString] derives from [std::vector<char>]; here the vector is
    the list of its elements, terminators included.  A C string argument
    is given by characters of which [c_str] takes those before the first
    NUL.  [None] stands for an operation the language leaves undefined:
    [back()] on an empty vector, reading a string no NUL ends. *)

(** [ParseString::ParseString()]. *)
Definition ParseString_new : list Z := push_back [] 0.

(** [ParseString::clear]. *)
Definition ParseString_clear (v : list Z) : list Z := push_back [] 0.

(** [operator+=(char c)]: [back() = c; push_back(0)]. *)
Definition ParseString_append (v : list Z) (c : Z) : option (list Z) :=
  match v with
  | [] => None
  | _ :: _ => Some (push_back (set_back v c) 0)
  end.

(** [operator+=(char const *str)]. *)
Definition ParseString_append_str (v : list Z) (str : list Z) : list Z :=
  match c_str str with
  | [] => v
  | s => push_back (v ++ s) 0
  end.

(** [operator=(char c)]. *)
Definition ParseString_assign (v : list Z) (c : Z) : option (list Z) :=
  ParseString_append (ParseString_clear v) c.

(** [operator=(char const *str)]. *)
Definition ParseString_assign_str (v : list Z) (str : list Z) : list Z :=
  ParseString_append_str (ParseString_clear v) str.

(** [ParseString::ParseString(char const *str)]: the vector starts
    empty. *)
Definition ParseString_of_str (str : list Z) : list Z :=
  ParseString_append_str [] str.

(** The C string read through [data()]: the elements before the first
    NUL. *)
Fixpoint ParseString_data (v : list Z) : option (list Z) :=
  match v with
  | [] => None
  | c :: v' =>
      if c =? 0 then Some []
      else match ParseString_data v' with
           | Some s => Some (c :: s)
           | None => None
           end
  end.

(** Appending characters one after the other. *)
Fixpoint ParseString_extend (v : option (list Z)) (cs : list Z)
  : option (list Z) :=
  match cs with
  | [] => v
  | c :: cs' =>
      match v with
      | Some v => ParseString_extend (ParseString_append v c) cs'
      | None => None
      end
  end.

(** [ParseString::operator<]: [strcmp] on what [data()] reads on either
    side. *)
Definition ParseString_less (lhs rhs : list Z) : option bool :=
  match ParseString_data lhs, ParseString_data rhs with
  | Some a, Some b => Some (strcmp a b <? 0)
  | _, _ => None
  end.

(** * Vocabulary of the properties of lexemes, positions and runs *)

Section LexemeVocabulary.

Context {ext : Externals}.

(** A letter of the ASCII alphabet. *)
Definition isLetter (c : Z) : bool := isUpper c || isLower c.

(** A word: a non-empty run of letters. *)
Definition word (w : list Z) : Prop :=
  w <> [] /\ Forall (fun c => isLetter c = true) w.

(** The kind the reserved table gives a word: its keyword, or
    [PT_STRING] for any other word. *)
Definition keyword_of (w : list Z) : ParseToken :=
  match find sg_reserved w with
  | Some k => k
  | None => PT_STRING
  end.

(** The first of the characters to come, or the end of input. *)
Definition first_of (cs : list Z) : Z :=
  match cs with
  | [] => EndOfFile
  | c :: _ => c
  end.

(** A character the tokenization loop hands to the default branch of its
    switch. *)
Definition ordinary (c : Z) : Prop :=
  0 <= c <= 255 /\ isWhitespace c = false /\
  c <> NEWLINE /\ c <> HASH /\ c <> SLASH.

(** The sign a numeric literal is written with. *)
Inductive Sign :=
| Unsigned
| Plus
| Minus.

Definition sign_text (s : Sign) : list Z :=
  match s with
  | Unsigned => []
  | Plus => [PLUS]
  | Minus => [MINUS]
  end.

Definition sign_factor (s : Sign) : Z :=
  match s with
  | Minus => -1
  | _ => 1
  end.

(** The number a string of decimal digits writes, continuing from [n]. *)
Definition decimal_from (n : Z) (ds : list Z) : Z :=
  fold_left (fun n d => 10 * n + (d - 48)) ds n.

Definition decimal (ds : list Z) : Z := decimal_from 0 ds.

(** An integer literal: an optional sign and decimal digits, at least one
    digit when there is no sign, writing a number an [int] holds. *)
Definition literal (s : Sign) (ds : list Z) : Prop :=
  Forall (fun c => isDigit c = true) ds /\
  (s = Unsigned -> ds <> []) /\
  decimal ds < 2 ^ 31.

(** The power the loop of [lexReadInteger(int *power)] accumulates over
    the characters it reads. *)
Fixpoint power_value (pow : Z) (ds : list Z) : Z :=
  match ds with
  | [] => pow
  | _ :: ds' => power_value (wrap32 (pow * 10)) ds'
  end.

(** The value [lexTokenFloat] computes for integer part [ip] written
    with sign [s] and fraction digits [fp]. *)
Definition float_literal (s : Sign) (ip fp : list Z) : float :=
  let integer := sign_factor s * decimal ip in
  let fraction :=
    fdiv (float_of_int (decimal fp))
      (float_of_int (10 ^ (Z.of_nat (List.length fp) - 1))) in
  if 0 <=? integer
  then fadd (float_of_int integer) fraction
  else fsub (float_of_int integer) fraction.

(** The lexer as the constructor has it before its call of [nextToken],
    on the text [cs]. *)
Definition before (cs : list Z) : Lexer :=
  snd (nextChar (mkLexer cs 0 0 Token_new Token_new 1 (-1))).

(** The line of the character that follows the text [pre]: lines are
    counted from 1. *)
Definition line_of (pre : list Z) : Z :=
  1 + Z.of_nat (count_occ Z.eq_dec pre NEWLINE).

(** The characters of [pre] after its last newline. *)
Definition last_line (pre : list Z) : list Z :=
  fold_left (fun acc c => if c =? NEWLINE then [] else acc ++ [c]) pre [].

(** The number of characters that stand before the next one on its
    line. *)
Definition column_of (pre : list Z) : Z :=
  Z.of_nat (List.length (last_line pre)).

(** A character [lexToken] has no token for. *)
Definition unexpected (c : Z) : Prop :=
  c <> EndOfFile /\ isWhitespace c = false /\
  c <> NEWLINE /\ c <> HASH /\ c <> SLASH /\
  isNumeric c = false /\ isAlpha c = false.

(** The error names an unexpected character of the input [reader] with
    the line it stands on and its column, both counted from 1. *)
Definition at_position (reader : list Z) (e : FatalError) : Prop :=
  exists pre c post,
    reader = pre ++ c :: post /\
    e = UnexpectedCharacter (line_of pre) (column_of pre + 1) c /\
    unexpected c.

(** The reader of [l] stands somewhere in the input [reader], and as long
    as characters are left the two position counters describe the place
    of the last character read. *)
Definition located (reader : list Z) (l : Lexer) : Prop :=
  exists pre post,
    reader = pre ++ post /\
    reads l post /\
    (post <> [] ->
     m_currLineCount l = line_of pre /\ m_currCharCount l = column_of pre).

(** [numeric_run fuel l vals l']: from [l] the lexer delivers numeric
    tokens with the values [vals], one per call of [nextToken], and ends
    in [l']; nothing is said of the token that follows. *)
Fixpoint numeric_run (fuel : nat) (l : Lexer) (vals : list float)
  (l' : Lexer) : Prop :=
  match vals with
  | [] => l' = l
  | v :: vs =>
      numeric (m_token (peekToken l)) = true /\
      token_value (peekToken l) = v /\
      exists l1, nextToken fuel l = Ok l1 /\ numeric_run fuel l1 vs l'
  end.

(** The reader is sound: no character it still holds equals the
    end-of-input value, and once the lookahead character is the end of
    input nothing is left. *)
Definition sound (l : Lexer) : Prop :=
  Forall (fun c => c <> EndOfFile) (m_reader l) /\
  (m_peekChar l = EndOfFile -> m_reader l = []).

(** The input is used up: the lookahead token is [PT_EOF] and the reader
    has nothing left. *)
Definition exhausted (l : Lexer) : Prop :=
  m_token (peekToken l) = PT_EOF /\ reads l [].

(** A sound reader whose lookahead token, once [PT_EOF], has nothing
    after it. *)
Definition settled (l : Lexer) : Prop :=
  sound l /\ peek_ok l /\ (m_token (peekToken l) = PT_EOF -> reads l []).

(** A numeric field of a statement as it is written: the whitespace
    before it, an integer literal, and fraction digits after a decimal
    point if there is one. *)
Record Field := mkField {
  f_space : list Z;
  f_sign : Sign;
  f_integer : list Z;
  f_fraction : option (list Z)
}.

Definition field_text (f : Field) : list Z :=
  f_space f ++ sign_text (f_sign f) ++ f_integer f ++
  match f_fraction f with
  | None => []
  | Some fp => DOT :: fp
  end.

Definition fields_text (fs : list Field) : list Z :=
  List.concat (map field_text fs).

(** A field is well formed when whitespace separates it from what comes
    before, its integer part is a literal, and its fraction, if any, is
    at most ten digits writing a number an [int] holds. *)
Definition field_ok (f : Field) : Prop :=
  (f_space f <> [] /\ blanks (f_space f)) /\
  literal (f_sign f) (f_integer f) /\
  match f_fraction f with
  | None => True
  | Some fp =>
      digits fp /\ decimal fp < 2 ^ 31 /\ (List.length fp <= 10)%nat
  end.

(** The value [parseFloat] stores for a field: the integer converted, or
    the value [lexTokenFloat] computes. *)
Definition field_value (f : Field) : float :=
  match f_fraction f with
  | None => float_of_int (sign_factor (f_sign f) * decimal (f_integer f))
  | Some fp => float_literal (f_sign f) (f_integer f) fp
  end.

(** What the properties of numeric fields need from the character
    helpers: the end of input is no character; digits are numeric and
    [ctoi] gives their value; the two signs are numeric, the decimal
    point is not; whitespace and newline are not numeric and are not
    mapped to the letter e. *)
Definition numerate (ext : Externals) : Prop :=
  (EndOfFile < 0 \/ 255 < EndOfFile) /\
  (forall c, isDigit c = true -> isNumeric c = true /\ ctoi c = c - 48) /\
  isNumeric MINUS = true /\
  isNumeric PLUS = true /\
  isNumeric DOT = false /\
  (forall c, isWhitespace c = true \/ c = NEWLINE ->
             isNumeric c = false /\ toLower c <> LOWER_E).

End LexemeVocabulary.

(** * Properties *)

(** ** Postconditions of fallible computations *)

Lemma ensures_bind {A B : Type} (E : FatalError -> Prop) (P : A -> Prop)
  (Q : B -> Prop) (r : Res A) (k : A -> Res B) :
  ensures E P r -> (forall a, P a -> ensures E Q (k a)) ->
  ensures E Q (bind r k).
Proof.
  destruct r as [a | e | ]; simpl; auto.
Qed.

Lemma ensures_weaken {A : Type} (E E' : FatalError -> Prop)
  (P Q : A -> Prop) (r : Res A) :
  ensures E P r -> (forall e, E e -> E' e) -> (forall a, P a -> Q a) ->
  ensures E' Q r.
Proof.
  destruct r as [a | e | ]; simpl; auto.
Qed.

Lemma lexical_intro line col c : lexical (UnexpectedCharacter line col c).
Proof. exists line, col, c; reflexivity. Qed.

Lemma same_tokens_refl l : same_tokens l l.
Proof. split; reflexivity. Qed.

Lemma same_tokens_trans l1 l2 l3 :
  same_tokens l1 l2 -> same_tokens l2 l3 -> same_tokens l1 l3.
Proof. unfold same_tokens; intros [-> ->] [-> ->]; auto. Qed.

Section ErrorPaths.

Context {ext : Externals}.

Lemma nextChar_tokens l : same_tokens l (snd (nextChar l)).
Proof.
  unfold nextChar. destruct (next (m_reader l)) as [pk rd].
  destruct (m_peekChar l =? NEWLINE); split; reflexivity.
Qed.

Lemma nextLine_tokens l : same_tokens l (nextLine l).
Proof.
  unfold nextLine.
  destruct (nextLine_loop (m_reader l) (m_peekChar l)) as [c rd].
  destruct (next rd) as [pk rd']. split; reflexivity.
Qed.

Lemma lexReadInteger_loop_tokens fuel : forall pow integer l,
  ensures never (fun r => same_tokens l (snd r))
    (lexReadInteger_loop fuel pow integer l).
Proof.
  induction fuel as [ | fuel IH]; intros pow integer l; simpl; [exact I | ].
  destruct (isNumeric (m_peekChar l)).
  - pose proof (nextChar_tokens l) as Hn.
    destruct (nextChar l) as [c l1]. simpl in Hn.
    eapply ensures_weaken; [apply IH | auto | ].
    intros r Hr. eapply same_tokens_trans; eassumption.
  - simpl. apply same_tokens_refl.
Qed.

Lemma lexReadInteger_power_tokens fuel l :
  ensures never (fun r => same_tokens l (snd r))
    (lexReadInteger_power fuel l).
Proof.
  unfold lexReadInteger_power.
  eapply ensures_bind; [apply lexReadInteger_loop_tokens | ].
  intros [[pw i] l1] H. exact H.
Qed.

Lemma lexReadInteger_tokens fuel l :
  ensures never (fun r => same_tokens l (snd r)) (lexReadInteger fuel l).
Proof.
  unfold lexReadInteger.
  eapply ensures_bind; [apply lexReadInteger_power_tokens | ].
  intros [[pw i] l1] H. exact H.
Qed.

(** No keyword of the reserved table resolves to [PT_ERROR]. *)
Lemma symResolve_not_error token :
  symResolve token PT_STRING <> PT_ERROR.
Proof.
  unfold symResolve.
  generalize (c_str (m_lexicon token)); intro key.
  unfold sg_reserved; simpl.
  repeat (destruct (list_Z_eqb _ key); [discriminate | ]).
  discriminate.
Qed.

Lemma lexed_trans l l1 r :
  same_tokens l l1 -> lexed l1 r -> lexed l r.
Proof.
  intros H [Hk Ht]. split; [exact Hk | ].
  eapply same_tokens_trans; eassumption.
Qed.

Lemma lexTokenIdentifier_loop_lexed fuel : forall l token,
  ensures lexical (lexed l) (lexTokenIdentifier_loop fuel l token).
Proof.
  induction fuel as [ | fuel IH]; intros l token; simpl; [exact I | ].
  destruct (isAlpha (m_peekChar l)).
  - pose proof (nextChar_tokens l) as Hn.
    destruct (nextChar l) as [c l1]. simpl in Hn.
    eapply ensures_weaken; [apply IH | auto | ].
    intros r. apply lexed_trans, Hn.
  - simpl. split; [apply symResolve_not_error | apply same_tokens_refl].
Qed.

Lemma lexTokenFloat_lexed fuel l token integer :
  ensures lexical (lexed l) (lexTokenFloat fuel l token integer).
Proof.
  unfold lexTokenFloat.
  eapply ensures_bind.
  { eapply ensures_weaken;
      [apply lexReadInteger_power_tokens | intros e [] | intros a H; exact H]. }
  intros [[pw fr] l1] H1. simpl in H1.
  destruct (toLower (m_peekChar l1) =? LOWER_E).
  - pose proof (nextChar_tokens l1) as Hn1.
    destruct (nextChar l1) as [c1 l2]. simpl in Hn1.
    pose proof (nextChar_tokens l2) as Hn2.
    destruct (nextChar l2) as [c2 l3]. simpl in Hn2.
    unfold lexTokenFloatExponent.
    eapply ensures_bind.
    { eapply ensures_weaken;
        [apply lexReadInteger_tokens | intros e [] | intros a H; exact H]. }
    intros [pw' l4] H4. simpl in H4. simpl.
    split; [discriminate | ]. simpl.
    eauto using same_tokens_trans.
  - simpl. split; [discriminate | exact H1].
Qed.

Lemma lexTokenInteger_lexed fuel l token :
  ensures lexical (lexed l) (lexTokenInteger fuel l token).
Proof.
  unfold lexTokenInteger.
  eapply ensures_bind.
  { eapply ensures_weaken;
      [apply lexReadInteger_tokens | intros e [] | intros a H; exact H]. }
  intros [i l1] H1. simpl in H1.
  destruct (m_peekChar l1 =? DOT).
  - pose proof (nextChar_tokens l1) as Hn1.
    destruct (nextChar l1) as [c1 l2]. simpl in Hn1.
    pose proof (nextChar_tokens l2) as Hn2.
    destruct (nextChar l2) as [c2 l3]. simpl in Hn2.
    eapply ensures_weaken; [apply lexTokenFloat_lexed | auto | ].
    intros r. apply lexed_trans. eauto using same_tokens_trans.
  - simpl. split; [discriminate | exact H1].
Qed.

Lemma lexToken_loop_lexed fuel : forall l token,
  ensures lexical (lexed l) (lexToken_loop fuel l token).
Proof.
  induction fuel as [ | fuel IH]; intros l token; simpl; [exact I | ].
  pose proof (nextChar_tokens l) as Hn.
  destruct (nextChar l) as [c l1]. simpl in Hn.
  destruct (c =? EndOfFile); [simpl; split; [discriminate | exact Hn] | ].
  destruct (isWhitespace c).
  { eapply ensures_weaken; [apply IH | auto | ].
    intros r. apply lexed_trans, Hn. }
  destruct (c =? NEWLINE); [simpl; split; [discriminate | exact Hn] | ].
  destruct (c =? HASH).
  { simpl; split; [discriminate | ]. simpl.
    eapply same_tokens_trans; [exact Hn | apply nextLine_tokens]. }
  destruct (c =? SLASH); [simpl; split; [discriminate | exact Hn] | ].
  destruct (isNumeric (m_currChar l1)).
  { eapply ensures_weaken; [apply lexTokenInteger_lexed | auto | ].
    intros r. apply lexed_trans, Hn. }
  destruct (isAlpha (m_currChar l1)).
  - eapply ensures_weaken; [apply lexTokenIdentifier_loop_lexed | auto | ].
    intros r. apply lexed_trans, Hn.
  - simpl. apply lexical_intro.
Qed.

(** [lexToken] never answers [PT_ERROR], and its only fatal error is the
    unexpected character. *)
Lemma lexToken_lexed fuel l token :
  ensures lexical (lexed l) (lexToken fuel l token).
Proof.
  unfold lexToken.
  destruct (skipsLine (m_token (m_currToken l))).
  - eapply ensures_weaken; [apply lexToken_loop_lexed | auto | ].
    intros r. apply lexed_trans, nextLine_tokens.
  - apply lexToken_loop_lexed.
Qed.

(** After [nextToken] the current token is the former lookahead token and
    the new lookahead token is not the error token. *)
Lemma nextToken_ok fuel l :
  ensures lexical
    (fun l' => peek_ok l' /\ m_currToken l' = m_peekToken l)
    (nextToken fuel l).
Proof.
  unfold nextToken.
  eapply ensures_bind; [apply lexToken_lexed | ].
  intros [[k token] l1] [Hk [Hc Hp]]. simpl in *.
  split; [exact Hk | exact Hc].
Qed.

End ErrorPaths.

(** ** What the statement rules do to the token stream *)

Section Rules.

Context {ext : Externals}.

Lemma steps_one fuel l l1 :
  filler (m_token (peekToken l)) = true ->
  nextToken fuel l = Ok l1 -> steps l l1.
Proof. intros H1 H2. eapply steps_next; eauto using steps_refl. Qed.

Lemma steps_trans l1 l2 l3 : steps l1 l2 -> steps l2 l3 -> steps l1 l3.
Proof.
  induction 1; intros H3; [exact H3 | ].
  eapply steps_next; eauto.
Qed.

Lemma nextToken_Ok fuel l l1 :
  nextToken fuel l = Ok l1 ->
  peek_ok l1 /\ m_currToken l1 = m_peekToken l.
Proof.
  intros H. pose proof (nextToken_ok fuel l) as Hn.
  rewrite H in Hn. exact Hn.
Qed.

Lemma nextToken_Fatal fuel l e : nextToken fuel l = Fatal e -> lexical e.
Proof.
  intros H. pose proof (nextToken_ok fuel l) as Hn.
  rewrite H in Hn. exact Hn.
Qed.

Lemma steps_peek_ok l l' : steps l l' -> peek_ok l -> peek_ok l'.
Proof.
  induction 1 as [ | fuel l l1 l2 Hf Hn Hs IH]; intros Hp; [exact Hp | ].
  apply IH. apply (nextToken_Ok _ _ _ Hn).
Qed.

Lemma parseFloat_steps fuel l f :
  ensures lexical (fun r => steps l (snd r)) (parseFloat fuel l f).
Proof.
  unfold parseFloat.
  destruct (m_token (peekToken l)) eqn:Hk; simpl; try apply steps_refl;
    (destruct (nextToken fuel l) as [l1 | e | ] eqn:Hn; simpl;
     [ eapply steps_one; [rewrite Hk; reflexivity | exact Hn]
     | eapply nextToken_Fatal; exact Hn
     | exact I ]).
Qed.

Lemma parseInteger_steps fuel l i :
  ensures lexical (fun r => steps l (snd r)) (parseInteger fuel l i).
Proof.
  unfold parseInteger.
  destruct (m_token (peekToken l)) eqn:Hk; simpl; try apply steps_refl.
  destruct (nextToken fuel l) as [l1 | e | ] eqn:Hn; simpl.
  - eapply steps_one; [rewrite Hk; reflexivity | exact Hn].
  - eapply nextToken_Fatal; exact Hn.
  - exact I.
Qed.

Lemma checkToken_steps fuel l :
  ensures lexical (fun r => steps l (snd r)) (checkToken fuel l PT_SEPARATOR).
Proof.
  unfold checkToken.
  destruct (m_token (peekToken l)) eqn:Hk; simpl; try apply steps_refl.
  destruct (nextToken fuel l) as [l1 | e | ] eqn:Hn; simpl.
  - eapply steps_one; [rewrite Hk; reflexivity | exact Hn].
  - eapply nextToken_Fatal; exact Hn.
  - exact I.
Qed.

Lemma same_counts_refl p : same_counts p p.
Proof. repeat split. Qed.

Lemma same_counts_trans p1 p2 p3 :
  same_counts p1 p2 -> same_counts p2 p3 -> same_counts p1 p3.
Proof.
  unfold same_counts.
  intros (-> & -> & -> & -> & ->) (-> & -> & -> & -> & ->).
  repeat split.
Qed.

Lemma quiet_refl p : quiet p p.
Proof. split; [apply steps_refl | split; [apply same_counts_refl | reflexivity]]. Qed.

Lemma quiet_trans p1 p2 p3 : quiet p1 p2 -> quiet p2 p3 -> quiet p1 p3.
Proof.
  intros (S1 & C1 & K1) (S2 & C2 & K2).
  split; [eapply steps_trans; eassumption | ].
  split; [eapply same_counts_trans; eassumption | congruence].
Qed.

Lemma quiet_set_float4 p a : quiet p (set_float4 p a).
Proof. split; [apply steps_refl | split; [repeat split | reflexivity]]. Qed.

Lemma parseFloat_at_quiet fuel i p :
  ensures lexical (fun r => quiet p (snd r)) (parseFloat_at fuel i p).
Proof.
  unfold parseFloat_at.
  eapply ensures_bind; [apply parseFloat_steps | ].
  intros [[b f] l] Hs. simpl in *.
  split; [exact Hs | split; [repeat split | reflexivity]].
Qed.

Lemma emitted_intro k p0 p p' c :
  counted k p0 p -> sink p = sink p0 -> lexer p = lexer p0 ->
  quiet p p' -> call_kind c = k ->
  emitted k p0 (call p' c).
Proof.
  intros Hc Hs Hl (S1 & (C1 & C2 & C3 & C4 & C5) & K1) Hk.
  destruct Hc as (D1 & D2 & D3 & D4 & D5).
  split; [simpl; rewrite <- Hl; exact S1 | ].
  split.
  - unfold counted; simpl. rewrite C1, C2, C3, C4, C5. auto.
  - exists c. simpl. rewrite K1, Hs. auto.
Qed.

Ltac float_at b q H :=
  eapply ensures_bind; [apply parseFloat_at_quiet | ];
  intros [b q] H; simpl in H.

Lemma parseVertex_emitted fuel p :
  ensures lexical (emitted PT_VERTEX p) (parseVertex fuel p).
Proof.
  unfold parseVertex.
  float_at b1 p1 H1. float_at b2 p2 H2. float_at b3 p3 H3.
  float_at b4 p4 H4.
  apply emitted_intro with (p := incr_vertexCount p);
    try reflexivity; [repeat split | ].
  destruct b4;
    [ | eapply quiet_trans; [ | apply quiet_set_float4]];
    eauto using quiet_trans.
Qed.

Lemma parseTexture_emitted fuel p :
  ensures lexical (emitted PT_TEXTURE p) (parseTexture fuel p).
Proof.
  unfold parseTexture.
  float_at b1 p1 H1. float_at b2 p2 H2. float_at b3 p3 H3.
  apply emitted_intro with (p := incr_textureCount p);
    try reflexivity; [repeat split | ].
  destruct b3;
    [ | eapply quiet_trans; [ | apply quiet_set_float4]];
    eauto using quiet_trans.
Qed.

Lemma parseNormal_emitted fuel p :
  ensures lexical (emitted PT_NORMAL p) (parseNormal fuel p).
Proof.
  unfold parseNormal.
  float_at b1 p1 H1. float_at b2 p2 H2. float_at b3 p3 H3.
  apply emitted_intro with (p := incr_normalCount p);
    try reflexivity; [repeat split | ].
  eauto using quiet_trans.
Qed.

Lemma parseParameter_emitted fuel p :
  ensures lexical (emitted PT_PARAMETER p) (parseParameter fuel p).
Proof.
  unfold parseParameter.
  float_at b1 p1 H1. float_at b2 p2 H2.
  eapply ensures_bind with (P := quiet (incr_parameterCount p)).
  - destruct b2.
    + float_at b3 p3 H3.
      destruct b3; simpl;
        [ | eapply quiet_trans; [ | apply quiet_set_float4]];
        eauto using quiet_trans.
    + simpl. eapply quiet_trans; [ | apply quiet_set_float4].
      eauto using quiet_trans.
  - intros p' Hq. simpl.
    apply emitted_intro with (p := incr_parameterCount p);
      try reflexivity; [repeat split | exact Hq].
Qed.

Lemma parseFaceIndices_steps fuel l indices :
  ensures lexical (fun r => steps l (snd r)) (parseFaceIndices fuel l indices).
Proof.
  unfold parseFaceIndices. destruct indices as [[i0 i1] i2].
  eapply ensures_bind; [apply parseInteger_steps | ].
  intros [[b j0] l1] H1. simpl in H1.
  destruct b; simpl; [ | exact H1].
  eapply ensures_bind; [apply checkToken_steps | ].
  intros [sep1 l2] H2. simpl in H2.
  eapply ensures_bind
    with (P := fun r : Z * Lexer => steps l (snd r)).
  { destruct sep1; simpl; [ | eauto using steps_trans].
    eapply ensures_bind; [apply parseInteger_steps | ].
    intros [[b j1] l3] H3. simpl in *. eauto using steps_trans. }
  intros [j1 l3] H3. simpl in H3.
  eapply ensures_bind; [apply checkToken_steps | ].
  intros [sep2 l4] H4. simpl in H4.
  eapply ensures_bind
    with (P := fun r : Z * Lexer => steps l (snd r)).
  { destruct sep2; simpl; [ | eauto using steps_trans].
    eapply ensures_bind; [apply parseInteger_steps | ].
    intros [[b j2] l5] H5. simpl in *. eauto using steps_trans. }
  intros [j2 l5] H5. simpl in *. exact H5.
Qed.

Lemma parseFace_loop_steps fuel : forall l v,
  ensures lexical (fun r => steps l (snd r)) (parseFace_loop fuel l v).
Proof.
  induction fuel as [ | fuel IH]; intros l v; simpl; [exact I | ].
  eapply ensures_bind; [apply parseFaceIndices_steps | ].
  intros [[b ia] l1] H1. simpl in H1.
  destruct b; simpl; [ | exact H1].
  eapply ensures_weaken; [apply IH | auto | ].
  intros r Hr. eauto using steps_trans.
Qed.

Lemma parseFace_emitted fuel p :
  ensures lexical (emitted PT_FACE p) (parseFace fuel p).
Proof.
  unfold parseFace.
  eapply ensures_bind; [apply parseFace_loop_steps | ].
  intros [v l] H. simpl in H. simpl.
  split; [exact H | ].
  split; [repeat split | ].
  eexists; split; reflexivity.
Qed.

Lemma parse_body_turn fuel p :
  peek_ok (lexer p) ->
  ensures lexical (turn p) (parse_body fuel p).
Proof.
  intros Hp. unfold parse_body.
  destruct (nextToken fuel (lexer p)) as [l1 | e | ] eqn:Hn; simpl;
    [ | eapply nextToken_Fatal; exact Hn | exact I].
  destruct (nextToken_Ok _ _ _ Hn) as [Hp1 Hc].
  assert (Hk : m_token (currToken l1) <> PT_ERROR).
  { unfold currToken. rewrite Hc. exact Hp. }
  destruct (m_token (currToken l1)) eqn:Ek; try congruence;
    try (simpl; exists fuel, l1; split; [exact Hn | ];
         rewrite Ek; simpl; repeat split; discriminate).
  - eapply ensures_bind; [apply parseVertex_emitted | ].
    intros p' He. simpl. exists fuel, l1. split; [exact Hn | ].
    rewrite Ek; simpl. split; [discriminate | exact He].
  - eapply ensures_bind; [apply parseTexture_emitted | ].
    intros p' He. simpl. exists fuel, l1. split; [exact Hn | ].
    rewrite Ek; simpl. split; [discriminate | exact He].
  - eapply ensures_bind; [apply parseNormal_emitted | ].
    intros p' He. simpl. exists fuel, l1. split; [exact Hn | ].
    rewrite Ek; simpl. split; [discriminate | exact He].
  - eapply ensures_bind; [apply parseParameter_emitted | ].
    intros p' He. simpl. exists fuel, l1. split; [exact Hn | ].
    rewrite Ek; simpl. split; [discriminate | exact He].
  - eapply ensures_bind; [apply parseFace_emitted | ].
    intros p' He. simpl. exists fuel, l1. split; [exact Hn | ].
    rewrite Ek; simpl. split; [discriminate | exact He].
Qed.

Lemma turn_peek_ok p r : turn p r -> peek_ok (lexer (snd r)).
Proof.
  intros (fuel & l1 & Hn & H).
  destruct (nextToken_Ok _ _ _ Hn) as [Hp1 _].
  destruct r as [[b | ] p']; simpl in *.
  - destruct H as (_ & _ & ->). exact Hp1.
  - destruct H as [_ H].
    destruct (geometry (m_token (currToken l1))).
    + destruct H as (Hs & _). eapply steps_peek_ok; [exact Hs | exact Hp1].
    + subst p'. exact Hp1.
Qed.

Lemma parse_runs fuel : forall p,
  peek_ok (lexer p) ->
  ensures lexical (fun r => fst r = true /\ runs p (snd r)) (parse fuel p).
Proof.
  induction fuel as [ | fuel IH]; intros p Hp; simpl; [exact I | ].
  eapply ensures_bind; [apply parse_body_turn; exact Hp | ].
  intros [r p1] Ht.
  pose proof (turn_peek_ok _ _ Ht) as Hp1. simpl in Hp1.
  destruct Ht as (fuel1 & l1 & Hn & H). simpl in H.
  destruct r as [b | ].
  - destruct H as (-> & Hk & ->). simpl.
    split; [reflexivity | eapply runs_eof; eassumption].
  - destruct H as [Hk H].
    eapply ensures_weaken; [apply IH; exact Hp1 | auto | ].
    intros [b p2] [Hb Hr]. simpl in *. split; [exact Hb | ].
    destruct (geometry (m_token (currToken l1))) eqn:Eg.
    + eapply runs_rule; eassumption.
    + subst p1. eapply runs_skip; eassumption.
Qed.

Lemma constructor_ok fuel reader u :
  ensures lexical
    (fun p => peek_ok (lexer p) /\ sink p = [] /\
              m_vertexCount p = 0 /\ m_textureCount p = 0 /\
              m_normalCount p = 0 /\ m_parameterCount p = 0 /\
              m_faceCount p = 0)
    (KAbstractObjParserPrivate fuel reader u).
Proof.
  unfold KAbstractObjParserPrivate.
  destruct (nextChar _) as [c l1].
  destruct (nextToken fuel l1) as [l2 | e | ] eqn:Hn; simpl;
    [ | eapply nextToken_Fatal; exact Hn | exact I].
  destruct (nextToken_Ok _ _ _ Hn) as [Hp _].
  repeat split. exact Hp.
Qed.

(** *** The statistics counters along a run *)

Lemma count_calls_snoc k calls c :
  count_calls k (calls ++ [c]) =
  count_calls k calls + (if ParseToken_eqb (call_kind c) k then 1 else 0).
Proof.
  unfold count_calls. rewrite filter_app, length_app. simpl.
  destruct (ParseToken_eqb (call_kind c) k); simpl; lia.
Qed.

Lemma wrap64_succ a : wrap64 (wrap64 a + 1) = wrap64 (a + 1).
Proof. unfold wrap64. apply Z.add_mod_idemp_l. lia. Qed.

Lemma emitted_counters k p p' :
  geometry k = true -> emitted k p p' ->
  counters_agree p -> counters_agree p'.
Proof.
  intros Hg (_ & (C1 & C2 & C3 & C4 & C5) & c & Hs & Hk)
    (A1 & A2 & A3 & A4 & A5).
  unfold counters_agree.
  rewrite C1, C2, C3, C4, C5, Hs, !count_calls_snoc, Hk, A1, A2, A3, A4.
  destruct k; try discriminate; simpl;
    rewrite ?Z.add_0_r, ?wrap64_succ; auto.
Qed.

Lemma runs_counters p p' :
  runs p p' -> counters_agree p -> counters_agree p'.
Proof.
  induction 1 as [fuel p l1 Hn Hk | fuel p l1 p' Hn Hk Hg Hr IH
                 | fuel p l1 p1 p' Hn Hg He Hr IH]; intros Hc.
  - exact Hc.
  - apply IH. exact Hc.
  - apply IH. eapply emitted_counters; [exact Hg | exact He | exact Hc].
Qed.

(** *** The token stream and the calls of a run *)

Lemma steps_stream l l' :
  steps l l' -> forall ts, stream l' ts ->
  exists ts', stream l ts' /\ statements ts' = statements ts.
Proof.
  induction 1 as [ | fuel l l1 l2 Hf Hn Hs IH]; intros ts Hts.
  - exists ts. split; [exact Hts | reflexivity].
  - destruct (IH ts Hts) as (ts1 & H1 & E1).
    destruct (nextToken_Ok _ _ _ Hn) as [_ Hc].
    assert (Hk : m_token (currToken l1) = m_token (peekToken l)).
    { unfold currToken, peekToken. rewrite Hc. reflexivity. }
    exists (m_token (currToken l1) :: ts1). split.
    + eapply stream_cons; [exact Hn | | exact H1].
      rewrite Hk. intros E. rewrite E in Hf. discriminate.
    + unfold statements in *. simpl. rewrite Hk.
      destruct (m_token (peekToken l)); try discriminate; exact E1.
Qed.

Lemma runs_stream p p' :
  runs p p' ->
  exists ts, stream (lexer p) ts /\
    map call_kind (sink p') = map call_kind (sink p) ++ statements ts.
Proof.
  induction 1 as [fuel p l1 Hn Hk | fuel p l1 p' Hn Hk Hg Hr IH
                 | fuel p l1 p1 p' Hn Hg He Hr IH].
  - exists [PT_EOF]. split; [eapply stream_eof; eassumption | ].
    simpl. rewrite app_nil_r. reflexivity.
  - destruct IH as (ts & Hs & E). simpl in *.
    exists (m_token (currToken l1) :: ts). split.
    + eapply stream_cons; eassumption.
    + unfold statements in *. simpl. rewrite Hg. exact E.
  - destruct IH as (ts & Hs & E).
    destruct He as (Hst & _ & c & Hc & Hk). simpl in *.
    destruct (steps_stream _ _ Hst ts Hs) as (ts1 & Hs1 & E1).
    exists (m_token (currToken l1) :: ts1). split.
    + eapply stream_cons; [exact Hn | | exact Hs1].
      intros E0. rewrite E0 in Hg. discriminate.
    + unfold statements in *. simpl. rewrite Hg.
      rewrite E, Hc, map_app, <- app_assoc. simpl.
      rewrite Hk, E1. reflexivity.
Qed.

End Rules.

(** ** Termination: the characters still to be read bound the fuel *)

Lemma finishes_bind {A B : Type} (P : A -> Prop) (Q : B -> Prop)
  (r : Res A) (k : A -> Res B) :
  finishes P r -> (forall a, P a -> finishes Q (k a)) ->
  finishes Q (bind r k).
Proof.
  destruct r as [a | e | ]; simpl; auto.
Qed.

Lemma finishes_weaken {A : Type} (P Q : A -> Prop) (r : Res A) :
  finishes P r -> (forall a, P a -> Q a) -> finishes Q r.
Proof.
  destruct r as [a | e | ]; simpl; auto.
Qed.

Section Termination.

Context {ext : Externals}.

(** The end of input is neither numeric nor alphabetic. *)
Hypothesis numeric_eof : isNumeric EndOfFile = false.
Hypothesis alpha_eof : isAlpha EndOfFile = false.

Lemma nextChar_pending l c l1 :
  nextChar l = (c, l1) ->
  c = m_peekChar l /\
  (pending l1 + (if (c =? EndOfFile)%Z then 0 else 1) <= pending l)%nat.
Proof.
  unfold nextChar, pending.
  destruct (m_reader l) as [ | x rd]; simpl;
    destruct (m_peekChar l =? NEWLINE); intros H; inversion H; subst;
    simpl; split; try reflexivity.
  - rewrite Z.eqb_refl. lia.
  - rewrite Z.eqb_refl. lia.
  - destruct (x =? EndOfFile); lia.
  - destruct (x =? EndOfFile); lia.
Qed.

Lemma nextLine_loop_length : forall rd c,
  (List.length (snd (nextLine_loop rd c)) <= List.length rd)%nat.
Proof.
  induction rd as [ | x rd IH]; intros c; simpl.
  - destruct (c =? NEWLINE); simpl; lia.
  - destruct (c =? NEWLINE); simpl; [lia | ].
    destruct (x =? EndOfFile); simpl; [lia | ].
    specialize (IH x). lia.
Qed.

Lemma nextLine_pending l : (pending (nextLine l) <= pending l)%nat.
Proof.
  unfold nextLine, pending.
  pose proof (nextLine_loop_length (m_reader l) (m_peekChar l)) as H.
  destruct (nextLine_loop (m_reader l) (m_peekChar l)) as [c rd].
  simpl in H.
  destruct rd as [ | x rd]; simpl.
  - rewrite Z.eqb_refl. lia.
  - simpl in H. destruct (x =? EndOfFile); lia.
Qed.

Lemma lexReadInteger_loop_finishes fuel : forall pow integer l,
  (pending l < fuel)%nat ->
  finishes (fun r => (pending (snd r) <= pending l)%nat)
    (lexReadInteger_loop fuel pow integer l).
Proof.
  induction fuel as [ | fuel IH]; intros pow integer l Hf; [lia | ].
  simpl. destruct (isNumeric (m_peekChar l)) eqn:Hn; [ | simpl; lia].
  destruct (nextChar l) as [c l1] eqn:Hc.
  destruct (nextChar_pending _ _ _ Hc) as [Ec Hp].
  assert (Hne : (c =? EndOfFile) = false).
  { destruct (Z.eqb_spec c EndOfFile) as [E | ]; [ | reflexivity].
    rewrite <- Ec, E, numeric_eof in Hn. discriminate. }
  rewrite Hne in Hp.
  eapply finishes_weaken; [apply IH; lia | ].
  intros r Hr. simpl in Hr. lia.
Qed.

Lemma lexReadInteger_power_finishes fuel l :
  (pending l < fuel)%nat ->
  finishes (fun r => (pending (snd r) <= pending l)%nat)
    (lexReadInteger_power fuel l).
Proof.
  intros Hf. unfold lexReadInteger_power.
  eapply finishes_bind; [apply lexReadInteger_loop_finishes; exact Hf | ].
  intros [[pw i] l1] H. exact H.
Qed.

Lemma lexReadInteger_finishes fuel l :
  (pending l < fuel)%nat ->
  finishes (fun r => (pending (snd r) <= pending l)%nat)
    (lexReadInteger fuel l).
Proof.
  intros Hf. unfold lexReadInteger.
  eapply finishes_bind; [apply lexReadInteger_power_finishes; exact Hf | ].
  intros [[pw i] l1] H. exact H.
Qed.

Lemma not_more_trans l l1 r :
  (pending l1 <= pending l)%nat -> not_more l1 r -> not_more l r.
Proof. unfold not_more. lia. Qed.

Lemma lexTokenFloat_finishes fuel l token integer :
  (pending l < fuel)%nat ->
  finishes (not_more l) (lexTokenFloat fuel l token integer).
Proof.
  intros Hf. unfold lexTokenFloat.
  eapply finishes_bind; [apply lexReadInteger_power_finishes; exact Hf | ].
  intros [[pw fr] l1] H1. simpl in H1.
  destruct (toLower (m_peekChar l1) =? LOWER_E); [ | simpl; exact H1].
  destruct (nextChar l1) as [c1 l2] eqn:Hc1.
  destruct (nextChar_pending _ _ _ Hc1) as [_ Hp1].
  destruct (nextChar l2) as [c2 l3] eqn:Hc2.
  destruct (nextChar_pending _ _ _ Hc2) as [_ Hp2].
  unfold lexTokenFloatExponent.
  eapply finishes_bind; [apply lexReadInteger_finishes; lia | ].
  intros [pw' l4] H4. simpl in *. unfold not_more. simpl. lia.
Qed.

Lemma lexTokenInteger_finishes fuel l token :
  (pending l < fuel)%nat ->
  finishes (not_more l) (lexTokenInteger fuel l token).
Proof.
  intros Hf. unfold lexTokenInteger.
  eapply finishes_bind; [apply lexReadInteger_finishes; exact Hf | ].
  intros [i l1] H1. simpl in H1.
  destruct (m_peekChar l1 =? DOT); [ | simpl; exact H1].
  destruct (nextChar l1) as [c1 l2] eqn:Hc1.
  destruct (nextChar_pending _ _ _ Hc1) as [_ Hp1].
  destruct (nextChar l2) as [c2 l3] eqn:Hc2.
  destruct (nextChar_pending _ _ _ Hc2) as [_ Hp2].
  eapply finishes_weaken; [apply lexTokenFloat_finishes; lia | ].
  intros r. apply not_more_trans. lia.
Qed.

Lemma lexTokenIdentifier_loop_finishes fuel : forall l token,
  (pending l < fuel)%nat ->
  finishes (not_more l) (lexTokenIdentifier_loop fuel l token).
Proof.
  induction fuel as [ | fuel IH]; intros l token Hf; [lia | ].
  simpl. destruct (isAlpha (m_peekChar l)) eqn:Hn;
    [ | simpl; unfold not_more; simpl; lia].
  destruct (nextChar l) as [c l1] eqn:Hc.
  destruct (nextChar_pending _ _ _ Hc) as [Ec Hp].
  assert (Hne : (c =? EndOfFile) = false).
  { destruct (Z.eqb_spec c EndOfFile) as [E | ]; [ | reflexivity].
    rewrite <- Ec, E, alpha_eof in Hn. discriminate. }
  rewrite Hne in Hp.
  eapply finishes_weaken; [apply IH; lia | ].
  intros r. apply not_more_trans. lia.
Qed.

Lemma consumed_of_less l r :
  (pending (snd r) < pending l)%nat -> consumed l r.
Proof.
  unfold consumed. destruct (ParseToken_eqb (fst (fst r)) PT_EOF); lia.
Qed.

Lemma lexToken_loop_finishes fuel : forall l token,
  (pending l < fuel)%nat ->
  finishes (consumed l) (lexToken_loop fuel l token).
Proof.
  induction fuel as [ | fuel IH]; intros l token Hf; [lia | ].
  simpl. destruct (nextChar l) as [c l1] eqn:Hc.
  destruct (nextChar_pending _ _ _ Hc) as [Ec Hp].
  destruct (c =? EndOfFile) eqn:He.
  { simpl. unfold consumed. simpl. lia. }
  destruct (isWhitespace c).
  { eapply finishes_weaken; [apply IH; lia | ].
    intros r Hr. unfold consumed in *.
    destruct (ParseToken_eqb (fst (fst r)) PT_EOF); lia. }
  destruct (c =? NEWLINE); [simpl; unfold consumed; simpl; lia | ].
  destruct (c =? HASH).
  { simpl. unfold consumed. simpl.
    pose proof (nextLine_pending l1). lia. }
  destruct (c =? SLASH); [simpl; unfold consumed; simpl; lia | ].
  destruct (isNumeric (m_currChar l1)).
  { eapply finishes_weaken; [apply lexTokenInteger_finishes; lia | ].
    intros r Hr. apply consumed_of_less. unfold not_more in Hr. lia. }
  destruct (isAlpha (m_currChar l1)); [ | exact I].
  eapply finishes_weaken; [apply lexTokenIdentifier_loop_finishes; lia | ].
  intros r Hr. apply consumed_of_less. unfold not_more in Hr. lia.
Qed.

Lemma lexToken_finishes fuel l token :
  (pending l < fuel)%nat ->
  finishes (consumed l) (lexToken fuel l token).
Proof.
  intros Hf. unfold lexToken.
  destruct (skipsLine (m_token (m_currToken l))).
  - pose proof (nextLine_pending l) as Hl.
    eapply finishes_weaken; [apply lexToken_loop_finishes; lia | ].
    intros r Hr. unfold consumed in *.
    destruct (ParseToken_eqb (fst (fst r)) PT_EOF); lia.
  - apply lexToken_loop_finishes. exact Hf.
Qed.

Lemma nextToken_finishes fuel l :
  (pending l < fuel)%nat ->
  finishes (fun l' => (remaining l' <= pending l)%nat) (nextToken fuel l).
Proof.
  intros Hf. unfold nextToken.
  eapply finishes_bind.
  { apply lexToken_finishes. exact Hf. }
  intros [[k token] l1] H. unfold consumed in H. simpl in *.
  unfold remaining. simpl. exact H.
Qed.

Lemma finishes_and {A : Type} (E : FatalError -> Prop) (P Q : A -> Prop)
  (r : Res A) :
  finishes P r -> ensures E Q r -> finishes (fun a => P a /\ Q a) r.
Proof.
  destruct r as [a | e | ]; simpl; auto.
Qed.

(** Consuming a lookahead token that is not [PT_EOF]. *)
Lemma nextToken_consumes fuel l :
  (remaining l <= fuel)%nat ->
  m_token (peekToken l) <> PT_EOF ->
  finishes (fun l' => (remaining l' < remaining l)%nat) (nextToken fuel l).
Proof.
  intros Hf Hk.
  assert (E : remaining l = S (pending l)).
  { unfold remaining.
    destruct (m_token (peekToken l)); simpl; try lia. congruence. }
  eapply finishes_weaken; [apply nextToken_finishes; lia | ].
  intros l' H. simpl in H. lia.
Qed.

Lemma parseFloat_finishes fuel l f :
  (remaining l <= fuel)%nat ->
  finishes (fun r => (remaining (snd r) <= remaining l)%nat)
    (parseFloat fuel l f).
Proof.
  intros Hf. unfold parseFloat.
  destruct (m_token (peekToken l)) eqn:Hk; simpl; try lia;
    (eapply finishes_bind;
     [ apply nextToken_consumes; [exact Hf | rewrite Hk; discriminate]
     | intros l' H; simpl in *; lia ]).
Qed.

Lemma parseInteger_finishes fuel l i :
  (remaining l <= fuel)%nat ->
  finishes
    (fun r : bool * Z * Lexer =>
       (remaining (snd r) + (if fst (fst r) then 1 else 0)
        <= remaining l)%nat)
    (parseInteger fuel l i).
Proof.
  intros Hf. unfold parseInteger.
  destruct (m_token (peekToken l)) eqn:Hk; simpl; try lia.
  eapply finishes_bind;
    [ apply nextToken_consumes; [exact Hf | rewrite Hk; discriminate]
    | intros l' H; simpl in *; lia ].
Qed.

Lemma checkToken_finishes fuel l :
  (remaining l <= fuel)%nat ->
  finishes (fun r => (remaining (snd r) <= remaining l)%nat)
    (checkToken fuel l PT_SEPARATOR).
Proof.
  intros Hf. unfold checkToken.
  destruct (m_token (peekToken l)) eqn:Hk; simpl; try lia.
  eapply finishes_bind;
    [ apply nextToken_consumes; [exact Hf | rewrite Hk; discriminate]
    | intros l' H; simpl in *; lia ].
Qed.

Lemma parseFloat_at_finishes fuel i p :
  (remaining (lexer p) <= fuel)%nat ->
  finishes (fun r => no_more_tokens p (snd r)) (parseFloat_at fuel i p).
Proof.
  intros Hf. unfold parseFloat_at.
  eapply finishes_bind; [apply parseFloat_finishes; exact Hf | ].
  intros [[b f] l] H. exact H.
Qed.

Ltac float_finishes b q H :=
  eapply finishes_bind;
  [ apply parseFloat_at_finishes; unfold no_more_tokens in *; simpl in *; lia
  | intros [b q] H; simpl in H ].

Lemma parseVertex_finishes fuel p :
  (remaining (lexer p) <= fuel)%nat ->
  finishes (no_more_tokens p) (parseVertex fuel p).
Proof.
  intros Hf. unfold parseVertex.
  float_finishes b1 p1 H1. float_finishes b2 p2 H2.
  float_finishes b3 p3 H3. float_finishes b4 p4 H4.
  unfold no_more_tokens in *. destruct b4; simpl in *; lia.
Qed.

Lemma parseTexture_finishes fuel p :
  (remaining (lexer p) <= fuel)%nat ->
  finishes (no_more_tokens p) (parseTexture fuel p).
Proof.
  intros Hf. unfold parseTexture.
  float_finishes b1 p1 H1. float_finishes b2 p2 H2.
  float_finishes b3 p3 H3.
  unfold no_more_tokens in *. destruct b3; simpl in *; lia.
Qed.

Lemma parseNormal_finishes fuel p :
  (remaining (lexer p) <= fuel)%nat ->
  finishes (no_more_tokens p) (parseNormal fuel p).
Proof.
  intros Hf. unfold parseNormal.
  float_finishes b1 p1 H1. float_finishes b2 p2 H2.
  float_finishes b3 p3 H3.
  unfold no_more_tokens in *. simpl in *; lia.
Qed.

Lemma parseParameter_finishes fuel p :
  (remaining (lexer p) <= fuel)%nat ->
  finishes (no_more_tokens p) (parseParameter fuel p).
Proof.
  intros Hf. unfold parseParameter.
  float_finishes b1 p1 H1. float_finishes b2 p2 H2.
  eapply finishes_bind with (P := no_more_tokens p).
  - destruct b2.
    + float_finishes b3 p3 H3.
      unfold no_more_tokens in *. destruct b3; simpl in *; lia.
    + unfold no_more_tokens in *. simpl in *; lia.
  - intros p' H. exact H.
Qed.

Lemma parseFaceIndices_finishes fuel l indices :
  (remaining l <= fuel)%nat ->
  finishes
    (fun r : bool * index_array * Lexer =>
       (remaining (snd r) + (if fst (fst r) then 1 else 0)
        <= remaining l)%nat)
    (parseFaceIndices fuel l indices).
Proof.
  intros Hf. unfold parseFaceIndices. destruct indices as [[i0 i1] i2].
  eapply finishes_bind; [apply parseInteger_finishes; exact Hf | ].
  intros [[b j0] l1] H1. simpl in H1.
  destruct b; simpl; [ | lia].
  eapply finishes_bind; [apply checkToken_finishes; lia | ].
  intros [sep1 l2] H2. simpl in H2.
  eapply finishes_bind
    with (P := fun r : Z * Lexer => (remaining (snd r) <= remaining l2)%nat).
  { destruct sep1; simpl; [ | lia].
    eapply finishes_bind; [apply parseInteger_finishes; lia | ].
    intros [[b j1] l3] H3. simpl in *. lia. }
  intros [j1 l3] H3. simpl in H3.
  eapply finishes_bind; [apply checkToken_finishes; lia | ].
  intros [sep2 l4] H4. simpl in H4.
  eapply finishes_bind
    with (P := fun r : Z * Lexer => (remaining (snd r) <= remaining l4)%nat).
  { destruct sep2; simpl; [ | lia].
    eapply finishes_bind; [apply parseInteger_finishes; lia | ].
    intros [[b j2] l5] H5. simpl in *. lia. }
  intros [j2 l5] H5. simpl in *. lia.
Qed.

Lemma parseFace_loop_finishes fuel : forall l v,
  (remaining l < fuel)%nat ->
  finishes (fun r => (remaining (snd r) <= remaining l)%nat)
    (parseFace_loop fuel l v).
Proof.
  induction fuel as [ | fuel IH]; intros l v Hf; [lia | ]. simpl.
  eapply finishes_bind; [apply parseFaceIndices_finishes; lia | ].
  intros [[b ia] l1] H1. simpl in H1.
  destruct b; simpl; [ | lia].
  eapply finishes_weaken; [apply IH; lia | ].
  intros r Hr. simpl in Hr. lia.
Qed.

Lemma parseFace_finishes fuel p :
  (remaining (lexer p) < fuel)%nat ->
  finishes (no_more_tokens p) (parseFace fuel p).
Proof.
  intros Hf. unfold parseFace.
  eapply finishes_bind; [apply parseFace_loop_finishes; exact Hf | ].
  intros [v l] H. exact H.
Qed.

Lemma parse_body_finishes fuel p :
  (remaining (lexer p) < fuel)%nat ->
  finishes
    (fun r => match fst r with
              | Some _ => True
              | None => (remaining (lexer (snd r)) < remaining (lexer p))%nat
              end)
    (parse_body fuel p).
Proof.
  intros Hf. unfold parse_body.
  assert (Hp : (pending (lexer p) <= remaining (lexer p))%nat)
    by (unfold remaining; lia).
  eapply finishes_bind.
  { eapply finishes_and;
      [apply nextToken_finishes; lia | apply (nextToken_ok fuel (lexer p))]. }
  intros l1 [H1 [_ Hc]]. simpl in H1.
  assert (Hk : m_token (currToken l1) = m_token (peekToken (lexer p))).
  { unfold currToken, peekToken. rewrite Hc. reflexivity. }
  assert (Hlt : m_token (currToken l1) <> PT_EOF ->
                (remaining l1 < remaining (lexer p))%nat).
  { rewrite Hk. intros Hne. unfold remaining at 2.
    destruct (m_token (peekToken (lexer p))); simpl; try lia. congruence. }
  destruct (m_token (currToken l1)) eqn:Ek; simpl; try exact I;
    try (apply Hlt; discriminate).
  - eapply finishes_bind;
      [apply parseVertex_finishes; simpl; lia | ].
    intros p' H. unfold no_more_tokens in H. simpl in *.
    assert (remaining l1 < remaining (lexer p))%nat
      by (apply Hlt; discriminate). lia.
  - eapply finishes_bind;
      [apply parseTexture_finishes; simpl; lia | ].
    intros p' H. unfold no_more_tokens in H. simpl in *.
    assert (remaining l1 < remaining (lexer p))%nat
      by (apply Hlt; discriminate). lia.
  - eapply finishes_bind;
      [apply parseNormal_finishes; simpl; lia | ].
    intros p' H. unfold no_more_tokens in H. simpl in *.
    assert (remaining l1 < remaining (lexer p))%nat
      by (apply Hlt; discriminate). lia.
  - eapply finishes_bind;
      [apply parseParameter_finishes; simpl; lia | ].
    intros p' H. unfold no_more_tokens in H. simpl in *.
    assert (remaining l1 < remaining (lexer p))%nat
      by (apply Hlt; discriminate). lia.
  - eapply finishes_bind;
      [apply parseFace_finishes; simpl; lia | ].
    intros p' H. unfold no_more_tokens in H. simpl in *.
    assert (remaining l1 < remaining (lexer p))%nat
      by (apply Hlt; discriminate). lia.
Qed.

(** [parse] returns or dies once the fuel exceeds the tokens left. *)
Lemma parse_finishes fuel : forall p,
  (remaining (lexer p) + 1 < fuel)%nat ->
  finishes (fun _ => True) (parse fuel p).
Proof.
  induction fuel as [ | fuel IH]; intros p Hf; [lia | ]. simpl.
  eapply finishes_bind; [apply parse_body_finishes; lia | ].
  intros [[b | ] p1] H; simpl in *; [exact I | ].
  apply IH. lia.
Qed.

Lemma constructor_finishes fuel reader u :
  (List.length reader < fuel)%nat ->
  finishes (fun p => (remaining (lexer p) <= List.length reader)%nat)
    (KAbstractObjParserPrivate fuel reader u).
Proof.
  intros Hf. unfold KAbstractObjParserPrivate.
  destruct (nextChar _) as [c l1] eqn:Hc.
  assert (Hp : (pending l1 <= List.length reader)%nat).
  { unfold nextChar in Hc. simpl in Hc.
    destruct reader as [ | x rd]; simpl in Hc;
      destruct (u_peekChar u =? NEWLINE); inversion Hc; subst;
      unfold pending; simpl.
    - rewrite Z.eqb_refl. lia.
    - rewrite Z.eqb_refl. lia.
    - destruct (x =? EndOfFile); lia.
    - destruct (x =? EndOfFile); lia. }
  eapply finishes_bind; [apply nextToken_finishes; lia | ].
  intros l2 H. simpl in *. lia.
Qed.

End Termination.

(** ** Fuel is only a bound: more of it never changes an answer *)

Lemma stable_const {A : Type} (r : Res A) : stable (fun _ => r).
Proof. intros n m _ _. reflexivity. Qed.

Lemma stable_bind {A B : Type} (f : nat -> Res A) (g : A -> nat -> Res B) :
  stable f -> (forall a, stable (g a)) ->
  stable (fun n => bind (f n) (fun a => g a n)).
Proof.
  intros Hf Hg n m Hle Hn.
  destruct (f n) as [a | e | ] eqn:E; simpl in Hn; try congruence.
  - rewrite (Hf n m Hle) by congruence. rewrite E. simpl.
    apply Hg; assumption.
  - rewrite (Hf n m Hle) by congruence. rewrite E. reflexivity.
Qed.

Lemma stable_agree {A : Type} (f : nat -> Res A) n m a :
  stable f -> f n = Ok a -> f m <> OutOfFuel -> f m = Ok a.
Proof.
  intros Hs Hn Hm.
  rewrite <- (Hs m (Nat.max n m)) by (try lia; exact Hm).
  rewrite (Hs n (Nat.max n m)) by (try lia; congruence).
  exact Hn.
Qed.

Section Fuel.

Context {ext : Externals}.

Lemma lexReadInteger_loop_stable : forall pow integer l,
  stable (fun n => lexReadInteger_loop n pow integer l).
Proof.
  intros pow integer l n. revert pow integer l.
  induction n as [ | n IH]; intros pow integer l m Hle Hn;
    [simpl in Hn; congruence | ].
  destruct m as [ | m]; [lia | ]. simpl in *.
  destruct (isNumeric (m_peekChar l)); [ | reflexivity].
  destruct (nextChar l) as [c l1].
  apply IH; [lia | exact Hn].
Qed.

Lemma lexReadInteger_power_stable l :
  stable (fun n => lexReadInteger_power n l).
Proof.
  unfold lexReadInteger_power.
  apply stable_bind with
    (f := fun n => lexReadInteger_loop n 1 _ l)
    (g := fun (a : Z * Z * Lexer) (_ : nat) =>
            let '(pow, integer, l0) := a in
            Ok (pow, wrap32 ((if m_currChar l =? MINUS then -1 else 1)
                             * integer), l0)).
  - apply lexReadInteger_loop_stable.
  - intros [[pw i] l0]. apply stable_const.
Qed.

Lemma lexReadInteger_stable l : stable (fun n => lexReadInteger n l).
Proof.
  unfold lexReadInteger.
  apply stable_bind with
    (f := fun n => lexReadInteger_power n l)
    (g := fun (a : Z * Z * Lexer) (_ : nat) =>
            let '(_, integer, l0) := a in Ok (integer, l0)).
  - apply lexReadInteger_power_stable.
  - intros [[pw i] l0]. apply stable_const.
Qed.

Lemma lexTokenFloatExponent_stable l token value :
  stable (fun n => lexTokenFloatExponent n l token value).
Proof.
  unfold lexTokenFloatExponent.
  apply stable_bind with
    (f := fun n => lexReadInteger n l)
    (g := fun (a : Z * Lexer) (_ : nat) =>
            let '(power, l0) := a in
            Ok (PT_FLOAT,
                set_attribute token (asFloat (fmul value (powf10 power))),
                l0)).
  - apply lexReadInteger_stable.
  - intros [pw l0]. apply stable_const.
Qed.

Lemma lexTokenFloat_stable l token integer :
  stable (fun n => lexTokenFloat n l token integer).
Proof.
  intros n m Hle Hn. unfold lexTokenFloat in *.
  destruct (lexReadInteger_power n l) as [[[pw fr] l1] | e | ] eqn:E;
    simpl in Hn; try congruence.
  - rewrite (lexReadInteger_power_stable l n m Hle) by congruence.
    rewrite E. simpl.
    destruct (toLower (m_peekChar l1) =? LOWER_E); [ | reflexivity].
    destruct (nextChar l1) as [c1 l2]. destruct (nextChar l2) as [c2 l3].
    apply lexTokenFloatExponent_stable; assumption.
  - rewrite (lexReadInteger_power_stable l n m Hle) by congruence.
    rewrite E. reflexivity.
Qed.

Lemma lexTokenInteger_stable l token :
  stable (fun n => lexTokenInteger n l token).
Proof.
  intros n m Hle Hn. unfold lexTokenInteger in *.
  destruct (lexReadInteger n l) as [[i l1] | e | ] eqn:E;
    simpl in Hn; try congruence.
  - rewrite (lexReadInteger_stable l n m Hle) by congruence.
    rewrite E. simpl.
    destruct (m_peekChar l1 =? DOT); [ | reflexivity].
    destruct (nextChar l1) as [c1 l2]. destruct (nextChar l2) as [c2 l3].
    apply lexTokenFloat_stable; assumption.
  - rewrite (lexReadInteger_stable l n m Hle) by congruence.
    rewrite E. reflexivity.
Qed.

Lemma lexTokenIdentifier_loop_stable : forall l token,
  stable (fun n => lexTokenIdentifier_loop n l token).
Proof.
  intros l token n. revert l token.
  induction n as [ | n IH]; intros l token m Hle Hn;
    [simpl in Hn; congruence | ].
  destruct m as [ | m]; [lia | ]. simpl in *.
  destruct (isAlpha (m_peekChar l)); [ | reflexivity].
  destruct (nextChar l) as [c l1].
  apply IH; [lia | exact Hn].
Qed.

Lemma lexToken_loop_stable : forall l token,
  stable (fun n => lexToken_loop n l token).
Proof.
  intros l token n. revert l token.
  induction n as [ | n IH]; intros l token m Hle Hn;
    [simpl in Hn; congruence | ].
  destruct m as [ | m]; [lia | ]. simpl in *.
  destruct (nextChar l) as [c l1].
  destruct (c =? EndOfFile); [reflexivity | ].
  destruct (isWhitespace c); [apply IH; [lia | exact Hn] | ].
  destruct (c =? NEWLINE); [reflexivity | ].
  destruct (c =? HASH); [reflexivity | ].
  destruct (c =? SLASH); [reflexivity | ].
  destruct (isNumeric (m_currChar l1)).
  { apply lexTokenInteger_stable; [lia | exact Hn]. }
  destruct (isAlpha (m_currChar l1)); [ | reflexivity].
  apply lexTokenIdentifier_loop_stable; [lia | exact Hn].
Qed.

Lemma nextToken_stable l : stable (fun n => nextToken n l).
Proof.
  intros n m Hle Hn. unfold nextToken, lexToken in *.
  rewrite (lexToken_loop_stable _ _ n m Hle); [reflexivity | ].
  intros E. rewrite E in Hn. simpl in Hn. congruence.
Qed.

End Fuel.

Lemma ParseToken_eqb_eq a b : ParseToken_eqb a b = true <-> a = b.
Proof.
  split; [ | intros ->; destruct b; reflexivity].
  destruct a, b; simpl; intros H; try reflexivity; discriminate.
Qed.

Lemma ParseToken_eqb_neq a b : a <> b -> ParseToken_eqb a b = false.
Proof.
  intros H. destruct (ParseToken_eqb a b) eqn:E; [ | reflexivity].
  apply ParseToken_eqb_eq in E. contradiction.
Qed.

Section Streams.

Context {ext : Externals}.

Hypothesis numeric_eof : isNumeric EndOfFile = false.
Hypothesis alpha_eof : isAlpha EndOfFile = false.

Lemma nextToken_any_fuel fuel fuel' l l1 :
  nextToken fuel l = Ok l1 -> (pending l < fuel')%nat ->
  nextToken fuel' l = Ok l1.
Proof.
  intros Hn Hf.
  apply (stable_agree (fun n => nextToken n l) fuel fuel' l1);
    [apply nextToken_stable | exact Hn | ].
  pose proof (nextToken_finishes numeric_eof alpha_eof fuel' l Hf) as H.
  intros E. rewrite E in H. exact H.
Qed.

(** The relational stream is what [tokens] computes. *)
Lemma stream_tokens l ts :
  stream l ts -> forall fuel,
  (remaining l + 1 < fuel)%nat -> tokens fuel l = Ok ts.
Proof.
  induction 1 as [fuel0 l l1 Hn Hk | fuel0 l l1 ts Hn Hk Hs IH];
    intros fuel Hf; (destruct fuel as [ | fuel]; [lia | ]); simpl;
    assert (Hp : (pending l < fuel)%nat) by (unfold remaining in Hf; lia);
    rewrite (nextToken_any_fuel _ fuel _ _ Hn Hp); simpl.
  - rewrite Hk. reflexivity.
  - rewrite (ParseToken_eqb_neq _ _ Hk).
    rewrite IH; [reflexivity | ].
    pose proof (nextToken_finishes numeric_eof alpha_eof fuel l Hp) as H.
    rewrite (nextToken_any_fuel _ fuel _ _ Hn Hp) in H. simpl in H.
    destruct (nextToken_Ok _ _ _ Hn) as [_ Hc].
    assert (E : remaining l = S (pending l)).
    { unfold remaining. rewrite ParseToken_eqb_neq; [lia | ].
      unfold currToken in Hk. rewrite Hc in Hk. exact Hk. }
    lia.
Qed.

(** A run that neither dies nor runs out of fuel: it returns [true], and
    the calls it made are the statements of the token stream. *)
Lemma parse_statements fuel reader u :
  (List.length reader + 2 <= fuel)%nat ->
  match KAbstractObjParser_parse fuel reader u with
  | Ok (b, p) =>
      b = true /\
      exists ts, tokenize fuel reader u = Ok ts /\
                 map call_kind (sink p) = statements ts
  | Fatal e => lexical e
  | OutOfFuel => False
  end.
Proof.
  intros Hf. unfold KAbstractObjParser_parse, tokenize.
  pose proof (constructor_ok fuel reader u) as H1.
  assert (Hlt : (List.length reader < fuel)%nat) by lia.
  pose proof (constructor_finishes numeric_eof alpha_eof fuel reader u Hlt)
    as H2.
  destruct (KAbstractObjParserPrivate fuel reader u) as [p0 | e | ];
    simpl in *; [ | exact H1 | exact H2].
  destruct H1 as (Hp & Hs & _).
  pose proof (parse_runs fuel p0 Hp) as H3.
  assert (Hr : (remaining (lexer p0) + 1 < fuel)%nat) by lia.
  pose proof (parse_finishes numeric_eof alpha_eof fuel p0 Hr) as H4.
  destruct (parse fuel p0) as [[b p] | e | ]; simpl in *;
    [ | exact H3 | exact H4].
  destruct H3 as [Hb Hruns]. split; [exact Hb | ].
  destruct (runs_stream _ _ Hruns) as (ts & Hst & E).
  exists ts. split; [apply stream_tokens; assumption | ].
  rewrite E, Hs. reflexivity.
Qed.

End Streams.

(** ** Numeric fields of a statement *)

Lemma set_get_float a i : set_float a i (get_float a i) = a.
Proof.
  destruct a as [a0 a1 a2 a3].
  destruct i as [ | [ | [ | i]]]; reflexivity.
Qed.

Lemma get_set_float_other a i j v :
  (i < 4)%nat -> (j < 4)%nat -> i <> j ->
  get_float (set_float a i v) j = get_float a j.
Proof.
  intros Hi Hj Hne. destruct a as [a0 a1 a2 a3].
  destruct i as [ | [ | [ | [ | i]]]]; try lia;
    destruct j as [ | [ | [ | [ | j]]]]; try lia; reflexivity.
Qed.

Lemma get_set_float_same a i v :
  get_float (set_float a i v) i = v.
Proof.
  destruct a as [a0 a1 a2 a3].
  destruct i as [ | [ | [ | i]]]; reflexivity.
Qed.

(** Slots outside the written range keep their content. *)
Lemma fill_other : forall vals a i j,
  (i + List.length vals <= 4)%nat -> (j < 4)%nat ->
  (j < i \/ i + List.length vals <= j)%nat ->
  get_float (fill a i vals) j = get_float a j.
Proof.
  induction vals as [ | v vs IH]; intros a i j Hb Hj Hout; simpl in *;
    [reflexivity | ].
  rewrite IH by lia.
  apply get_set_float_other; lia.
Qed.

(** Slots inside the written range hold the value written. *)
Lemma fill_written : forall vals a i j,
  (i + List.length vals <= 4)%nat -> (j < List.length vals)%nat ->
  get_float (fill a i vals) (i + j) = nth j vals 0%Q.
Proof.
  induction vals as [ | v vs IH]; intros a i j Hb Hj; simpl in *; [lia | ].
  destruct j as [ | j].
  - rewrite Nat.add_0_r, fill_other by lia. apply get_set_float_same.
  - replace (i + S j)%nat with (S i + j)%nat by lia.
    apply IH; lia.
Qed.

Section Fields.

Context {ext : Externals}.

Lemma set_lexer_same p : set_lexer p (lexer p) = p.
Proof. destruct p; reflexivity. Qed.

Lemma set_float4_same p : set_float4 p (m_float4 p) = p.
Proof. destruct p; reflexivity. Qed.

Lemma parseFloat_at_absent fuel i p :
  numeric (m_token (peekToken (lexer p))) = false ->
  parseFloat_at fuel i p = Ok (false, p).
Proof.
  intros H. unfold parseFloat_at, parseFloat.
  destruct (m_token (peekToken (lexer p))); try discriminate; simpl;
    rewrite set_get_float, set_lexer_same, set_float4_same; reflexivity.
Qed.

Lemma parseFloat_at_present fuel i p l1 :
  numeric (m_token (peekToken (lexer p))) = true ->
  nextToken fuel (lexer p) = Ok l1 ->
  parseFloat_at fuel i p =
  Ok (true, set_float4 (set_lexer p l1)
              (set_float (m_float4 p) i (token_value (peekToken (lexer p))))).
Proof.
  intros H Hn. unfold parseFloat_at, parseFloat, token_value.
  destruct (nextToken_Ok _ _ _ Hn) as [_ Hc].
  unfold currToken, peekToken in *.
  destruct (m_token (m_peekToken (lexer p))); try discriminate;
    rewrite Hn; simpl; rewrite Hc; reflexivity.
Qed.

Ltac open_fields :=
  repeat match goal with
  | H : numeric_fields _ _ (_ :: _) _ |- _ =>
      let Hk := fresh "Hk" in
      let Hv := fresh "Hv" in
      let l1 := fresh "l" in
      let Hn := fresh "Hn" in
      destruct H as (Hk & Hv & l1 & Hn & H)
  | H : numeric_fields _ _ [] _ |- _ =>
      let Hk := fresh "Hk" in
      destruct H as [-> Hk]
  end.

Ltac read_fields :=
  repeat first
    [ erewrite parseFloat_at_present by eassumption; cbn [bind]
    | rewrite parseFloat_at_absent by assumption; cbn [bind] ].

Lemma parseNormal_fields fuel p vals l' :
  numeric_fields fuel (lexer p) vals l' ->
  (List.length vals < 3)%nat ->
  let q := after_fields (incr_normalCount p) l' vals in
  parseNormal fuel p = Ok (call q (onNormal (m_float4 q))).
Proof.
  intros H Hlen. unfold parseNormal.
  destruct vals as [ | v0 [ | v1 [ | v2 vals]]]; simpl in Hlen; try lia;
    open_fields; read_fields; subst.
  - destruct p; reflexivity.
  - reflexivity.
  - reflexivity.
Qed.

Lemma parseVertex_fields fuel p vals l' :
  numeric_fields fuel (lexer p) vals l' ->
  (List.length vals < 3)%nat ->
  let q := after_fields (incr_vertexCount p) l' vals in
  let q' := set_float4 q (set_float (m_float4 q) 3 1%Q) in
  parseVertex fuel p = Ok (call q' (onVertex (m_float4 q'))).
Proof.
  intros H Hlen. unfold parseVertex.
  destruct vals as [ | v0 [ | v1 [ | v2 vals]]]; simpl in Hlen; try lia;
    open_fields; read_fields; subst; reflexivity.
Qed.

Lemma parseTexture_fields fuel p vals l' :
  numeric_fields fuel (lexer p) vals l' ->
  (List.length vals < 2)%nat ->
  let q := after_fields (incr_textureCount p) l' vals in
  let q' := set_float4 q (set_float (m_float4 q) 2 1%Q) in
  parseTexture fuel p = Ok (call q' (onTexture (m_float4 q'))).
Proof.
  intros H Hlen. unfold parseTexture.
  destruct vals as [ | v0 [ | v1 vals]]; simpl in Hlen; try lia;
    open_fields; read_fields; subst; reflexivity.
Qed.

(** A parameter statement with exactly one numeric field: slot 1 is set
    to zero and slot 2 is not written at all. *)
Lemma parseParameter_one_field fuel p v l' :
  numeric_fields fuel (lexer p) [v] l' ->
  let q := after_fields (incr_parameterCount p) l' [v] in
  let q' := set_float4 q (set_float (m_float4 q) 1 0%Q) in
  parseParameter fuel p = Ok (call q' (onParameter (m_float4 q'))).
Proof.
  intros H. unfold parseParameter.
  open_fields; read_fields; subst; reflexivity.
Qed.

(** A face statement whose first token is not an integer. *)
Lemma parseFace_no_group fuel p :
  m_token (peekToken (lexer p)) <> PT_INTEGER ->
  parseFace (S fuel) p =
  Ok (call (set_vector p [index_array_new]) (onFace [index_array_new] 0)).
Proof.
  intros H. unfold parseFace. simpl.
  unfold parseFaceIndices, parseInteger. simpl.
  destruct (m_token (peekToken (lexer p))); try congruence; simpl;
    rewrite set_lexer_same; reflexivity.
Qed.

End Fields.

(** ** Lexing a text character by character *)

Section Lexing.

Context {ext : Externals}.

Hypothesis numeric_eof : isNumeric EndOfFile = false.
Hypothesis alpha_eof : isAlpha EndOfFile = false.
Hypothesis eof_not_char : EndOfFile < 0 \/ 255 < EndOfFile.
Hypothesis digit_numeric : forall c, isDigit c = true -> isNumeric c = true.
Hypothesis blank_not_numeric :
  forall c, isWhitespace c = true -> isNumeric c = false.
Hypothesis slash_not_numeric : isNumeric SLASH = false.
Hypothesis newline_not_numeric : isNumeric NEWLINE = false.
Hypothesis f_not_numeric : isNumeric LOWER_F = false.
Hypothesis f_alpha : isAlpha LOWER_F = true.
Hypothesis blank_not_alpha :
  forall c, isWhitespace c = true -> isAlpha c = false.
Hypothesis newline_not_alpha : isAlpha NEWLINE = false.

Lemma reads_peek l cs : reads l cs ->
  m_peekChar l = match cs with [] => EndOfFile | c :: _ => c end.
Proof. destruct cs; simpl; intros [H _]; exact H. Qed.

Lemma nextChar_reads l c cs :
  reads l (c :: cs) ->
  exists l1, nextChar l = (c, l1) /\ m_currChar l1 = c /\ reads l1 cs /\
             same_tokens l l1.
Proof.
  intros [Hp Hr]. unfold nextChar. rewrite Hp, Hr.
  destruct cs as [ | c' cs']; simpl;
    destruct (c =? NEWLINE); eexists; (split; [reflexivity | ]);
    simpl; repeat split; reflexivity.
Qed.

Lemma char_not_eof c : 0 <= c <= 255 -> (c =? EndOfFile) = false.
Proof. intros H. apply Z.eqb_neq. lia. Qed.

Lemma digit_is_char c : isDigit c = true -> 0 <= c <= 255.
Proof. unfold isDigit. lia. Qed.

Lemma digit_not_sign c : isDigit c = true ->
  (c =? MINUS) = false /\ (c =? PLUS) = false.
Proof. unfold isDigit, MINUS, PLUS. lia. Qed.

(** The loop of [lexReadInteger] over a run of digits closed by a
    character that is not numeric. *)
Lemma lexReadInteger_loop_digits : forall ds fuel pow integer l stop,
  Forall (fun c => isDigit c = true) ds ->
  reads l (ds ++ stop) ->
  isNumeric (match stop with [] => EndOfFile | c :: _ => c end) = false ->
  (List.length ds < fuel)%nat ->
  exists pow' l',
    lexReadInteger_loop fuel pow integer l =
      Ok (pow', digits_value integer ds, l') /\
    reads l' stop /\ same_tokens l l'.
Proof.
  induction ds as [ | d ds IH]; intros fuel pow integer l stop Hd Hr Hs Hf;
    (destruct fuel as [ | fuel]; [simpl in Hf; lia | ]); simpl in *.
  - rewrite (reads_peek _ _ Hr), Hs.
    exists pow, l. repeat split; try reflexivity. exact Hr.
  - inversion Hd as [ | d' ds' Hd1 Hd2]; subst.
    destruct Hr as [Hp Hr]. rewrite Hp, (digit_numeric _ Hd1).
    destruct (nextChar_reads l d (ds ++ stop)) as (l1 & E & Hc & Hr1 & Ht);
      [split; assumption | ].
    rewrite E.
    destruct (IH fuel (wrap32 (pow * 10))
                (wrap32 (wrap32 (integer * 10) + ctoi d)) l1 stop
                Hd2 Hr1 Hs) as (pow' & l' & E' & Hr' & Ht'); [lia | ].
    exists pow', l'. split; [exact E' | ]. split; [exact Hr' | ].
    eapply same_tokens_trans; eassumption.
Qed.

(** [lexTokenInteger] on a digit string that no decimal point follows. *)
Lemma lexTokenInteger_digits fuel l token d ds stop :
  isDigit d = true ->
  Forall (fun c => isDigit c = true) ds ->
  m_currChar l = d ->
  reads l (ds ++ stop) ->
  isNumeric (match stop with [] => EndOfFile | c :: _ => c end) = false ->
  match stop with [] => True | c :: _ => c <> DOT end ->
  (List.length ds < fuel)%nat ->
  exists l',
    lexTokenInteger fuel l token =
      Ok (PT_INTEGER,
          set_attribute token (asInteger (integer_value (d :: ds))), l') /\
    reads l' stop /\ same_tokens l l'.
Proof.
  intros Hd Hds Hc Hr Hs Hdot Hf.
  unfold lexTokenInteger, lexReadInteger, lexReadInteger_power.
  rewrite Hc. destruct (digit_not_sign d Hd) as [-> ->].
  destruct (lexReadInteger_loop_digits ds fuel 1 (ctoi d) l stop
              Hds Hr Hs Hf) as (pow' & l' & E & Hr' & Ht).
  rewrite E. cbn [bind].
  assert (Hnd : (m_peekChar l' =? DOT) = false).
  { rewrite (reads_peek _ _ Hr'). apply Z.eqb_neq.
    destruct stop as [ | c stop']; [ | exact Hdot].
    unfold DOT. lia. }
  rewrite Hnd. exists l'. repeat split; try assumption; apply Ht.
Qed.

Lemma blank_is_char c : isWhitespace c = true -> 0 <= c <= 255.
Proof. unfold isWhitespace, SPACE, TAB, CR. lia. Qed.

Lemma blank_not_dot c : isWhitespace c = true -> c <> DOT.
Proof. unfold isWhitespace, SPACE, TAB, CR, DOT. lia. Qed.

(** In what follows the text of the lexemes is followed by [rest]. *)
Section Continued.

Variable rest : list Z.

Lemma stop_ok xs :
  lexable xs ->
  separate xs ->
  isNumeric (match lexemes_text xs ++ rest with
             | [] => EndOfFile
             | c :: _ => c
             end) = false /\
  match lexemes_text xs ++ rest with [] => True | c :: _ => c <> DOT end.
Proof.
  destruct xs as [ | [[ | c ws] x] xs]; unfold lexemes_text; simpl.
  - intros _ [].
  - destruct x as [ds | | ]; simpl; intros _ H; try contradiction.
    + split; [exact slash_not_numeric | discriminate].
    + split; [exact newline_not_numeric | discriminate].
  - intros [[Hb _] _] _. inversion Hb as [ | c' ws' Hc Hws]; subst.
    split; [apply blank_not_numeric; exact Hc | apply blank_not_dot; exact Hc].
Qed.

(** The tokenization loop on a text that starts with a lexeme. *)
Lemma lexToken_loop_lexeme fuel l token x xs :
  reads l (lexemes_text (x :: xs) ++ rest) ->
  lexable (x :: xs) ->
  (List.length (spaced_text x) < fuel)%nat ->
  exists token' l',
    lexToken_loop fuel l token = Ok (fst (lexeme_tok x), token', l') /\
    token_is (set_token token' (fst (lexeme_tok x))) (lexeme_tok x) /\
    reads l' (lexemes_text xs ++ rest) /\ same_tokens l l'.
Proof.
  destruct x as [ws x].
  change (lexemes_text ((ws, x) :: xs))
    with ((ws ++ lexeme_text x) ++ lexemes_text xs).
  change (lexeme_tok (ws, x)) with (lexeme_tok ([], x)).
  unfold spaced_text. cbn [fst snd]. rewrite <- !app_assoc, length_app.
  intros Hr [[Hb Hx] Hxs] Hf. cbn [fst snd] in Hb, Hx.
  assert (Hloop : forall fuel l,
    reads l (lexeme_text x ++ lexemes_text xs ++ rest) ->
    (List.length (lexeme_text x) < fuel)%nat ->
    exists token' l',
      lexToken_loop fuel l token =
        Ok (fst (lexeme_tok ([], x)), token', l') /\
      token_is (set_token token' (fst (lexeme_tok ([], x))))
        (lexeme_tok ([], x)) /\
      reads l' (lexemes_text xs ++ rest) /\ same_tokens l l').
  { clear fuel l Hr Hf. intros fuel l Hr Hf.
    destruct fuel as [ | fuel]; [lia | ].
    unfold lexeme_tok. simpl.
    destruct x as [ds | | ]; simpl in *.
    - destruct Hx as [[Hne Hds] Hsep].
      destruct ds as [ | d ds]; [congruence | ].
      inversion Hds as [ | d' ds' Hd Hds']; subst.
      simpl in Hr.
      destruct (nextChar_reads l d _ Hr) as (l1 & E & Hc & Hr1 & Ht).
      rewrite E, Hc.
      rewrite (char_not_eof d (digit_is_char d Hd)).
      assert (Hw : isWhitespace d = false)
        by (unfold isDigit in Hd; unfold isWhitespace, SPACE, TAB, CR; lia).
      rewrite Hw.
      assert (H1 : (d =? NEWLINE) = false)
        by (unfold isDigit in Hd; unfold NEWLINE; lia).
      assert (H2 : (d =? HASH) = false)
        by (unfold isDigit in Hd; unfold HASH; lia).
      assert (H3 : (d =? SLASH) = false)
        by (unfold isDigit in Hd; unfold SLASH; lia).
      rewrite H1, H2, H3, (digit_numeric d Hd).
      destruct (stop_ok xs Hxs Hsep) as [Hs Hdot].
      destruct (lexTokenInteger_digits fuel l1 token d ds
                  (lexemes_text xs ++ rest)
                  Hd Hds' Hc Hr1 Hs Hdot) as (l' & E' & Hr' & Ht');
        [simpl in Hf; lia | ].
      rewrite E'. eexists. exists l'. split; [reflexivity | ].
      split; [split; [reflexivity | intros _; reflexivity] | ].
      split; [exact Hr' | eapply same_tokens_trans; eassumption].
    - destruct (nextChar_reads l SLASH _ Hr) as (l1 & E & Hc & Hr1 & Ht).
      rewrite E.
      rewrite (char_not_eof SLASH) by (unfold SLASH; lia).
      simpl. exists token, l1. split; [reflexivity | ].
      split; [split; [reflexivity | discriminate] | ].
      split; assumption.
    - destruct (nextChar_reads l NEWLINE _ Hr) as (l1 & E & Hc & Hr1 & Ht).
      rewrite E.
      rewrite (char_not_eof NEWLINE) by (unfold NEWLINE; lia).
      simpl. exists token, l1. split; [reflexivity | ].
      split; [split; [reflexivity | discriminate] | ].
      split; assumption. }
  clear Hx. revert fuel l Hr Hf.
  induction Hb as [ | c ws Hc Hws IH]; intros fuel l Hr Hf.
  - apply Hloop; [exact Hr | simpl in Hf; lia].
  - destruct fuel as [ | fuel]; [simpl in Hf; lia | ].
    cbn [lexToken_loop]. cbn [app] in Hr.
    destruct (nextChar_reads l c _ Hr) as (l1 & E & Hc1 & Hr1 & Ht).
    rewrite E. rewrite (char_not_eof c (blank_is_char c Hc)), Hc.
    destruct (IH fuel l1 Hr1) as (token' & l' & E' & Hk & Hr' & Ht');
      [simpl in Hf; lia | ].
    exists token', l'. split; [exact E' | ]. split; [exact Hk | ].
    split; [exact Hr' | eapply same_tokens_trans; eassumption].
Qed.

Lemma lexeme_tok_kind x :
  skipsLine (fst (lexeme_tok x)) = false /\ fst (lexeme_tok x) <> PT_EOF.
Proof.
  destruct x as [b [ds | | ]]; split; simpl; try reflexivity; discriminate.
Qed.

(** [nextToken] on a text that starts with a lexeme: the lexeme becomes
    the lookahead token, whatever the fuel beyond the pending characters. *)
Lemma nextToken_lexeme l x xs :
  skipsLine (m_token (peekToken l)) = false ->
  reads l (lexemes_text (x :: xs) ++ rest) ->
  lexable (x :: xs) ->
  exists l1,
    (forall fuel, (pending l < fuel)%nat -> nextToken fuel l = Ok l1) /\
    token_is (peekToken l1) (lexeme_tok x) /\
    reads l1 (lexemes_text xs ++ rest) /\
    m_currToken l1 = m_peekToken l /\
    (pending l1 < pending l)%nat.
Proof.
  intros Hskip Hr Hlex.
  assert (Hr' : reads (swapTokens l) (lexemes_text (x :: xs) ++ rest)).
  { destruct (lexemes_text (x :: xs) ++ rest); exact Hr. }
  destruct (lexToken_loop_lexeme (S (List.length (spaced_text x)))
              (swapTokens l) (m_peekToken (swapTokens l)) x xs Hr' Hlex)
    as (token' & l' & E & Hk & Hrd & Hc & Hp); [lia | ].
  set (l1 := set_peekToken l' (set_token token' (fst (lexeme_tok x)))).
  assert (E1 : nextToken (S (List.length (spaced_text x))) l = Ok l1).
  { unfold nextToken, lexToken. simpl.
    unfold peekToken in Hskip. rewrite Hskip.
    simpl in E. rewrite E. reflexivity. }
  assert (Hall : forall fuel, (pending l < fuel)%nat ->
                              nextToken fuel l = Ok l1).
  { intros fuel Hf.
    eapply (nextToken_any_fuel numeric_eof alpha_eof); eassumption. }
  exists l1. split; [exact Hall | ].
  split; [exact Hk | ].
  split; [destruct (lexemes_text xs ++ rest); exact Hrd | ].
  split; [exact Hc | ].
  pose proof (nextToken_finishes numeric_eof alpha_eof
                (S (pending l)) l (Nat.lt_succ_diag_r _)) as Hfin.
  rewrite (Hall _ (Nat.lt_succ_diag_r _)) in Hfin. simpl in Hfin.
  unfold remaining in Hfin.
  destruct Hk as [Hk _]. unfold l1, peekToken in *. simpl in *.
  rewrite ParseToken_eqb_neq in Hfin by apply lexeme_tok_kind.
  unfold pending in *. simpl in *. lia.
Qed.

Lemma lex_script : forall xs t l,
  token_is (peekToken l) t ->
  skipsLine (fst t) = false ->
  reads l (lexemes_text xs ++ rest) ->
  lexable xs ->
  script rest l (t :: map lexeme_tok xs).
Proof.
  induction xs as [ | x xs IH]; intros t l Ht Hs Hr Hlex; simpl.
  - apply script_one; [exact Ht | exact Hr].
  - assert (Hs' : skipsLine (m_token (peekToken l)) = false)
      by (destruct Ht as [-> _]; exact Hs).
    destruct (nextToken_lexeme l x xs Hs' Hr Hlex)
      as (l1 & Hall & Hk & Hr1 & Hc & Hp).
    eapply script_more; try eassumption.
    apply IH; [exact Hk | apply lexeme_tok_kind | exact Hr1 | apply Hlex].
Qed.

(** *** Face groups on a script *)

Lemma script_head l t ts :
  script rest l (t :: ts) -> token_is (peekToken l) t.
Proof. intros H. inversion H; subst; assumption. Qed.

Lemma script_next l t t' ts fuel :
  script rest l (t :: t' :: ts) -> (pending l < fuel)%nat ->
  exists l1, nextToken fuel l = Ok l1 /\
             m_currToken l1 = m_peekToken l /\
             (pending l1 < pending l)%nat /\ script rest l1 (t' :: ts).
Proof.
  intros H Hf. inversion H as [ | l0 l1 t0 ts0 Hk Hall Hc Hp Hs]; subst.
  exists l1. auto.
Qed.

Lemma parseInteger_script fuel l z t ts i :
  script rest l ((PT_INTEGER, z) :: t :: ts) -> (pending l < fuel)%nat ->
  exists l1, parseInteger fuel l i = Ok (true, wrap64 z, l1) /\
             (pending l1 < pending l)%nat /\ script rest l1 (t :: ts).
Proof.
  intros H Hf.
  destruct (script_head _ _ _ H) as [Hk Hv]. simpl in Hk, Hv.
  destruct (script_next _ _ _ _ fuel H Hf) as (l1 & E & Hc & Hp & Hs).
  exists l1. unfold parseInteger. rewrite Hk, E. simpl.
  unfold currToken. rewrite Hc. unfold peekToken in Hv.
  rewrite (Hv eq_refl). auto.
Qed.

Lemma parseInteger_script_other fuel l t ts i :
  script rest l (t :: ts) -> fst t <> PT_INTEGER ->
  parseInteger fuel l i = Ok (false, i, l).
Proof.
  intros H Hne. destruct (script_head _ _ _ H) as [Hk _].
  unfold parseInteger. rewrite Hk.
  destruct (fst t); try reflexivity. congruence.
Qed.

Lemma checkToken_script fuel l z t ts :
  script rest l ((PT_SEPARATOR, z) :: t :: ts) -> (pending l < fuel)%nat ->
  exists l1, checkToken fuel l PT_SEPARATOR = Ok (true, l1) /\
             (pending l1 < pending l)%nat /\ script rest l1 (t :: ts).
Proof.
  intros H Hf.
  destruct (script_head _ _ _ H) as [Hk _]. simpl in Hk.
  destruct (script_next _ _ _ _ fuel H Hf) as (l1 & E & Hc & Hp & Hs).
  exists l1. unfold checkToken. rewrite Hk, E. simpl. auto.
Qed.

Lemma checkToken_script_other fuel l t ts :
  script rest l (t :: ts) -> fst t <> PT_SEPARATOR ->
  checkToken fuel l PT_SEPARATOR = Ok (false, l).
Proof.
  intros H Hne. destruct (script_head _ _ _ H) as [Hk _].
  unfold checkToken. rewrite Hk.
  destruct (fst t); try reflexivity. congruence.
Qed.

Ltac script_step fuel :=
  match goal with
  | H : script _ ?l ((PT_INTEGER, ?z) :: _ :: _)
    |- context [parseInteger fuel ?l ?i] =>
      let l1 := fresh "l" in
      let E := fresh "E" in
      let Hp := fresh "Hp" in
      let Hs := fresh "Hs" in
      destruct (parseInteger_script fuel l z _ _ i H) as (l1 & E & Hp & Hs);
      [lia | rewrite E; clear E H; cbn [bind negb]]
  | H : script _ ?l ((PT_SEPARATOR, ?z) :: _ :: _)
    |- context [checkToken fuel ?l PT_SEPARATOR] =>
      let l1 := fresh "l" in
      let E := fresh "E" in
      let Hp := fresh "Hp" in
      let Hs := fresh "Hs" in
      destruct (checkToken_script fuel l z _ _ H) as (l1 & E & Hp & Hs);
      [lia | rewrite E; clear E H; cbn [bind negb]]
  | H : script _ ?l (_ :: _) |- context [parseInteger fuel ?l ?i] =>
      rewrite (parseInteger_script_other fuel l _ _ i H)
        by (simpl; first [discriminate | auto]);
      cbn [bind negb]
  | H : script _ ?l (_ :: _) |- context [checkToken fuel ?l PT_SEPARATOR] =>
      rewrite (checkToken_script_other fuel l _ _ H)
        by (simpl; first [discriminate | auto]);
      cbn [bind negb]
  end.

(** [parseFaceIndices] on the tokens of one group: it decodes the triple
    of the group and stops in front of the token after the group,
    provided that token is not a separator and, when the group ends with
    a separator, not an integer either. *)
Lemma parseFaceIndices_group fuel l g t ts ia :
  group_ok g ->
  script rest l (map lexeme_tok (group_lexemes g) ++ t :: ts) ->
  fst t <> PT_SEPARATOR ->
  (open_ended g = true -> fst t <> PT_INTEGER) ->
  (pending l < fuel)%nat ->
  exists l',
    parseFaceIndices fuel l ia = Ok (true, triple g, l') /\
    (pending l' < pending l)%nat /\ script rest l' (t :: ts).
Proof.
  intros (_ & Hv & Ht & Hn & Hord) Hs Hsep Hopen Hf.
  destruct g as [sp v tx nm]. destruct ia as [[i0 i1] i2].
  unfold parseFaceIndices, triple, open_ended, group_lexemes in *.
  simpl in *.
  destruct tx as [ | | td]; destruct nm as [ | | nd];
    try (specialize (Hord eq_refl); discriminate);
    simpl in *; unfold lexeme_tok in Hs; simpl in Hs;
    repeat script_step fuel;
    eexists; (split; [reflexivity | split; [lia | assumption]]).
Qed.

Lemma script_end l t : script rest l [t] -> reads l rest.
Proof.
  intros H. inversion H as [l0 t0 Hk Hr | l0 l1 t0 ts0 Hk Hall Hc Hp Hs];
    subst; [exact Hr | inversion Hs].
Qed.

Lemma back_push_back {A : Type} (d : A) v a : back d (push_back v a) = a.
Proof. unfold back, push_back. apply last_last. Qed.

Lemma set_back_push_back {A : Type} (v : list A) a b :
  set_back (push_back v a) b = push_back v b.
Proof. unfold set_back, push_back. rewrite removelast_last. reflexivity. Qed.

(** The tokens of a line start with a token that is not a separator, and
    with the end of the statement when there is no group. *)
Lemma line_tokens_head gs tl :
  exists t ts,
    map lexeme_tok (line_lexemes gs tl) = t :: ts /\
    fst t <> PT_SEPARATOR /\
    (gs = [] -> fst t <> PT_INTEGER).
Proof.
  destruct gs as [ | g gs]; unfold line_lexemes; simpl.
  - eexists. eexists. split; [reflexivity | ].
    split; [discriminate | intros _; discriminate].
  - eexists. eexists. split; [reflexivity | ].
    split; [discriminate | intros; discriminate].
Qed.

Lemma line_lexemes_cons g gs tl :
  map lexeme_tok (line_lexemes (g :: gs) tl) =
  map lexeme_tok (group_lexemes g) ++ map lexeme_tok (line_lexemes gs tl).
Proof.
  unfold line_lexemes. simpl. rewrite <- app_assoc, map_app. reflexivity.
Qed.

(** The loop of [parseFace] on the tokens of a line of groups. *)
Lemma parseFace_loop_groups tl : forall gs fuel l v,
  groups_ok gs ->
  script rest l (map lexeme_tok (line_lexemes gs tl)) ->
  (pending l + 1 < fuel)%nat ->
  exists l',
    parseFace_loop fuel l v =
      Ok (v ++ map triple gs ++ [index_array_new], l') /\
    (pending l' <= pending l)%nat /\
    script rest l' [(PT_ENDSTATEMENT, 0)].
Proof.
  induction gs as [ | g gs IH]; intros fuel l v Hok Hs Hf;
    (destruct fuel as [ | fuel]; [lia | ]);
    cbn [parseFace_loop]; rewrite back_push_back.
  - unfold line_lexemes in Hs. simpl in Hs. unfold lexeme_tok in Hs.
    simpl in Hs. unfold parseFaceIndices, index_array_new.
    rewrite (parseInteger_script_other fuel l _ _ 0 Hs) by discriminate.
    cbn [bind negb]. rewrite set_back_push_back.
    exists l. split; [reflexivity | ].
    split; [lia | exact Hs].
  - destruct Hok as (Hg & Hlast & Hok).
    rewrite line_lexemes_cons in Hs.
    destruct (line_tokens_head gs tl) as (t & ts & Et & Hsep & Hint).
    rewrite Et in Hs.
    destruct (parseFaceIndices_group fuel l g t ts index_array_new
                Hg Hs Hsep) as (l1 & E & Hp & Hs1).
    { intros Ho. apply Hint.
      destruct gs as [ | g' gs']; [reflexivity | ].
      rewrite Hlast in Ho by discriminate. discriminate. }
    { lia. }
    rewrite E. cbn [bind]. rewrite set_back_push_back.
    rewrite <- Et in Hs1.
    destruct (IH fuel l1 (push_back v (triple g)) Hok Hs1)
      as (l' & E' & Hp' & Hs'); [lia | ].
    exists l'. rewrite E'. unfold push_back.
    rewrite <- app_assoc. simpl.
    split; [reflexivity | split; [lia | exact Hs']].
Qed.

End Continued.

(** *** The text of a line of groups *)

Lemma lexemes_text_app xs ys :
  lexemes_text (xs ++ ys) = lexemes_text xs ++ lexemes_text ys.
Proof. unfold lexemes_text. rewrite map_app, concat_app. reflexivity. Qed.

Lemma slot_lexemes_text sl : lexemes_text (slot_lexemes sl) = slot_text sl.
Proof.
  destruct sl as [ | | ds]; unfold lexemes_text; simpl;
    rewrite ?app_nil_r; reflexivity.
Qed.

Lemma group_lexemes_text g :
  lexemes_text (group_lexemes g) = g_space g ++ group_text g.
Proof.
  unfold group_lexemes, group_text.
  change (lexemes_text ((g_space g, LInt (g_vertex g)) ::
            slot_lexemes (g_texture g) ++ slot_lexemes (g_normal g)))
    with ((g_space g ++ g_vertex g) ++
            lexemes_text (slot_lexemes (g_texture g) ++
                          slot_lexemes (g_normal g))).
  rewrite lexemes_text_app, !slot_lexemes_text, <- app_assoc. reflexivity.
Qed.

Lemma line_lexemes_text gs tl :
  lexemes_text (line_lexemes gs tl) = groups_text gs tl.
Proof.
  unfold line_lexemes, groups_text. rewrite lexemes_text_app.
  f_equal.
  - induction gs as [ | g gs IH]; [reflexivity | ].
    cbn [map List.concat].
    rewrite lexemes_text_app, group_lexemes_text, IH. reflexivity.
  - unfold lexemes_text, spaced_text. simpl. rewrite app_nil_r. reflexivity.
Qed.

Lemma slot_lexable sl ys :
  slot_ok sl -> lexable ys -> separate ys ->
  lexable (slot_lexemes sl ++ ys) /\ separate (slot_lexemes sl ++ ys).
Proof.
  intros Hsl Hy Hs. destruct sl as [ | | ds]; simpl.
  - split; assumption.
  - split; [ | exact I]. split; [split; [constructor | exact I] | exact Hy].
  - split; [ | exact I]. split; [split; [constructor | exact I] | ].
    split; [split; [constructor | split; [exact Hsl | exact Hs]] | exact Hy].
Qed.

Lemma group_lexable g ys :
  group_ok g -> lexable ys -> separate ys ->
  lexable (group_lexemes g ++ ys) /\ separate (group_lexemes g ++ ys).
Proof.
  intros ((Hne & Hb) & Hv & Ht & Hn & _) Hy Hs.
  destruct (slot_lexable (g_normal g) ys Hn Hy Hs) as [Hy1 Hs1].
  destruct (slot_lexable (g_texture g) _ Ht Hy1 Hs1) as [Hy2 Hs2].
  unfold group_lexemes. cbn [app]. rewrite <- app_assoc.
  split.
  - split; [ | exact Hy2].
    split; [exact Hb | split; [exact Hv | exact Hs2]].
  - simpl. destruct (g_space g); [congruence | exact I].
Qed.

Lemma line_lexable gs tl :
  groups_ok gs -> blanks tl ->
  lexable (line_lexemes gs tl) /\ separate (line_lexemes gs tl).
Proof.
  unfold line_lexemes. intros Hok Htl.
  induction gs as [ | g gs IH].
  - simpl. split; [ | destruct tl; exact I].
    split; [split; [exact Htl | exact I] | exact I].
  - destruct Hok as (Hg & _ & Hok). cbn [map List.concat].
    rewrite <- app_assoc.
    destruct (IH Hok) as [Hy Hs].
    apply group_lexable; assumption.
Qed.

(** *** The keyword and the end of input *)

Lemma nextChar_reads_nil l :
  reads l [] ->
  exists l1, nextChar l = (EndOfFile, l1) /\ reads l1 [] /\
             same_tokens l l1.
Proof.
  intros [Hp Hr]. unfold nextChar. rewrite Hp, Hr. simpl.
  destruct (EndOfFile =? NEWLINE); eexists; (split; [reflexivity | ]);
    simpl; repeat split; reflexivity.
Qed.

Lemma nextToken_eof fuel l :
  reads l [] ->
  skipsLine (m_token (peekToken l)) = false ->
  exists l1,
    nextToken (S fuel) l = Ok l1 /\
    m_token (peekToken l1) = PT_EOF /\
    reads l1 [] /\
    m_currToken l1 = m_peekToken l.
Proof.
  intros Hr Hs. unfold nextToken, lexToken. simpl.
  unfold peekToken in Hs. rewrite Hs.
  assert (Hr' : reads (swapTokens l) []) by exact Hr.
  destruct (nextChar_reads_nil _ Hr') as (l1 & E & Hr1 & Hc & Hp).
  rewrite E, Z.eqb_refl. simpl. eexists. split; [reflexivity | ].
  split; [reflexivity | ]. split; [exact Hr1 | exact Hc].
Qed.

Lemma nextToken_face fuel l cs :
  reads l (LOWER_F :: cs) ->
  isAlpha (match cs with [] => EndOfFile | c :: _ => c end) = false ->
  skipsLine (m_token (peekToken l)) = false ->
  exists l1,
    nextToken (S (S fuel)) l = Ok l1 /\
    m_token (peekToken l1) = PT_FACE /\
    reads l1 cs /\
    m_currToken l1 = m_peekToken l.
Proof.
  intros Hr Ha Hs. unfold nextToken, lexToken.
  cbn [m_currToken swapTokens].
  unfold peekToken in Hs. rewrite Hs. cbn [lexToken_loop].
  assert (Hr' : reads (swapTokens l) (LOWER_F :: cs)) by exact Hr.
  destruct (nextChar_reads _ _ _ Hr') as (l1 & E & Hc & Hr1 & Ht & Hp).
  rewrite E, Hc.
  rewrite (char_not_eof LOWER_F) by (unfold LOWER_F; lia).
  change (isWhitespace LOWER_F) with false.
  change (LOWER_F =? NEWLINE) with false.
  change (LOWER_F =? HASH) with false.
  change (LOWER_F =? SLASH) with false.
  cbv iota. rewrite f_not_numeric, f_alpha.
  unfold lexTokenIdentifier. cbn [lexTokenIdentifier_loop].
  rewrite (reads_peek _ _ Hr1), Ha, Hc. cbn [bind].
  eexists. split; [reflexivity | ].
  split; [reflexivity | ]. split; [ | exact Ht].
  destruct cs; exact Hr1.
Qed.

(** *** A face statement in the loop of [parse] *)

Lemma line_lexemes_nonempty gs tl :
  exists x xs, line_lexemes gs tl = x :: xs.
Proof.
  destruct gs as [ | g gs]; unfold line_lexemes; simpl;
    eexists; eexists; reflexivity.
Qed.

Lemma reads_pending l cs : reads l cs -> (pending l <= List.length cs)%nat.
Proof.
  unfold pending. destruct cs as [ | c cs]; intros [-> ->]; simpl.
  - rewrite Z.eqb_refl. lia.
  - destruct (c =? EndOfFile); lia.
Qed.

(** One turn of the loop of [parse] whose token is a face keyword, the
    reader standing in front of the groups of the statement. *)
Lemma face_turn gs tl rest fuel p :
  m_token (peekToken (lexer p)) = PT_FACE ->
  reads (lexer p) (groups_text gs tl ++ rest) ->
  groups_ok gs ->
  blanks tl ->
  (List.length (groups_text gs tl ++ rest) < fuel)%nat ->
  exists p',
    parse_body fuel p = Ok (None, p') /\
    sink p' = sink p ++ [onFace (map triple gs ++ [index_array_new])
                           (Z.of_nat (List.length gs))] /\
    m_token (peekToken (lexer p')) = PT_ENDSTATEMENT /\
    reads (lexer p') rest /\
    (pending (lexer p') < pending (lexer p))%nat.
Proof.
  intros Hk Hr Hok Htl Hf.
  pose proof (reads_pending _ _ Hr) as Hpend.
  rewrite <- line_lexemes_text in Hr.
  destruct (line_lexable gs tl Hok Htl) as [Hlex _].
  destruct (line_lexemes_nonempty gs tl) as (x & xs & Ex).
  assert (Etoks : map lexeme_tok (line_lexemes gs tl)
                  = lexeme_tok x :: map lexeme_tok xs)
    by (rewrite Ex; reflexivity).
  rewrite Ex in Hlex, Hr.
  unfold parse_body.
  destruct (nextToken_lexeme rest (lexer p) x xs)
    as (l3 & E3 & Hk3 & Hr3 & Hc3 & Hn3);
    [rewrite Hk; reflexivity | exact Hr | exact Hlex | ].
  rewrite (E3 fuel) by lia. cbn [bind].
  unfold currToken at 1. rewrite Hc3.
  unfold peekToken in Hk. rewrite Hk.
  unfold parseFace. cbn [lexer set_lexer].
  assert (Hs3 : script rest l3 (map lexeme_tok (line_lexemes gs tl))).
  { rewrite Etoks. apply lex_script;
      [exact Hk3 | apply lexeme_tok_kind | exact Hr3 | apply Hlex]. }
  destruct (parseFace_loop_groups rest tl gs fuel l3 [] Hok Hs3)
    as (l4 & E4 & Hn4 & Hs4); [lia | ].
  rewrite E4. cbn [bind].
  eexists. split; [reflexivity | ].
  cbn [sink lexer call set_vector set_lexer].
  destruct (script_head _ _ _ _ Hs4) as [Hk4 _].
  split.
  { simpl app. rewrite length_app, length_map. simpl.
    replace (Z.of_nat (List.length gs + 1) - 1)
      with (Z.of_nat (List.length gs)) by lia.
    reflexivity. }
  split; [exact Hk4 | ].
  split; [exact (script_end _ _ _ Hs4) | lia].
Qed.

(** *** A whole run on a face line *)

Lemma face_line_text gs tl :
  face_line gs tl = LOWER_F :: groups_text gs tl.
Proof. reflexivity. Qed.

Lemma groups_text_not_alpha gs tl :
  groups_ok gs -> blanks tl ->
  isAlpha (match groups_text gs tl with
           | [] => EndOfFile
           | c :: _ => c
           end) = false.
Proof.
  intros Hok Htl. unfold groups_text.
  destruct gs as [ | g gs]; cbn [map List.concat app].
  - destruct Htl as [ | c tl Hc Htl]; simpl;
      [exact newline_not_alpha | apply blank_not_alpha; exact Hc].
  - destruct Hok as (((Hne & Hb) & _) & _).
    destruct Hb as [ | c sp Hc Hb]; [congruence | ].
    simpl. apply blank_not_alpha. exact Hc.
Qed.

Lemma face_line_parse gs tl fuel u :
  groups_ok gs ->
  blanks tl ->
  (List.length (face_line gs tl) + 2 <= fuel)%nat ->
  exists p,
    KAbstractObjParser_parse fuel (face_line gs tl) u = Ok (true, p) /\
    sink p = [onFace (map triple gs ++ [index_array_new])
                (Z.of_nat (List.length gs))].
Proof.
  intros Hok Htl Hf. rewrite face_line_text in *.
  pose proof (groups_text_not_alpha gs tl Hok Htl) as Halpha.
  set (txt := groups_text gs tl) in *.
  unfold KAbstractObjParser_parse, KAbstractObjParserPrivate.
  (* construction *)
  destruct (nextChar _) as [c0 l1] eqn:E0.
  assert (H1 : reads l1 (LOWER_F :: txt) /\ m_peekToken l1 = Token_new).
  { unfold nextChar in E0. cbn [m_peekChar m_reader next] in E0.
    destruct (u_peekChar u =? NEWLINE); inversion E0; subst;
      (split; [split; reflexivity | reflexivity]). }
  destruct H1 as (Hr1 & Hp1).
  cbn [List.length] in Hf.
  destruct fuel as [ | [ | f1]]; try lia.
  destruct (nextToken_face f1 l1 txt Hr1 Halpha) as (l2 & E2 & Hk2 & Hr2 & Hc2).
  { unfold peekToken. rewrite Hp1. reflexivity. }
  rewrite E2. cbn [bind].
  (* first turn: the face statement *)
  cbn [parse].
  destruct (face_turn gs tl [] (S f1)
              (mkParser l2 0 0 0 0 0 (u_float4 u) [] []))
    as (p1 & E3 & Hs3 & Hk3 & Hr3 & _);
    [exact Hk2 | rewrite app_nil_r; exact Hr2 | exact Hok | exact Htl
    | rewrite app_nil_r; fold txt; lia | ].
  rewrite E3. cbn [bind].
  (* second turn: the end of the statement *)
  destruct f1 as [ | [ | f3]].
  { assert (List.length txt <> 0)%nat; [ | lia].
    unfold txt, groups_text. rewrite !length_app. simpl. lia. }
  { assert (List.length txt <> 0)%nat; [ | lia].
    unfold txt, groups_text. rewrite !length_app. simpl. lia. }
  cbn [parse]. unfold parse_body at 1.
  destruct (nextToken_eof (S f3) (lexer p1) Hr3)
    as (l5 & E5 & Hk5 & Hr5 & Hc5); [rewrite Hk3; reflexivity | ].
  rewrite E5. cbn [bind].
  unfold currToken at 1. rewrite Hc5.
  unfold peekToken in Hk3. rewrite Hk3. cbn [bind].
  (* third turn: the end of input *)
  unfold parse_body. cbn [lexer set_lexer].
  destruct (nextToken_eof f3 l5 Hr5) as (l6 & E6 & Hk6 & Hr6 & Hc6);
    [rewrite Hk5; reflexivity | ].
  rewrite E6. cbn [bind].
  unfold currToken. rewrite Hc6.
  unfold peekToken in Hk5. rewrite Hk5. cbn [bind].
  eexists. split; [reflexivity | ].
  cbn [sink set_lexer]. exact Hs3.
Qed.

End Lexing.

(** ** The deferred line skip *)

Section LineSkip.

Context {ext : Externals}.

Lemma nextLine_loop_line : forall cs c rest,
  Forall in_line (c :: cs) ->
  nextLine_loop (cs ++ NEWLINE :: rest) c = (NEWLINE, rest).
Proof.
  induction cs as [ | x cs IH]; intros c rest Hl;
    inversion Hl as [ | c' l' Hc Hl']; subst; destruct Hc as [Hc _];
    cbn [app nextLine_loop];
    rewrite (proj2 (Z.eqb_neq c NEWLINE) Hc).
  - destruct (NEWLINE =? EndOfFile); [reflexivity | ].
    destruct rest; cbn [nextLine_loop]; rewrite Z.eqb_refl; reflexivity.
  - inversion Hl' as [ | x' l'' Hx _]; subst. destruct Hx as [_ Hx].
    rewrite (proj2 (Z.eqb_neq x EndOfFile) Hx).
    apply IH. exact Hl'.
Qed.

(** [nextLine] leaves the reader at the first character after the
    newline, whatever the line holds. *)
Lemma nextLine_reads l cs rest :
  reads l (cs ++ NEWLINE :: rest) ->
  Forall in_line cs ->
  reads (nextLine l) rest.
Proof.
  intros Hr Hl. unfold nextLine.
  assert (E : nextLine_loop (m_reader l) (m_peekChar l) = (NEWLINE, rest)).
  { destruct cs as [ | c cs]; cbn [app reads] in Hr;
      destruct Hr as [-> ->].
    - destruct rest; cbn [nextLine_loop]; rewrite Z.eqb_refl; reflexivity.
    - apply nextLine_loop_line. exact Hl. }
  rewrite E. destruct rest as [ | c rest]; simpl; split; reflexivity.
Qed.

End LineSkip.

(** ** Paths the lexer does not take *)

Section Departures.

Context {ext : Externals}.

(** After a use-material keyword [lexToken] goes straight to its
    tokenization loop: nothing is skipped. *)
Lemma lexToken_after_usemtl fuel l token :
  m_token (currToken l) = PT_USEMATERIAL ->
  lexToken fuel l token = lexToken_loop fuel l token.
Proof.
  intros H. unfold lexToken. unfold currToken in H. rewrite H. reflexivity.
Qed.

(** An integer followed by the letter e is an integer token: the letter
    is left for the next token. *)
Lemma lexTokenInteger_before_e fuel l token integer l1 :
  lexReadInteger fuel l = Ok (integer, l1) ->
  m_peekChar l1 = LOWER_E ->
  lexTokenInteger fuel l token =
  Ok (PT_INTEGER, set_attribute token (asInteger integer), l1).
Proof.
  intros H He. unfold lexTokenInteger. rewrite H. cbn [bind].
  rewrite He. reflexivity.
Qed.

(** With integer part 0 the fraction is added, whatever sign the literal
    started with: [lexReadInteger] answers [sign * 0] for it. *)
Lemma lexTokenFloat_zero_integer fuel l token power fraction l1 :
  lexReadInteger_power fuel l = Ok (power, fraction, l1) ->
  (toLower (m_peekChar l1) =? LOWER_E) = false ->
  lexTokenFloat fuel l token (wrap32 (-1 * 0)) =
  Ok (PT_FLOAT,
      set_attribute token
        (asFloat (fadd (float_of_int 0)
                    (fdiv (float_of_int fraction) (float_of_int power)))),
      l1).
Proof.
  intros H He. unfold lexTokenFloat. rewrite H. cbn [bind].
  rewrite He. reflexivity.
Qed.

End Departures.

(** ** Lexemes character by character *)

Lemma wrap32_small z : - 2 ^ 31 <= z < 2 ^ 31 -> wrap32 z = z.
Proof.
  intros H. unfold wrap32. rewrite Z.mod_small; lia.
Qed.

Section Literals.

Context {ext : Externals}.

Hypothesis eof_not_char : EndOfFile < 0 \/ 255 < EndOfFile.

Lemma reads_swapTokens l cs : reads l cs -> reads (swapTokens l) cs.
Proof. destruct cs; intros H; exact H. Qed.

Lemma reads_set_peekToken l t cs : reads l cs -> reads (set_peekToken l t) cs.
Proof. destruct cs; intros H; exact H. Qed.

Lemma reads_first l cs : reads l cs -> m_peekChar l = first_of cs.
Proof. destruct cs; intros [H _]; exact H. Qed.

(** The tokenization loop passes over whitespace. *)
Lemma lexToken_loop_blanks token : forall ws fuel l cs,
  blanks ws ->
  reads l (ws ++ cs) ->
  (List.length ws <= fuel)%nat ->
  exists l1,
    lexToken_loop fuel l token =
      lexToken_loop (fuel - List.length ws) l1 token /\
    reads l1 cs /\ same_tokens l l1.
Proof.
  induction ws as [ | c ws IH]; intros fuel l cs Hb Hr Hf.
  - exists l. rewrite Nat.sub_0_r. repeat split; try reflexivity. exact Hr.
  - inversion Hb as [ | c' ws' Hc Hws]; subst.
    destruct fuel as [ | fuel]; [simpl in Hf; lia | ].
    cbn [lexToken_loop]. cbn [app] in Hr.
    destruct (nextChar_reads l c _ Hr) as (l1 & E & Hc1 & Hr1 & Ht).
    rewrite E.
    rewrite (char_not_eof eof_not_char c (blank_is_char c Hc)), Hc.
    destruct (IH fuel l1 cs Hws Hr1) as (l2 & E2 & Hr2 & Ht2);
      [simpl in Hf; lia | ].
    exists l2. split; [exact E2 | ].
    split; [exact Hr2 | eapply same_tokens_trans; eassumption].
Qed.

(** The default branch of the switch of [lexToken]. *)
Lemma lexToken_loop_ordinary fuel l token c cs :
  ordinary c ->
  reads l (c :: cs) ->
  exists l1,
    m_currChar l1 = c /\ reads l1 cs /\ same_tokens l l1 /\
    lexToken_loop (S fuel) l token =
      if isNumeric c then lexTokenInteger fuel l1 token
      else if isAlpha c then lexTokenIdentifier fuel l1 token
      else Fatal (UnexpectedCharacter (m_currLineCount l1)
                    (m_currCharCount l1) c).
Proof.
  intros (Hc & Hw & H1 & H2 & H3) Hr.
  destruct (nextChar_reads l c _ Hr) as (l1 & E & Hc1 & Hr1 & Ht).
  exists l1. split; [exact Hc1 | ]. split; [exact Hr1 | ].
  split; [exact Ht | ].
  cbn [lexToken_loop]. rewrite E, Hc1.
  rewrite (char_not_eof eof_not_char c Hc), Hw.
  rewrite (proj2 (Z.eqb_neq _ _) H1), (proj2 (Z.eqb_neq _ _) H2),
    (proj2 (Z.eqb_neq _ _) H3).
  reflexivity.
Qed.

Lemma digit_ordinary c : isDigit c = true -> ordinary c.
Proof.
  unfold isDigit, ordinary, isWhitespace, SPACE, TAB, CR, NEWLINE, HASH, SLASH.
  lia.
Qed.

Lemma letter_ordinary c : isLetter c = true -> ordinary c.
Proof.
  unfold isLetter, isUpper, isLower, ordinary, isWhitespace, SPACE, TAB, CR,
    NEWLINE, HASH, SLASH.
  lia.
Qed.

Lemma sign_ordinary s c : sign_text s = [c] -> ordinary c.
Proof.
  destruct s; simpl; intros H; inversion H; subst;
    unfold ordinary, isWhitespace, PLUS, MINUS, SPACE, TAB, CR, NEWLINE,
      HASH, SLASH; lia.
Qed.

(** [nextToken] from its tokenization loop. *)
Lemma nextToken_of_loop fuel l k token' l' :
  skipsLine (m_token (peekToken l)) = false ->
  lexToken_loop fuel (swapTokens l) (m_currToken l) = Ok (k, token', l') ->
  nextToken fuel l = Ok (set_peekToken l' (set_token token' k)).
Proof.
  intros Hs E. unfold nextToken, lexToken.
  cbn [m_currToken m_peekToken swapTokens].
  unfold peekToken in Hs. rewrite Hs, E. reflexivity.
Qed.

Section Digits.

Hypothesis digit_numeric : forall c, isDigit c = true -> isNumeric c = true.
Hypothesis ctoi_digit : forall c, isDigit c = true -> ctoi c = c - 48.

(** The loop of [lexReadInteger] over a run of digits, with the power it
    accumulates. *)
Lemma lexReadInteger_loop_run : forall ds fuel pow integer l stop,
  Forall (fun c => isDigit c = true) ds ->
  reads l (ds ++ stop) ->
  isNumeric (first_of stop) = false ->
  (List.length ds < fuel)%nat ->
  exists l',
    lexReadInteger_loop fuel pow integer l =
      Ok (power_value pow ds, digits_value integer ds, l') /\
    reads l' stop /\ same_tokens l l'.
Proof.
  induction ds as [ | d ds IH]; intros fuel pow integer l stop Hd Hr Hs Hf;
    (destruct fuel as [ | fuel]; [simpl in Hf; lia | ]); simpl in *.
  - rewrite (reads_first _ _ Hr), Hs.
    exists l. repeat split; try reflexivity. exact Hr.
  - inversion Hd as [ | d' ds' Hd1 Hd2]; subst.
    destruct Hr as [Hp Hr]. rewrite Hp, (digit_numeric _ Hd1).
    destruct (nextChar_reads l d (ds ++ stop)) as (l1 & E & Hc & Hr1 & Ht);
      [split; assumption | ].
    rewrite E.
    destruct (IH fuel (wrap32 (pow * 10))
                (wrap32 (wrap32 (integer * 10) + ctoi d)) l1 stop
                Hd2 Hr1 Hs) as (l' & E' & Hr' & Ht'); [lia | ].
    exists l'. split; [exact E' | ]. split; [exact Hr' | ].
    eapply same_tokens_trans; eassumption.
Qed.

Lemma decimal_from_le : forall ds n,
  Forall (fun c => isDigit c = true) ds -> 0 <= n -> n <= decimal_from n ds.
Proof.
  induction ds as [ | d ds IH]; intros n Hd Hn; [simpl; lia | ].
  inversion Hd as [ | d' ds' Hd1 Hd2]; subst.
  unfold decimal_from in *. cbn [fold_left].
  assert (H : 0 <= 10 * n + (d - 48)) by (unfold isDigit in Hd1; lia).
  pose proof (IH _ Hd2 H). unfold isDigit in Hd1. lia.
Qed.

(** Without overflow the loop accumulates the number the digits write. *)
Lemma digits_value_decimal : forall ds n,
  Forall (fun c => isDigit c = true) ds ->
  0 <= n ->
  decimal_from n ds < 2 ^ 31 ->
  digits_value n ds = decimal_from n ds.
Proof.
  induction ds as [ | d ds IH]; intros n Hd Hn Hb; [reflexivity | ].
  inversion Hd as [ | d' ds' Hd1 Hd2]; subst.
  unfold decimal_from in *. cbn [digits_value fold_left] in *.
  assert (H0 : 0 <= 10 * n + (d - 48)) by (unfold isDigit in Hd1; lia).
  pose proof (decimal_from_le ds _ Hd2 H0) as Hle. unfold decimal_from in Hle.
  rewrite (ctoi_digit d Hd1).
  assert (Hd' : 0 <= d - 48 <= 9) by (unfold isDigit in Hd1; lia).
  rewrite (wrap32_small (n * 10)) by lia.
  rewrite wrap32_small by lia.
  replace (n * 10 + (d - 48)) with (10 * n + (d - 48)) by lia.
  apply IH; assumption.
Qed.

Lemma power_value_small : forall ds p,
  0 < p ->
  p * 10 ^ Z.of_nat (List.length ds) < 2 ^ 31 ->
  power_value p ds = p * 10 ^ Z.of_nat (List.length ds).
Proof.
  induction ds as [ | d ds IH]; intros p Hp Hb.
  - simpl. lia.
  - cbn [power_value]. cbn [List.length] in *.
    rewrite Nat2Z.inj_succ, Z.pow_succ_r in * by lia.
    assert (H1 : 0 < 10 ^ Z.of_nat (List.length ds))
      by (apply Z.pow_pos_nonneg; lia).
    rewrite wrap32_small by nia.
    rewrite IH by nia. ring.
Qed.

Hypothesis minus_numeric : isNumeric MINUS = true.
Hypothesis plus_numeric : isNumeric PLUS = true.

(** [lexReadInteger(int *power)] on a literal whose first character is
    the current character. *)
Lemma lexReadInteger_power_literal fuel l s ds c cs stop :
  literal s ds ->
  sign_text s ++ ds = c :: cs ->
  m_currChar l = c ->
  reads l (cs ++ stop) ->
  isNumeric (first_of stop) = false ->
  (List.length cs < fuel)%nat ->
  exists l',
    lexReadInteger_power fuel l =
      Ok (power_value 1 cs, sign_factor s * decimal ds, l') /\
    reads l' stop /\ same_tokens l l'.
Proof.
  intros (Hd & Hne & Hb) Ht Hc Hr Hs Hf.
  unfold lexReadInteger_power. rewrite Hc.
  assert (Hdec : 0 <= decimal ds)
    by (apply (decimal_from_le ds 0 Hd); lia).
  destruct s; simpl in Ht.
  - subst ds. inversion Hd as [ | d' ds' Hd1 Hd2]; subst d' ds'.
    destruct (digit_not_sign c Hd1) as [-> ->].
    destruct (lexReadInteger_loop_run cs fuel 1 (ctoi c) l stop
                Hd2 Hr Hs Hf) as (l' & E & Hr' & Ht').
    rewrite E. cbn [bind]. exists l'. split; [ | split; assumption].
    rewrite (ctoi_digit c Hd1).
    assert (H0 : 0 <= c - 48) by (unfold isDigit in Hd1; lia).
    assert (E2 : decimal (c :: cs) = decimal_from (c - 48) cs)
      by (unfold decimal, decimal_from; simpl; reflexivity).
    rewrite digits_value_decimal by (try assumption; rewrite <- E2; exact Hb).
    rewrite <- E2. rewrite wrap32_small by (simpl sign_factor; lia).
    reflexivity.
  - inversion Ht; subst c cs.
    change (PLUS =? MINUS) with false. rewrite Z.eqb_refl.
    destruct (lexReadInteger_loop_run ds fuel 1 0 l stop
                Hd Hr Hs Hf) as (l' & E & Hr' & Ht').
    rewrite E. cbn [bind]. exists l'. split; [ | split; assumption].
    rewrite digits_value_decimal by (try assumption; lia).
    fold (decimal ds). rewrite wrap32_small by (simpl sign_factor; lia).
    reflexivity.
  - inversion Ht; subst c cs.
    rewrite Z.eqb_refl.
    destruct (lexReadInteger_loop_run ds fuel 1 0 l stop
                Hd Hr Hs Hf) as (l' & E & Hr' & Ht').
    rewrite E. cbn [bind]. exists l'. split; [ | split; assumption].
    rewrite digits_value_decimal by (try assumption; lia).
    fold (decimal ds). rewrite wrap32_small by (simpl sign_factor; lia).
    reflexivity.
Qed.

End Digits.
End Literals.

Section LiteralTokens.

Context {ext : Externals}.

Hypothesis eof_not_char : EndOfFile < 0 \/ 255 < EndOfFile.

(** Whitespace, then a character of the default branch. *)
Lemma lexToken_loop_start fuel l token ws c cs :
  blanks ws ->
  ordinary c ->
  reads l (ws ++ c :: cs) ->
  (List.length ws < fuel)%nat ->
  exists l1,
    m_currChar l1 = c /\ reads l1 cs /\ same_tokens l l1 /\
    lexToken_loop fuel l token =
      let fuel := (fuel - List.length ws - 1)%nat in
      if isNumeric c then lexTokenInteger fuel l1 token
      else if isAlpha c then lexTokenIdentifier fuel l1 token
      else Fatal (UnexpectedCharacter (m_currLineCount l1)
                    (m_currCharCount l1) c).
Proof.
  intros Hb Hc Hr Hf.
  destruct (lexToken_loop_blanks eof_not_char token ws fuel l (c :: cs)
              Hb Hr) as (l0 & E0 & Hr0 & Ht0); [lia | ].
  destruct (lexToken_loop_ordinary eof_not_char
              (fuel - List.length ws - 1) l0 token c cs Hc Hr0)
    as (l1 & Hc1 & Hr1 & Ht1 & E1).
  exists l1. split; [exact Hc1 | ]. split; [exact Hr1 | ].
  split; [eapply same_tokens_trans; eassumption | ].
  rewrite E0. cbv zeta. rewrite <- E1. f_equal. lia.
Qed.

(** *** Words *)

Lemma letter_char c : isLetter c = true -> to_char c = c /\ c <> 0.
Proof.
  unfold isLetter, isUpper, isLower, to_char. intros H.
  split; [apply Z.mod_small; lia | lia].
Qed.

Lemma c_str_word w :
  Forall (fun c => isLetter c = true) w -> c_str w = w.
Proof.
  induction 1 as [ | c w Hc Hw IH]; [reflexivity | ].
  simpl. destruct (letter_char c Hc) as [_ Hn].
  rewrite (proj2 (Z.eqb_neq _ _) Hn), IH. reflexivity.
Qed.

Section Words.

Hypothesis letter_alpha : forall c, isLetter c = true -> isAlpha c = true.

Lemma lexTokenIdentifier_loop_word : forall w fuel l token stop,
  Forall (fun c => isLetter c = true) w ->
  reads l (w ++ stop) ->
  isAlpha (first_of stop) = false ->
  (List.length w < fuel)%nat ->
  exists l',
    lexTokenIdentifier_loop fuel l token =
      Ok (symResolve (set_lexicon token (m_lexicon token ++ w)) PT_STRING,
          set_lexicon token (m_lexicon token ++ w), l') /\
    reads l' stop /\ same_tokens l l'.
Proof.
  induction w as [ | c w IH]; intros fuel l token stop Hw Hr Hs Hf;
    (destruct fuel as [ | fuel]; [simpl in Hf; lia | ]);
    cbn [lexTokenIdentifier_loop].
  - cbn [app] in Hr. rewrite (reads_first _ _ Hr), Hs.
    rewrite app_nil_r.
    replace (set_lexicon token (m_lexicon token)) with token
      by (destruct token; reflexivity).
    exists l. repeat split; try reflexivity. exact Hr.
  - inversion Hw as [ | c' w' Hc Hw']; subst. cbn [app] in Hr.
    destruct (nextChar_reads l c _ Hr) as (l1 & E & Hc1 & Hr1 & Ht).
    destruct Hr as [Hp _]. rewrite Hp, (letter_alpha c Hc), E.
    destruct (IH fuel l1 (set_lexicon token (m_lexicon token ++ [to_char c]))
                stop Hw' Hr1 Hs) as (l' & E' & Hr' & Ht');
      [simpl in Hf; lia | ].
    rewrite E'. cbn [m_lexicon set_lexicon m_token m_attribute].
    rewrite <- app_assoc. cbn [app].
    rewrite (proj1 (letter_char c Hc)).
    exists l'. split; [reflexivity | ].
    split; [exact Hr' | eapply same_tokens_trans; eassumption].
Qed.

Lemma lexTokenIdentifier_word fuel l token c w stop :
  Forall (fun c => isLetter c = true) (c :: w) ->
  m_currChar l = c ->
  reads l (w ++ stop) ->
  isAlpha (first_of stop) = false ->
  (List.length w < fuel)%nat ->
  exists l',
    lexTokenIdentifier fuel l token =
      Ok (keyword_of (c :: w), set_lexicon token (c :: w), l') /\
    reads l' stop /\ same_tokens l l'.
Proof.
  intros Hw Hc Hr Hs Hf. unfold lexTokenIdentifier. rewrite Hc.
  inversion Hw as [ | c' w' Hc1 Hw1]; subst c' w'.
  destruct (lexTokenIdentifier_loop_word w fuel l
              (set_lexicon token [to_char (m_currChar l)]) stop
              Hw1 Hr Hs Hf) as (l' & E & Hr' & Ht').
  rewrite Hc in E. rewrite E.
  cbn [m_lexicon set_lexicon m_token m_attribute app].
  rewrite (proj1 (letter_char c Hc1)).
  exists l'. split; [ | split; assumption].
  unfold symResolve, keyword_of. cbn [m_lexicon set_lexicon].
  rewrite (c_str_word (c :: w) Hw). reflexivity.
Qed.

End Words.

(** *** Numeric literals *)

Section Numbers.

Hypothesis digit_numeric : forall c, isDigit c = true -> isNumeric c = true.
Hypothesis ctoi_digit : forall c, isDigit c = true -> ctoi c = c - 48.
Hypothesis minus_numeric : isNumeric MINUS = true.
Hypothesis plus_numeric : isNumeric PLUS = true.

Lemma literal_first s ds :
  literal s ds ->
  exists c cs, sign_text s ++ ds = c :: cs /\ ordinary c /\
               isNumeric c = true.
Proof.
  intros (Hd & Hne & _). destruct s; simpl.
  - destruct ds as [ | d ds]; [exfalso; apply Hne; reflexivity | ].
    inversion Hd; subst. exists d, ds.
    split; [reflexivity | ].
    split; [apply digit_ordinary; assumption | apply digit_numeric; assumption].
  - exists PLUS, ds. split; [reflexivity | ].
    split; [apply (sign_ordinary Plus); reflexivity | exact plus_numeric].
  - exists MINUS, ds. split; [reflexivity | ].
    split; [apply (sign_ordinary Minus); reflexivity | exact minus_numeric].
Qed.

Lemma lexReadInteger_literal fuel l s ds c cs stop :
  literal s ds ->
  sign_text s ++ ds = c :: cs ->
  m_currChar l = c ->
  reads l (cs ++ stop) ->
  isNumeric (first_of stop) = false ->
  (List.length cs < fuel)%nat ->
  exists l',
    lexReadInteger fuel l = Ok (sign_factor s * decimal ds, l') /\
    reads l' stop /\ same_tokens l l'.
Proof.
  intros Hl Ht Hc Hr Hs Hf. unfold lexReadInteger.
  destruct (lexReadInteger_power_literal digit_numeric ctoi_digit
              fuel l s ds c cs stop Hl Ht Hc Hr Hs Hf)
    as (l' & E & Hr' & Ht').
  rewrite E. exists l'. split; [reflexivity | split; assumption].
Qed.

Lemma lexTokenInteger_literal fuel l token s ds c cs stop :
  literal s ds ->
  sign_text s ++ ds = c :: cs ->
  m_currChar l = c ->
  reads l (cs ++ stop) ->
  isNumeric (first_of stop) = false ->
  first_of stop <> DOT ->
  (List.length cs < fuel)%nat ->
  exists l',
    lexTokenInteger fuel l token =
      Ok (PT_INTEGER,
          set_attribute token (asInteger (sign_factor s * decimal ds)), l') /\
    reads l' stop /\ same_tokens l l'.
Proof.
  intros Hl Ht Hc Hr Hs Hdot Hf. unfold lexTokenInteger.
  destruct (lexReadInteger_literal fuel l s ds c cs stop Hl Ht Hc Hr Hs Hf)
    as (l' & E & Hr' & Ht').
  rewrite E. cbn [bind].
  rewrite (reads_first _ _ Hr'), (proj2 (Z.eqb_neq _ _) Hdot).
  exists l'. split; [reflexivity | split; assumption].
Qed.

Lemma digits_literal fp :
  digits fp -> decimal fp < 2 ^ 31 -> literal Unsigned fp.
Proof. intros [Hne Hd] Hb. split; [exact Hd | ]. split; [auto | exact Hb]. Qed.

Lemma power_of_fraction cs :
  (List.length cs <= 9)%nat ->
  power_value 1 cs = 10 ^ Z.of_nat (List.length cs).
Proof.
  intros H.
  assert (Hb : 10 ^ Z.of_nat (List.length cs) <= 10 ^ 9)
    by (apply Z.pow_le_mono_r; lia).
  rewrite power_value_small; lia.
Qed.

Hypothesis dot_not_numeric : isNumeric DOT = false.

(** [lexTokenFloat] on the fraction digits, the first of which is the
    current character. *)
Lemma lexTokenFloat_fraction fuel l token integer fp c cs stop :
  digits fp -> decimal fp < 2 ^ 31 -> (List.length fp <= 10)%nat ->
  fp = c :: cs ->
  m_currChar l = c ->
  reads l (cs ++ stop) ->
  isNumeric (first_of stop) = false ->
  (List.length cs < fuel)%nat ->
  exists l',
    reads l' stop /\ same_tokens l l' /\
    lexTokenFloat fuel l token integer =
      let fraction :=
        fdiv (float_of_int (decimal fp))
          (float_of_int (10 ^ (Z.of_nat (List.length fp) - 1))) in
      let value :=
        if 0 <=? integer
        then fadd (float_of_int integer) fraction
        else fsub (float_of_int integer) fraction in
      if toLower (first_of stop) =? LOWER_E then
        let (_, l) := nextChar l' in
        let (_, l) := nextChar l in
        lexTokenFloatExponent fuel l token value
      else Ok (PT_FLOAT, set_attribute token (asFloat value), l').
Proof.
  intros Hd Hb Hlen Hfp Hc Hr Hs Hf. unfold lexTokenFloat.
  destruct (lexReadInteger_power_literal digit_numeric ctoi_digit
              fuel l Unsigned fp c cs stop (digits_literal fp Hd Hb)
              Hfp Hc Hr Hs Hf) as (l' & E & Hr' & Ht').
  rewrite E. cbn [bind]. exists l'.
  split; [exact Hr' | ]. split; [exact Ht' | ].
  rewrite (reads_first _ _ Hr').
  rewrite power_of_fraction by (subst fp; simpl in Hlen; lia).
  replace (Z.of_nat (List.length fp) - 1) with (Z.of_nat (List.length cs))
    by (subst fp; cbn [List.length]; lia).
  change (sign_factor Unsigned * decimal fp) with (1 * decimal fp).
  rewrite Z.mul_1_l. reflexivity.
Qed.

(** [lexTokenInteger] on an integer part followed by a decimal point and
    fraction digits. *)
Lemma lexTokenInteger_point fuel l token s ip c cs fp stop :
  literal s ip ->
  sign_text s ++ ip = c :: cs ->
  digits fp -> decimal fp < 2 ^ 31 -> (List.length fp <= 10)%nat ->
  m_currChar l = c ->
  reads l (cs ++ DOT :: fp ++ stop) ->
  isNumeric (first_of stop) = false ->
  (List.length (cs ++ DOT :: fp) < fuel)%nat ->
  exists l',
    reads l' stop /\ same_tokens l l' /\
    lexTokenInteger fuel l token =
      if toLower (first_of stop) =? LOWER_E then
        let (_, l) := nextChar l' in
        let (_, l) := nextChar l in
        lexTokenFloatExponent fuel l token (float_literal s ip fp)
      else Ok (PT_FLOAT,
               set_attribute token (asFloat (float_literal s ip fp)), l').
Proof.
  intros Hl Ht Hd Hb Hlen Hc Hr Hs Hf.
  rewrite length_app in Hf. cbn [List.length] in Hf.
  unfold lexTokenInteger.
  destruct (lexReadInteger_literal fuel l s ip c cs (DOT :: fp ++ stop)
              Hl Ht Hc Hr dot_not_numeric) as (l1 & E & Hr1 & Ht1); [lia | ].
  rewrite E. cbn [bind].
  rewrite (reads_first _ _ Hr1). cbn [first_of]. rewrite Z.eqb_refl.
  destruct (nextChar_reads l1 DOT _ Hr1) as (l2 & E2 & _ & Hr2 & Ht2).
  rewrite E2.
  destruct Hd as [Hne Hds].
  destruct fp as [ | f fp']; [congruence | ]. cbn [app] in Hr2.
  destruct (nextChar_reads l2 f _ Hr2) as (l3 & E3 & Hc3 & Hr3 & Ht3).
  rewrite E3.
  destruct (lexTokenFloat_fraction fuel l3 token
              (sign_factor s * decimal ip) (f :: fp') f fp' stop
              (conj Hne Hds) Hb Hlen eq_refl Hc3 Hr3 Hs)
    as (l' & Hr' & Ht' & E'); [cbn [List.length] in Hf; lia | ].
  exists l'. split; [exact Hr' | ].
  split; [eauto using same_tokens_trans | ].
  rewrite E'. reflexivity.
Qed.

End Numbers.

End LiteralTokens.

Section LineEnd.
Context {ext : Externals}.

Lemma nextLine_loop_eof : forall cs c,
  Forall in_line (c :: cs) ->
  nextLine_loop cs c = (EndOfFile, []).
Proof.
  induction cs as [ | x cs IH]; intros c Hl;
    inversion Hl as [ | c' l' Hc Hl']; subst; destruct Hc as [Hc _];
    cbn [nextLine_loop]; rewrite (proj2 (Z.eqb_neq c NEWLINE) Hc).
  - reflexivity.
  - inversion Hl' as [ | x' l'' Hx _]; subst. destruct Hx as [_ Hx].
    rewrite (proj2 (Z.eqb_neq x EndOfFile) Hx). apply IH. exact Hl'.
Qed.

(** On a last line without newline [nextLine] exhausts the reader. *)
Lemma nextLine_reads_eof l cs :
  reads l cs -> Forall in_line cs -> reads (nextLine l) [].
Proof.
  intros Hr Hl. unfold nextLine.
  assert (E : nextLine_loop (m_reader l) (m_peekChar l) = (EndOfFile, [])).
  { destruct cs as [ | c cs]; cbn [reads] in Hr; destruct Hr as [-> ->].
    - cbn [nextLine_loop]. destruct (EndOfFile =? NEWLINE); reflexivity.
    - apply nextLine_loop_eof. exact Hl. }
  rewrite E. simpl. split; reflexivity.
Qed.

End LineEnd.

Section LexemeSteps.

Context {ext : Externals}.

Lemma nextToken_lexes fuel l k token' l' cs :
  skipsLine (m_token (peekToken l)) = false ->
  lexToken_loop fuel (swapTokens l) (m_currToken l) = Ok (k, token', l') ->
  reads l' cs ->
  same_tokens (swapTokens l) l' ->
  exists l1,
    nextToken fuel l = Ok l1 /\
    m_token (peekToken l1) = k /\
    m_lexicon (peekToken l1) = m_lexicon token' /\
    m_attribute (peekToken l1) = m_attribute token' /\
    reads l1 cs /\
    currToken l1 = peekToken l.
Proof.
  intros Hs E Hr [Hc _].
  rewrite (nextToken_of_loop fuel l k token' l' Hs E).
  eexists. split; [reflexivity | ].
  split; [reflexivity | ]. split; [reflexivity | ]. split; [reflexivity | ].
  split; [apply reads_set_peekToken; exact Hr | exact Hc].
Qed.

(** [nextToken] on an integer literal whose first character is [c]. *)
Lemma nextToken_literal fuel l ws s ds c cs stop :
  (EndOfFile < 0 \/ 255 < EndOfFile) ->
  (forall c, isDigit c = true -> isNumeric c = true /\ ctoi c = c - 48) ->
  sign_text s ++ ds = c :: cs ->
  ordinary c ->
  isNumeric c = true ->
  skipsLine (m_token (peekToken l)) = false ->
  blanks ws ->
  literal s ds ->
  isNumeric (first_of stop) = false ->
  first_of stop <> DOT ->
  reads l (ws ++ c :: cs ++ stop) ->
  (List.length (ws ++ c :: cs) < fuel)%nat ->
  exists l1,
    nextToken fuel l = Ok l1 /\
    m_token (peekToken l1) = PT_INTEGER /\
    m_attribute (peekToken l1) = asInteger (sign_factor s * decimal ds) /\
    reads l1 stop /\
    currToken l1 = peekToken l.
Proof.
  intros Heof Hdigit Ht Hc Hn Hskip Hb Hl Hs Hdot Hr Hf.
  assert (Hd1 : forall c, isDigit c = true -> isNumeric c = true)
    by (intros c' H; apply (Hdigit c' H)).
  assert (Hd2 : forall c, isDigit c = true -> ctoi c = c - 48)
    by (intros c' H; apply (Hdigit c' H)).
  rewrite length_app in Hf. cbn [List.length] in Hf.
  destruct (lexToken_loop_start Heof fuel (swapTokens l) (m_currToken l)
              ws c (cs ++ stop) Hb Hc (reads_swapTokens _ _ Hr))
    as (l1 & Hc1 & Hr1 & Ht1 & E1); [lia | ].
  cbv zeta in E1. rewrite Hn in E1.
  destruct (lexTokenInteger_literal Hd1 Hd2
              (fuel - List.length ws - 1) l1 (m_currToken l) s ds c cs stop
              Hl Ht Hc1 Hr1 Hs Hdot) as (l' & E' & Hr' & Ht'); [lia | ].
  rewrite E' in E1.
  destruct (nextToken_lexes fuel l _ _ l' stop Hskip E1 Hr')
    as (l2 & En & Hk & _ & Hx & Hr2 & Hcur);
    [eapply same_tokens_trans; eassumption | ].
  exists l2. split; [exact En | ]. split; [exact Hk | ].
  split; [exact Hx | ]. split; assumption.
Qed.

(** The tokenization loop on a float literal, up to the test for an
    exponent. *)
Lemma lexToken_loop_point fuel l token ws s ip fp stop :
  (EndOfFile < 0 \/ 255 < EndOfFile) ->
  (forall c, isDigit c = true -> isNumeric c = true /\ ctoi c = c - 48) ->
  isNumeric MINUS = true ->
  isNumeric PLUS = true ->
  isNumeric DOT = false ->
  blanks ws ->
  literal s ip ->
  digits fp -> decimal fp < 2 ^ 31 -> (List.length fp <= 10)%nat ->
  isNumeric (first_of stop) = false ->
  reads l (ws ++ sign_text s ++ ip ++ DOT :: fp ++ stop) ->
  (List.length (ws ++ sign_text s ++ ip ++ DOT :: fp) < fuel)%nat ->
  exists l',
    reads l' stop /\ same_tokens l l' /\
    lexToken_loop fuel l token =
      let fuel := (fuel - List.length ws - 1)%nat in
      if toLower (first_of stop) =? LOWER_E then
        let (_, l) := nextChar l' in
        let (_, l) := nextChar l in
        lexTokenFloatExponent fuel l token (float_literal s ip fp)
      else Ok (PT_FLOAT,
               set_attribute token (asFloat (float_literal s ip fp)), l').
Proof.
  intros Heof Hdigit Hminus Hplus Hpoint Hb Hl Hfp Hfb Hlen Hs Hr Hf.
  assert (Hd1 : forall c, isDigit c = true -> isNumeric c = true)
    by (intros c H; apply (Hdigit c H)).
  assert (Hd2 : forall c, isDigit c = true -> ctoi c = c - 48)
    by (intros c H; apply (Hdigit c H)).
  destruct (literal_first Hd1 Hminus Hplus s ip Hl)
    as (c & cs & Ht & Hc & Hn).
  rewrite (app_assoc (sign_text s)), Ht in Hr.
  rewrite (app_assoc (sign_text s)), Ht in Hf.
  rewrite length_app in Hf. cbn [app] in Hr, Hf. cbn [List.length] in Hf.
  destruct (lexToken_loop_start Heof fuel l token
              ws c (cs ++ DOT :: fp ++ stop) Hb Hc Hr)
    as (l1 & Hc1 & Hr1 & Ht1 & E1); [lia | ].
  cbv zeta in E1. rewrite Hn in E1.
  destruct (lexTokenInteger_point Hd1 Hd2 Hpoint
              (fuel - List.length ws - 1) l1 token s ip c cs fp stop
              Hl Ht Hfp Hfb Hlen Hc1 Hr1 Hs) as (l' & Hr' & Ht' & E');
    [lia | ].
  exists l'. split; [exact Hr' | ].
  split; [eapply same_tokens_trans; eassumption | ].
  cbv zeta. rewrite E1. exact E'.
Qed.

Lemma nextToken_newline fuel l rest :
  (EndOfFile < 0 \/ 255 < EndOfFile) ->
  skipsLine (m_token (peekToken l)) = false ->
  reads l (NEWLINE :: rest) ->
  exists l1,
    nextToken (S fuel) l = Ok l1 /\
    m_token (peekToken l1) = PT_ENDSTATEMENT /\
    reads l1 rest /\
    currToken l1 = peekToken l.
Proof.
  intros Heof Hskip Hr.
  destruct (nextChar_reads (swapTokens l) NEWLINE rest
              (reads_swapTokens _ _ Hr)) as (l1 & E & _ & Hr1 & Ht1).
  assert (El : lexToken_loop (S fuel) (swapTokens l) (m_currToken l) =
               Ok (PT_ENDSTATEMENT, m_currToken l, l1)).
  { cbn [lexToken_loop]. rewrite E.
    rewrite (char_not_eof Heof NEWLINE) by (unfold NEWLINE; lia).
    reflexivity. }
  destruct (nextToken_lexes (S fuel) l _ _ l1 rest Hskip El Hr1 Ht1)
    as (l2 & En & Hk & _ & _ & Hr2 & Hcur).
  exists l2. auto.
Qed.

End LexemeSteps.

Lemma wrap64_negative n : 0 < n <= 2 ^ 64 -> wrap64 (- n) = 2 ^ 64 - n.
Proof.
  intros H. unfold wrap64. symmetry.
  apply (Z.mod_unique (- n) (2 ^ 64) (-1)); lia.
Qed.

(** ** The position counters *)

Lemma ensures_both {A : Type} (E E' : FatalError -> Prop)
  (P Q : A -> Prop) (r : Res A) :
  ensures E P r -> ensures E' Q r ->
  ensures (fun e => E e /\ E' e) (fun a => P a /\ Q a) r.
Proof.
  destruct r as [a | e | ]; simpl; auto.
Qed.

Lemma line_of_snoc pre c :
  line_of (pre ++ [c]) =
  if c =? NEWLINE then line_of pre + 1 else line_of pre.
Proof.
  unfold line_of. rewrite count_occ_app. cbn [count_occ].
  destruct (Z.eq_dec c NEWLINE) as [-> | Hc].
  - rewrite Z.eqb_refl. lia.
  - rewrite (proj2 (Z.eqb_neq _ _) Hc). lia.
Qed.

Lemma column_of_snoc pre c :
  column_of (pre ++ [c]) =
  if c =? NEWLINE then 0 else column_of pre + 1.
Proof.
  unfold column_of, last_line. rewrite fold_left_app. cbn [fold_left].
  destruct (c =? NEWLINE); [reflexivity | ].
  rewrite length_app. cbn [List.length]. lia.
Qed.

Lemma line_of_bounds pre :
  1 <= line_of pre <= 1 + Z.of_nat (List.length pre).
Proof.
  unfold line_of. pose proof (count_occ_bound Z.eq_dec NEWLINE pre). lia.
Qed.

Lemma last_line_length : forall pre acc,
  (List.length
     (fold_left (fun acc c => if (c =? NEWLINE)%Z then [] else acc ++ [c])
        pre acc)
   <= List.length acc + List.length pre)%nat.
Proof.
  induction pre as [ | c pre IH]; intros acc; cbn [fold_left List.length];
    [lia | ].
  destruct (c =? NEWLINE).
  - pose proof (IH []). cbn [List.length] in *. lia.
  - pose proof (IH (acc ++ [c])) as H. rewrite length_app in H.
    cbn [List.length] in H. lia.
Qed.

Lemma column_of_bounds pre :
  0 <= column_of pre <= Z.of_nat (List.length pre).
Proof.
  unfold column_of, last_line.
  pose proof (last_line_length pre []). cbn [List.length] in *. lia.
Qed.

Lemma line_of_line pre cs :
  Forall (fun c => c <> NEWLINE) cs ->
  line_of (pre ++ cs ++ [NEWLINE]) = line_of pre + 1 /\
  column_of (pre ++ cs ++ [NEWLINE]) = 0.
Proof.
  intros H. rewrite app_assoc. rewrite line_of_snoc, column_of_snoc.
  rewrite Z.eqb_refl. split; [ | reflexivity].
  unfold line_of. rewrite count_occ_app.
  rewrite (proj1 (count_occ_not_In Z.eq_dec cs NEWLINE)); [lia | ].
  intros Hin. rewrite Forall_forall in H. apply (H _ Hin). reflexivity.
Qed.

Section Position.

Context {ext : Externals}.

Variable reader : list Z.

Hypothesis no_eof : Forall (fun c => c <> EndOfFile) reader.
Hypothesis small : Z.of_nat (List.length reader) < 2 ^ 31 - 1.

Lemma nextChar_counters l c cs :
  reads l (c :: cs) ->
  m_currLineCount (snd (nextChar l)) =
    (if c =? NEWLINE then wrap32 (m_currLineCount l + 1)
     else m_currLineCount l) /\
  m_currCharCount (snd (nextChar l)) =
    (if c =? NEWLINE then 0 else wrap32 (m_currCharCount l + 1)).
Proof.
  intros [Hp Hr]. unfold nextChar. rewrite Hp.
  destruct (next (m_reader l)) as [pk rd].
  destruct (c =? NEWLINE); split; reflexivity.
Qed.

Lemma nextLine_counters l :
  m_currLineCount (nextLine l) = wrap32 (m_currLineCount l + 1) /\
  m_currCharCount (nextLine l) = 0.
Proof.
  unfold nextLine.
  destruct (nextLine_loop (m_reader l) (m_peekChar l)) as [c rd].
  destruct (next rd) as [pk rd']. split; reflexivity.
Qed.

Lemma located_tokens l l' :
  m_reader l' = m_reader l -> m_peekChar l' = m_peekChar l ->
  m_currLineCount l' = m_currLineCount l ->
  m_currCharCount l' = m_currCharCount l ->
  located reader l -> located reader l'.
Proof.
  intros H1 H2 H3 H4 (pre & post & Heq & Hr & Hpos).
  exists pre, post. split; [exact Heq | ].
  split; [destruct post; unfold reads in *; rewrite H1, H2; exact Hr | ].
  rewrite H3, H4. exact Hpos.
Qed.

(** What [nextChar] does to a located reader: it stays located, and a
    character it returns stands at the place the counters then name. *)
Lemma nextChar_located l :
  located reader l ->
  located reader (snd (nextChar l)) /\
  m_currChar (snd (nextChar l)) = fst (nextChar l) /\
  (fst (nextChar l) <> EndOfFile ->
   fst (nextChar l) <> NEWLINE ->
   exists pre post,
     reader = pre ++ fst (nextChar l) :: post /\
     m_currLineCount (snd (nextChar l)) = line_of pre /\
     m_currCharCount (snd (nextChar l)) = column_of pre + 1).
Proof.
  intros (pre & post & Heq & Hr & Hpos).
  destruct post as [ | c post].
  - destruct (nextChar_reads_nil l Hr) as (l1 & E & Hr1 & _).
    rewrite E. cbn [fst snd].
    split.
    { exists pre, []. split; [exact Heq | ]. split; [exact Hr1 | ].
      intros H; congruence. }
    split; [ | congruence].
    unfold nextChar in E. destruct Hr as [Hp _]. rewrite Hp in E.
    destruct (next (m_reader l)); destruct (EndOfFile =? NEWLINE);
      inversion E; reflexivity.
  - destruct (nextChar_counters l c post Hr) as [Hline Hcol].
    destruct (nextChar_reads l c post Hr) as (l1 & E & Hc1 & Hr1 & _).
    rewrite E in *. cbn [fst snd] in *.
    destruct Hpos as [Hl Hc]; [discriminate | ].
    pose proof (line_of_bounds pre) as Hb1.
    pose proof (column_of_bounds pre) as Hb2.
    assert (Hlen : Z.of_nat (List.length pre) < Z.of_nat (List.length reader)).
    { rewrite Heq, length_app. cbn [List.length]. lia. }
    rewrite Hl in Hline. rewrite Hc in Hcol.
    rewrite wrap32_small in Hline by lia.
    rewrite wrap32_small in Hcol by lia.
    split; [ | split; [exact Hc1 | ]].
    + exists (pre ++ [c]), post.
      split; [rewrite <- app_assoc; exact Heq | ].
      split; [exact Hr1 | ]. intros _.
      rewrite line_of_snoc, column_of_snoc, Hline, Hcol.
      destruct (c =? NEWLINE); split; reflexivity.
    + intros _ Hnl. exists pre, post. split; [exact Heq | ].
      rewrite Hline, Hcol, (proj2 (Z.eqb_neq _ _) Hnl).
      split; reflexivity.
Qed.

Lemma split_line : forall post,
  Forall (fun c => c <> EndOfFile) post ->
  (exists cs rest, post = cs ++ NEWLINE :: rest /\ Forall in_line cs) \/
  Forall in_line post.
Proof.
  induction post as [ | c post IH]; intros H; [right; constructor | ].
  inversion H as [ | c' post' Hc Hpost]; subst.
  destruct (Z.eq_dec c NEWLINE) as [-> | Hn].
  - left. exists [], post. split; [reflexivity | constructor].
  - destruct (IH Hpost) as [(cs & rest & -> & Hcs) | Hall].
    + left. exists (c :: cs), rest. split; [reflexivity | ].
      constructor; [split; assumption | exact Hcs].
    + right. constructor; [split; assumption | exact Hall].
Qed.

Lemma nextLine_located l :
  located reader l -> located reader (nextLine l).
Proof.
  intros (pre & post & Heq & Hr & Hpos).
  assert (Hpost : Forall (fun c => c <> EndOfFile) post).
  { rewrite Heq in no_eof. apply Forall_app in no_eof. apply no_eof. }
  destruct (split_line post Hpost) as [(cs & rest & -> & Hcs) | Hall].
  - exists (pre ++ cs ++ [NEWLINE]), rest.
    split; [rewrite <- !app_assoc; exact Heq | ].
    split; [eapply nextLine_reads; eassumption | ]. intros _.
    destruct (nextLine_counters l) as [-> ->].
    destruct Hpos as [Hl _]; [destruct cs; discriminate | ].
    assert (Hnl : Forall (fun c => c <> NEWLINE) cs).
    { eapply Forall_impl; [ | exact Hcs]. intros c [H _]. exact H. }
    destruct (line_of_line pre cs Hnl) as [-> ->].
    pose proof (line_of_bounds pre) as Hb1.
    assert (Hlen : Z.of_nat (List.length pre) < Z.of_nat (List.length reader)).
    { rewrite Heq, !length_app. cbn [List.length]. lia. }
    rewrite Hl, wrap32_small by lia. split; reflexivity.
  - exists reader, []. split; [rewrite app_nil_r; reflexivity | ].
    split; [eapply nextLine_reads_eof; eassumption | congruence].
Qed.

Lemma lexReadInteger_loop_located fuel : forall pow integer l,
  located reader l ->
  ensures never (fun r => located reader (snd r))
    (lexReadInteger_loop fuel pow integer l).
Proof.
  induction fuel as [ | fuel IH]; intros pow integer l Hl; simpl; [exact I | ].
  destruct (isNumeric (m_peekChar l)); [ | exact Hl].
  pose proof (nextChar_located l Hl) as [Hn _].
  destruct (nextChar l) as [c l1]. apply IH. exact Hn.
Qed.

Lemma lexReadInteger_power_located fuel l :
  located reader l ->
  ensures never (fun r => located reader (snd r))
    (lexReadInteger_power fuel l).
Proof.
  intros Hl. unfold lexReadInteger_power.
  eapply ensures_bind; [apply lexReadInteger_loop_located; exact Hl | ].
  intros [[pw i] l1] H. exact H.
Qed.

Lemma lexReadInteger_located fuel l :
  located reader l ->
  ensures never (fun r => located reader (snd r)) (lexReadInteger fuel l).
Proof.
  intros Hl. unfold lexReadInteger.
  eapply ensures_bind; [apply lexReadInteger_power_located; exact Hl | ].
  intros [[pw i] l1] H. exact H.
Qed.

Lemma lexTokenFloat_located fuel l token integer :
  located reader l ->
  ensures never (fun r => located reader (snd r))
    (lexTokenFloat fuel l token integer).
Proof.
  intros Hl. unfold lexTokenFloat.
  eapply ensures_bind; [apply lexReadInteger_power_located; exact Hl | ].
  intros [[pw fr] l1] H1. cbn [snd] in H1.
  destruct (toLower (m_peekChar l1) =? LOWER_E); [ | exact H1].
  pose proof (nextChar_located l1 H1) as [H2 _].
  destruct (nextChar l1) as [c1 l2]. cbn [snd] in H2.
  pose proof (nextChar_located l2 H2) as [H3 _].
  destruct (nextChar l2) as [c2 l3]. cbn [snd] in H3.
  unfold lexTokenFloatExponent.
  eapply ensures_bind; [apply lexReadInteger_located; exact H3 | ].
  intros [pw' l4] H4. exact H4.
Qed.

Lemma lexTokenInteger_located fuel l token :
  located reader l ->
  ensures never (fun r => located reader (snd r))
    (lexTokenInteger fuel l token).
Proof.
  intros Hl. unfold lexTokenInteger.
  eapply ensures_bind; [apply lexReadInteger_located; exact Hl | ].
  intros [i l1] H1. cbn [snd] in H1.
  destruct (m_peekChar l1 =? DOT); [ | exact H1].
  pose proof (nextChar_located l1 H1) as [H2 _].
  destruct (nextChar l1) as [c1 l2]. cbn [snd] in H2.
  pose proof (nextChar_located l2 H2) as [H3 _].
  destruct (nextChar l2) as [c2 l3]. cbn [snd] in H3.
  apply lexTokenFloat_located. exact H3.
Qed.

Lemma lexTokenIdentifier_loop_located fuel : forall l token,
  located reader l ->
  ensures never (fun r => located reader (snd r))
    (lexTokenIdentifier_loop fuel l token).
Proof.
  induction fuel as [ | fuel IH]; intros l token Hl; simpl; [exact I | ].
  destruct (isAlpha (m_peekChar l)); [ | exact Hl].
  pose proof (nextChar_located l Hl) as [Hn _].
  destruct (nextChar l) as [c l1]. apply IH. exact Hn.
Qed.

Lemma never_any {A : Type} (E : FatalError -> Prop) (P : A -> Prop) r :
  ensures never P r -> ensures E P r.
Proof.
  intros H. eapply ensures_weaken; [exact H | intros e [] | auto].
Qed.

Lemma lexToken_loop_located fuel : forall l token,
  located reader l ->
  ensures (at_position reader) (fun r => located reader (snd r))
    (lexToken_loop fuel l token).
Proof.
  induction fuel as [ | fuel IH]; intros l token Hl; cbn [lexToken_loop];
    [exact I | ].
  pose proof (nextChar_located l Hl) as (Hn & Hc & Hpos).
  destruct (nextChar l) as [c l1]. cbn [fst snd] in *.
  destruct (c =? EndOfFile) eqn:E1; [exact Hn | ].
  destruct (isWhitespace c) eqn:E2; [apply IH; exact Hn | ].
  destruct (c =? NEWLINE) eqn:E3; [exact Hn | ].
  destruct (c =? HASH) eqn:E4; [apply nextLine_located; exact Hn | ].
  destruct (c =? SLASH) eqn:E5; [exact Hn | ].
  rewrite Hc.
  destruct (isNumeric c) eqn:E6;
    [apply never_any, lexTokenInteger_located; exact Hn | ].
  destruct (isAlpha c) eqn:E7;
    [apply never_any, lexTokenIdentifier_loop_located; exact Hn | ].
  cbn [ensures].
  apply Z.eqb_neq in E1, E3, E4, E5.
  destruct (Hpos E1 E3) as (pre & post & Heq & -> & ->).
  exists pre, c, post. split; [exact Heq | ]. split; [reflexivity | ].
  repeat split; assumption.
Qed.

Lemma lexToken_located fuel l token :
  located reader l ->
  ensures (at_position reader) (fun r => located reader (snd r))
    (lexToken fuel l token).
Proof.
  intros Hl. unfold lexToken.
  destruct (skipsLine (m_token (m_currToken l)));
    apply lexToken_loop_located; [apply nextLine_located | ]; exact Hl.
Qed.

Lemma nextToken_located fuel l :
  located reader l ->
  ensures (at_position reader) (located reader) (nextToken fuel l).
Proof.
  intros Hl. unfold nextToken.
  eapply ensures_bind.
  - apply lexToken_located.
    eapply located_tokens; [ | | | | exact Hl]; reflexivity.
  - intros [[k token] l1] H1. cbn [snd ensures] in *.
    eapply located_tokens; [ | | | | exact H1]; reflexivity.
Qed.

End Position.

(** ** Invariants of the lexer under the statement rules *)

Section Lifting.

Context {ext : Externals}.

Variable E : FatalError -> Prop.
Variable J : Lexer -> Prop.

Hypothesis nextToken_keeps :
  forall fuel l, J l -> ensures E J (nextToken fuel l).
Hypothesis J_peek_ok : forall l, J l -> peek_ok l.

Lemma parseFloat_keeps fuel l f :
  J l -> ensures E (fun r => J (snd r)) (parseFloat fuel l f).
Proof.
  intros H. unfold parseFloat.
  destruct (m_token (peekToken l)); try exact H;
    (eapply ensures_bind; [apply nextToken_keeps; exact H | ]);
    intros l1 H1; exact H1.
Qed.

Lemma parseInteger_keeps fuel l i :
  J l -> ensures E (fun r => J (snd r)) (parseInteger fuel l i).
Proof.
  intros H. unfold parseInteger.
  destruct (m_token (peekToken l)); try exact H.
  eapply ensures_bind; [apply nextToken_keeps; exact H | ].
  intros l1 H1; exact H1.
Qed.

Lemma checkToken_keeps fuel l t :
  J l -> ensures E (fun r => J (snd r)) (checkToken fuel l t).
Proof.
  intros H. unfold checkToken.
  destruct (ParseToken_eqb (m_token (peekToken l)) t); [ | exact H].
  eapply ensures_bind; [apply nextToken_keeps; exact H | ].
  intros l1 H1; exact H1.
Qed.

Lemma expectToken_keeps fuel l t :
  J l ->
  ensures (fun e => E e \/ exists k, e = TokenMismatch t k) J
    (expectToken fuel l t).
Proof.
  intros H. unfold expectToken.
  eapply ensures_bind.
  - eapply ensures_weaken;
      [apply nextToken_keeps; exact H | intros e He; left; exact He
      | intros a Ha; exact Ha].
  - intros l1 H1. cbn beta.
    destruct (ParseToken_eqb (m_token (currToken l1)) t); [exact H1 | ].
    right. eexists. reflexivity.
Qed.

Lemma parseFloat_at_keeps fuel i p :
  J (lexer p) ->
  ensures E (fun r => J (lexer (snd r))) (parseFloat_at fuel i p).
Proof.
  intros H. unfold parseFloat_at.
  eapply ensures_bind; [apply parseFloat_keeps; exact H | ].
  intros [[b f] l] H1. exact H1.
Qed.

Ltac keep_fields :=
  repeat (eapply ensures_bind;
          [apply parseFloat_at_keeps; eassumption | ];
          intros [? ?] ?; cbn [snd] in * ).

Lemma parseVertex_keeps fuel p :
  J (lexer p) -> ensures E (fun p' => J (lexer p')) (parseVertex fuel p).
Proof.
  intros H. unfold parseVertex.
  assert (H0 : J (lexer (incr_vertexCount p))) by exact H.
  keep_fields. cbn [ensures]. destruct b2; assumption.
Qed.

Lemma parseTexture_keeps fuel p :
  J (lexer p) -> ensures E (fun p' => J (lexer p')) (parseTexture fuel p).
Proof.
  intros H. unfold parseTexture.
  assert (H0 : J (lexer (incr_textureCount p))) by exact H.
  keep_fields. cbn [ensures]. destruct b1; assumption.
Qed.

Lemma parseNormal_keeps fuel p :
  J (lexer p) -> ensures E (fun p' => J (lexer p')) (parseNormal fuel p).
Proof.
  intros H. unfold parseNormal.
  assert (H0 : J (lexer (incr_normalCount p))) by exact H.
  keep_fields. cbn [ensures]. assumption.
Qed.

Lemma parseParameter_keeps fuel p :
  J (lexer p) -> ensures E (fun p' => J (lexer p')) (parseParameter fuel p).
Proof.
  intros H. unfold parseParameter.
  assert (H0 : J (lexer (incr_parameterCount p))) by exact H.
  eapply ensures_bind; [apply parseFloat_at_keeps; eassumption | ].
  intros [b0 p0] H1. cbn [snd] in H1.
  eapply ensures_bind; [apply parseFloat_at_keeps; eassumption | ].
  intros [b1 p1] H2. cbn [snd] in H2.
  eapply ensures_bind with (P := fun p' => J (lexer p')).
  - destruct b1; [ | exact H2].
    eapply ensures_bind; [apply parseFloat_at_keeps; eassumption | ].
    intros [b2 p2] H3. cbn [snd] in H3. destruct b2; exact H3.
  - intros p3 H3. exact H3.
Qed.

Lemma parseFaceIndices_keeps fuel l indices :
  J l -> ensures E (fun r => J (snd r)) (parseFaceIndices fuel l indices).
Proof.
  intros H. unfold parseFaceIndices. destruct indices as [[i0 i1] i2].
  eapply ensures_bind; [apply parseInteger_keeps; exact H | ].
  intros [[b j0] l1] H1. cbn [snd] in H1.
  destruct b; cbn [negb]; [ | exact H1].
  eapply ensures_bind; [apply checkToken_keeps; exact H1 | ].
  intros [sep l2] H2. cbn [snd] in H2.
  eapply ensures_bind with (P := fun r => J (snd r)).
  { destruct sep; [ | exact H2].
    eapply ensures_bind; [apply parseInteger_keeps; exact H2 | ].
    intros [[b j1] l3] H3. exact H3. }
  intros [j1 l3] H3. cbn [snd] in H3.
  eapply ensures_bind; [apply checkToken_keeps; exact H3 | ].
  intros [sep' l4] H4. cbn [snd] in H4.
  eapply ensures_bind with (P := fun r => J (snd r)).
  { destruct sep'; [ | exact H4].
    eapply ensures_bind; [apply parseInteger_keeps; exact H4 | ].
    intros [[b j2] l5] H5. exact H5. }
  intros [j2 l5] H5. exact H5.
Qed.

Lemma parseFace_loop_keeps fuel : forall l v,
  J l -> ensures E (fun r => J (snd r)) (parseFace_loop fuel l v).
Proof.
  induction fuel as [ | fuel IH]; intros l v H; cbn [parseFace_loop];
    [exact I | ].
  eapply ensures_bind; [apply parseFaceIndices_keeps; exact H | ].
  intros [[b ia] l1] H1. cbn [snd] in H1.
  destruct b; [apply IH; exact H1 | exact H1].
Qed.

Lemma parseFace_keeps fuel p :
  J (lexer p) -> ensures E (fun p' => J (lexer p')) (parseFace fuel p).
Proof.
  intros H. unfold parseFace.
  eapply ensures_bind; [apply parseFace_loop_keeps; exact H | ].
  intros [v l] H1. exact H1.
Qed.

Lemma parse_body_keeps fuel p :
  J (lexer p) ->
  ensures E (fun r => J (lexer (snd r))) (parse_body fuel p).
Proof.
  intros H. unfold parse_body.
  pose proof (nextToken_keeps fuel (lexer p) H) as Hn.
  destruct (nextToken fuel (lexer p)) as [l1 | e | ] eqn:En;
    cbn [bind]; [ | exact Hn | exact I].
  cbn [ensures] in Hn.
  destruct (nextToken_Ok _ _ _ En) as [_ Hc].
  pose proof (J_peek_ok _ H) as Hp. unfold peek_ok in Hp.
  unfold currToken. rewrite Hc.
  assert (H1 : J (lexer (set_lexer p l1))) by exact Hn.
  destruct (m_token (m_peekToken (lexer p)));
    try exact Hn; try congruence.
  - eapply ensures_bind; [apply parseVertex_keeps; exact H1 | ].
    intros p' Hp'; exact Hp'.
  - eapply ensures_bind; [apply parseTexture_keeps; exact H1 | ].
    intros p' Hp'; exact Hp'.
  - eapply ensures_bind; [apply parseNormal_keeps; exact H1 | ].
    intros p' Hp'; exact Hp'.
  - eapply ensures_bind; [apply parseParameter_keeps; exact H1 | ].
    intros p' Hp'; exact Hp'.
  - eapply ensures_bind; [apply parseFace_keeps; exact H1 | ].
    intros p' Hp'; exact Hp'.
Qed.

Lemma parse_keeps fuel : forall p,
  J (lexer p) -> ensures E (fun r => J (lexer (snd r))) (parse fuel p).
Proof.
  induction fuel as [ | fuel IH]; intros p H; cbn [parse]; [exact I | ].
  eapply ensures_bind; [apply parse_body_keeps; exact H | ].
  intros [[b | ] p1] H1; cbn [snd] in H1; [exact H1 | apply IH; exact H1].
Qed.

End Lifting.

(** ** Runs of numeric fields *)

Section FieldRuns.

Context {ext : Externals}.

Lemma numeric_fields_run fuel : forall vals l l',
  numeric_fields fuel l vals l' ->
  numeric_run fuel l vals l' /\ numeric (m_token (peekToken l')) = false.
Proof.
  induction vals as [ | v vs IH]; intros l l' H; cbn [numeric_fields] in H.
  - destruct H as [-> Hk]. split; [reflexivity | exact Hk].
  - destruct H as (Hk & Hv & l1 & Hn & H).
    destruct (IH _ _ H) as [Hr Hs].
    split; [ | exact Hs]. cbn [numeric_run]. eauto.
Qed.

End FieldRuns.

(** ** Numeric fields token by token *)

Section FieldTokens.

Context {ext : Externals}.

Hypothesis helpers : numerate ext.

Lemma nextToken_line_end fuel l tl rest :
  skipsLine (m_token (peekToken l)) = false ->
  blanks tl ->
  reads l (tl ++ NEWLINE :: rest) ->
  (List.length tl < fuel)%nat ->
  exists l1,
    nextToken fuel l = Ok l1 /\
    m_token (peekToken l1) = PT_ENDSTATEMENT /\
    reads l1 rest /\
    currToken l1 = peekToken l.
Proof.
  destruct helpers as (Heof & _).
  intros Hskip Hb Hr Hf.
  destruct (lexToken_loop_blanks Heof (m_currToken l) tl fuel
              (swapTokens l) (NEWLINE :: rest) Hb
              (reads_swapTokens _ _ Hr)) as (l0 & E0 & Hr0 & Ht0); [lia | ].
  destruct (nextChar_reads l0 NEWLINE rest Hr0) as (l1 & E & _ & Hr1 & Ht1).
  assert (El : lexToken_loop fuel (swapTokens l) (m_currToken l) =
               Ok (PT_ENDSTATEMENT, m_currToken l, l1)).
  { rewrite E0.
    replace (fuel - List.length tl)%nat
      with (S (fuel - List.length tl - 1)) by lia.
    cbn [lexToken_loop]. rewrite E.
    rewrite (char_not_eof Heof NEWLINE) by (unfold NEWLINE; lia).
    reflexivity. }
  destruct (nextToken_lexes fuel l _ _ l1 rest Hskip El Hr1)
    as (l2 & En & Hk & _ & _ & Hr2 & Hcur);
    [eapply same_tokens_trans; eassumption | ].
  exists l2. auto.
Qed.

Lemma closing_not_dot c :
  isWhitespace c = true \/ c = NEWLINE -> c <> DOT.
Proof.
  unfold isWhitespace, SPACE, TAB, CR, NEWLINE, DOT. lia.
Qed.

(** [nextToken] on a field that whitespace or a newline follows. *)
Lemma nextToken_field fuel l f stop :
  skipsLine (m_token (peekToken l)) = false ->
  field_ok f ->
  isWhitespace (first_of stop) = true \/ first_of stop = NEWLINE ->
  reads l (field_text f ++ stop) ->
  (List.length (field_text f) < fuel)%nat ->
  exists l1,
    nextToken fuel l = Ok l1 /\
    numeric (m_token (peekToken l1)) = true /\
    token_value (peekToken l1) = field_value f /\
    reads l1 stop /\
    currToken l1 = peekToken l.
Proof.
  destruct helpers as (Heof & Hdigit & Hminus & Hplus & Hpoint & Hclose).
  intros Hskip ((_ & Hb) & Hl & Hfr) Hstop Hr Hf.
  destruct (Hclose _ Hstop) as [Hsn Hse].
  assert (Hd1 : forall c, isDigit c = true -> isNumeric c = true)
    by (intros c H; apply (Hdigit c H)).
  unfold field_text in Hr, Hf. unfold field_value.
  destruct (f_fraction f) as [fp | ].
  - destruct Hfr as (Hfp & Hfb & Hlen).
    assert (Hr' : reads l (f_space f ++ sign_text (f_sign f) ++ f_integer f
                             ++ DOT :: fp ++ stop)).
    { rewrite <- !app_assoc in Hr. exact Hr. }
    destruct (lexToken_loop_point fuel (swapTokens l) (m_currToken l)
                (f_space f) (f_sign f) (f_integer f) fp stop
                Heof Hdigit Hminus Hplus Hpoint Hb Hl Hfp Hfb Hlen Hsn
                (reads_swapTokens _ _ Hr') Hf) as (l' & Hrd & Ht & E).
    cbv zeta in E. rewrite (proj2 (Z.eqb_neq _ _) Hse) in E.
    destruct (nextToken_lexes fuel l _ _ l' stop Hskip E Hrd Ht)
      as (l2 & En & Hk & _ & Hx & Hr2 & Hcur).
    exists l2. split; [exact En | ].
    split; [rewrite Hk; reflexivity | ].
    split; [ | split; assumption].
    unfold token_value. rewrite Hk, Hx. reflexivity.
  - rewrite app_nil_r in Hr, Hf.
    destruct (literal_first Hd1 Hminus Hplus _ _ Hl)
      as (c & cs & Ht & Hc & Hn).
    rewrite <- !app_assoc in Hr.
    rewrite (app_assoc (sign_text (f_sign f))), Ht in Hr.
    rewrite Ht in Hf. cbn [app] in Hr.
    destruct (nextToken_literal fuel l (f_space f) (f_sign f) (f_integer f)
                c cs stop Heof Hdigit Ht Hc Hn Hskip Hb Hl Hsn
                (closing_not_dot _ Hstop) Hr Hf)
      as (l2 & En & Hk & Hx & Hr2 & Hcur).
    exists l2. split; [exact En | ].
    split; [rewrite Hk; reflexivity | ].
    split; [ | split; assumption].
    unfold token_value. rewrite Hk, Hx. reflexivity.
Qed.

Lemma numeric_not_skipped k : numeric k = true -> skipsLine k = false.
Proof. destruct k; simpl; congruence. Qed.

Lemma line_end_closing tl rest :
  blanks tl ->
  isWhitespace (first_of (tl ++ NEWLINE :: rest)) = true \/
  first_of (tl ++ NEWLINE :: rest) = NEWLINE.
Proof.
  intros Hb. destruct tl as [ | c tl]; [right; reflexivity | ].
  inversion Hb; subst. left. assumption.
Qed.

Lemma fields_closing fs tl rest :
  Forall field_ok fs ->
  blanks tl ->
  isWhitespace (first_of (fields_text fs ++ tl ++ NEWLINE :: rest)) = true \/
  first_of (fields_text fs ++ tl ++ NEWLINE :: rest) = NEWLINE.
Proof.
  intros Hfs Hb. destruct fs as [ | f fs]; [apply line_end_closing, Hb | ].
  inversion Hfs as [ | f' fs' ((Hne & Hs) & _) _]; subst.
  unfold fields_text. cbn [map List.concat]. unfold field_text.
  destruct (f_space f) as [ | c sp]; [congruence | ].
  inversion Hs; subst. left. assumption.
Qed.

(** The fields of a statement, token by token: the lookahead token is a
    field and the reader stands in front of the fields that follow. *)
Lemma fields_tokens fuel tl rest : forall fs f l,
  numeric (m_token (peekToken l)) = true ->
  token_value (peekToken l) = field_value f ->
  Forall field_ok fs ->
  blanks tl ->
  reads l (fields_text fs ++ tl ++ NEWLINE :: rest) ->
  (List.length (fields_text fs ++ tl) < fuel)%nat ->
  exists l',
    numeric_fields fuel l (map field_value (f :: fs)) l' /\
    reads l' rest.
Proof.
  induction fs as [ | g fs IH]; intros f l Hk Hv Hfs Hb Hr Hf.
  - cbn [fields_text map List.concat app] in Hr, Hf.
    destruct (nextToken_line_end fuel l tl rest
                (numeric_not_skipped _ Hk) Hb Hr Hf)
      as (l1 & En & Hk1 & Hr1 & _).
    exists l1. split; [ | exact Hr1].
    cbn [map numeric_fields]. split; [exact Hk | ]. split; [exact Hv | ].
    exists l1. split; [exact En | ].
    split; [reflexivity | rewrite Hk1; reflexivity].
  - inversion Hfs as [ | g' fs' Hg Hfs']; subst.
    unfold fields_text in Hr, Hf. cbn [map List.concat] in Hr, Hf.
    fold (fields_text fs) in Hr, Hf.
    rewrite <- app_assoc in Hr, Hf. rewrite length_app in Hf.
    destruct (nextToken_field fuel l g
                (fields_text fs ++ tl ++ NEWLINE :: rest)
                (numeric_not_skipped _ Hk) Hg
                (fields_closing fs tl rest Hfs' Hb) Hr)
      as (l1 & En & Hk1 & Hv1 & Hr1 & _); [lia | ].
    destruct (IH g l1 Hk1 Hv1 Hfs' Hb Hr1) as (l' & Hnf & Hr'); [lia | ].
    exists l'. split; [ | exact Hr'].
    cbn [map numeric_fields]. split; [exact Hk | ]. split; [exact Hv | ].
    exists l1. split; [exact En | exact Hnf].
Qed.

(** The turn of the loop of [parse] on a keyword that fields follow: the
    keyword becomes the current token and the fields are what the rule
    will find. *)
Lemma keyword_turn fuel p f fs tl rest :
  skipsLine (m_token (peekToken (lexer p))) = false ->
  Forall field_ok (f :: fs) ->
  blanks tl ->
  reads (lexer p) (fields_text (f :: fs) ++ tl ++ NEWLINE :: rest) ->
  (List.length (fields_text (f :: fs) ++ tl) < fuel)%nat ->
  exists l1 l',
    nextToken fuel (lexer p) = Ok l1 /\
    currToken l1 = peekToken (lexer p) /\
    numeric_fields fuel l1 (map field_value (f :: fs)) l' /\
    reads l' rest.
Proof.
  intros Hskip Hfs Hb Hr Hf.
  inversion Hfs as [ | f' fs' Hfok Hfs']; subst.
  unfold fields_text in Hr, Hf. cbn [map List.concat] in Hr, Hf.
  fold (fields_text fs) in Hr, Hf.
  rewrite <- app_assoc in Hr, Hf. rewrite length_app in Hf.
  destruct (nextToken_field fuel (lexer p) f
              (fields_text fs ++ tl ++ NEWLINE :: rest)
              Hskip Hfok (fields_closing fs tl rest Hfs' Hb) Hr)
    as (l1 & En & Hk1 & Hv1 & Hr1 & Hc1); [lia | ].
  destruct (fields_tokens fuel tl rest fs f l1 Hk1 Hv1 Hfs' Hb Hr1)
    as (l' & Hnf & Hr'); [lia | ].
  exists l1, l'. auto.
Qed.

End FieldTokens.

(** ** The order of the reserved map *)

Lemma strcmp_refl a : strcmp a a = 0.
Proof.
  induction a as [ | x a IH]; [reflexivity | ].
  simpl. rewrite Z.eqb_refl. exact IH.
Qed.

Lemma strcmp_eq : forall a b, strcmp a b = 0 -> a = b.
Proof.
  induction a as [ | x a IH]; intros [ | y b] H; simpl in H;
    try reflexivity; try discriminate.
  destruct (x =? y) eqn:E.
  - apply Z.eqb_eq in E. subst. f_equal. apply IH. exact H.
  - destruct (x <? y); discriminate.
Qed.

Lemma strcmp_flip : forall a b, strcmp a b < 0 <-> 0 < strcmp b a.
Proof.
  induction a as [ | x a IH]; intros [ | y b]; simpl; try lia.
  rewrite (Z.eqb_sym y x).
  destruct (x =? y) eqn:E; [apply IH | ].
  apply Z.eqb_neq in E.
  destruct (x <? y) eqn:E1; destruct (y <? x) eqn:E2; lia.
Qed.

Lemma strcmp_trans : forall a b c,
  strcmp a b < 0 -> strcmp b c < 0 -> strcmp a c < 0.
Proof.
  induction a as [ | x a IH]; intros [ | y b] [ | z c]; simpl; try lia.
  destruct (x =? y) eqn:E1; destruct (y =? z) eqn:E2;
    destruct (x =? z) eqn:E3;
    destruct (x <? y) eqn:L1; destruct (y <? z) eqn:L2;
    destruct (x <? z) eqn:L3; try lia; try apply IH.
Qed.

Lemma ParseCompare_irrefl a : ParseCompare a a = false.
Proof. unfold ParseCompare. rewrite strcmp_refl. reflexivity. Qed.

Lemma ParseCompare_trans a b c :
  ParseCompare a b = true -> ParseCompare b c = true ->
  ParseCompare a c = true.
Proof.
  unfold ParseCompare. intros H1 H2.
  apply Z.ltb_lt in H1, H2. apply Z.ltb_lt.
  eapply strcmp_trans; eassumption.
Qed.

Lemma ParseCompare_asym a b :
  ParseCompare a b = true -> ParseCompare b a = false.
Proof.
  unfold ParseCompare. intros H. apply Z.ltb_lt in H.
  apply strcmp_flip in H. apply Z.ltb_ge. lia.
Qed.

(** Two keys neither of which comes before the other are the same
    characters. *)
Lemma ParseCompare_equiv a b :
  ParseCompare a b = false -> ParseCompare b a = false -> a = b.
Proof.
  unfold ParseCompare. intros H1 H2.
  apply Z.ltb_ge in H1, H2. apply strcmp_eq.
  destruct (Z.eq_dec (strcmp a b) 0) as [E | E]; [exact E | ].
  assert (H : 0 < strcmp a b) by lia.
  apply strcmp_flip in H. lia.
Qed.

Lemma list_Z_eqb_refl a : list_Z_eqb a a = true.
Proof. unfold list_Z_eqb. destruct (list_eq_dec Z.eq_dec a a); congruence. Qed.

Lemma list_Z_eqb_neq a b : a <> b -> list_Z_eqb a b = false.
Proof. unfold list_Z_eqb. destruct (list_eq_dec Z.eq_dec a b); congruence. Qed.

Lemma list_Z_eqb_true a b : list_Z_eqb a b = true -> a = b.
Proof.
  unfold list_Z_eqb. destruct (list_eq_dec Z.eq_dec a b); congruence.
Qed.

Lemma find_absent : forall (m : ParseMap) key,
  Forall (fun e => fst e <> key) m -> find m key = None.
Proof.
  induction m as [ | [k t] m IH]; intros key H; [reflexivity | ].
  inversion H as [ | e m' Hk Hm]; subst. cbn [find].
  rewrite (list_Z_eqb_neq k key Hk). apply IH. exact Hm.
Qed.

(** In an ascending map the ordered search and the linear search find the
    same. *)
Lemma map_find_find : forall (m : ParseMap) key,
  ascending m -> map_find m key = find m key.
Proof.
  induction m as [ | [k t] m IH]; intros key H; [reflexivity | ].
  destruct H as [Hall Hm]. cbn [map_find find fst snd].
  destruct (ParseCompare key k) eqn:E1.
  - rewrite list_Z_eqb_neq
      by (intros ->; rewrite ParseCompare_irrefl in E1; discriminate).
    symmetry. apply find_absent.
    eapply Forall_impl; [ | exact Hall].
    intros e' He' Heq. cbn [fst] in He'. rewrite Heq in He'.
    rewrite (ParseCompare_asym _ _ E1) in He'. discriminate.
  - destruct (ParseCompare k key) eqn:E2.
    + rewrite list_Z_eqb_neq
        by (intros ->; rewrite ParseCompare_irrefl in E2; discriminate).
      apply IH. exact Hm.
    + rewrite (ParseCompare_equiv _ _ E1 E2), list_Z_eqb_refl. reflexivity.
Qed.

Lemma map_insert_keys : forall (m : ParseMap) v (P : list Z * ParseToken -> Prop),
  Forall P m -> P v -> Forall P (map_insert m v).
Proof.
  induction m as [ | e m IH]; intros v P Hm Hv; cbn [map_insert].
  - constructor; [exact Hv | constructor].
  - inversion Hm as [ | e' m' He Hm']; subst.
    destruct (ParseCompare (fst v) (fst e)); [constructor; assumption | ].
    destruct (ParseCompare (fst e) (fst v)); [ | exact Hm].
    constructor; [exact He | apply IH; assumption].
Qed.

Lemma map_insert_ascending : forall (m : ParseMap) v,
  ascending m -> ascending (map_insert m v).
Proof.
  induction m as [ | e m IH]; intros v H; cbn [map_insert].
  - split; [constructor | exact I].
  - pose proof H as [Hall Hm].
    destruct (ParseCompare (fst v) (fst e)) eqn:E1.
    + split; [ | exact H]. constructor; [exact E1 | ].
      eapply Forall_impl; [ | exact Hall].
      intros e' He'. eapply ParseCompare_trans; eassumption.
    + destruct (ParseCompare (fst e) (fst v)) eqn:E2; [ | exact H].
      split; [ | apply IH; exact Hm].
      apply map_insert_keys; assumption.
Qed.

(** The linear search after an insertion: an entry found before is still
    the one found, and the inserted entry is found under its key only if
    the key was not there. *)
Lemma find_map_insert : forall (m : ParseMap) k t key,
  ascending m ->
  find (map_insert m (k, t)) key =
  match find m key with
  | Some t' => Some t'
  | None => if list_Z_eqb k key then Some t else None
  end.
Proof.
  induction m as [ | [k0 t0] m IH]; intros k t key H;
    cbn [map_insert find fst snd]; [reflexivity | ].
  destruct H as [Hall Hm].
  destruct (ParseCompare k k0) eqn:E1.
  - cbn [find].
    destruct (list_Z_eqb k key) eqn:Ek;
      [ | destruct (list_Z_eqb k0 key);
          [reflexivity | destruct (find m key); reflexivity]].
    apply list_Z_eqb_true in Ek. subst key.
    rewrite list_Z_eqb_neq
      by (intros ->; rewrite ParseCompare_irrefl in E1; discriminate).
    rewrite find_absent; [reflexivity | ].
    eapply Forall_impl; [ | exact Hall].
    intros e' He' Heq. cbn [fst] in He'. rewrite Heq in He'.
    rewrite (ParseCompare_asym _ _ E1) in He'. discriminate.
  - destruct (ParseCompare k0 k) eqn:E2.
    + cbn [find]. destruct (list_Z_eqb k0 key); [reflexivity | ].
      apply IH. exact Hm.
    + pose proof (ParseCompare_equiv _ _ E1 E2) as ->.
      cbn [find]. destruct (list_Z_eqb k0 key) eqn:Ek; [reflexivity | ].
      destruct (find m key); reflexivity.
Qed.

Lemma fold_map_insert : forall (kvs m : ParseMap) key,
  ascending m ->
  ascending (fold_left map_insert kvs m) /\
  find (fold_left map_insert kvs m) key =
  match find m key with
  | Some t => Some t
  | None => find kvs key
  end.
Proof.
  induction kvs as [ | [k t] kvs IH]; intros m key H; cbn [fold_left find].
  - split; [exact H | destruct (find m key); reflexivity].
  - destruct (IH (map_insert m (k, t)) key (map_insert_ascending _ _ H))
      as [Ha Hf].
    split; [exact Ha | ]. rewrite Hf, find_map_insert by exact H.
    destruct (find m key); [reflexivity | ].
    destruct (list_Z_eqb k key); reflexivity.
Qed.

(** ** Terminated strings *)

Lemma ParseString_append_terminated s c :
  ParseString_append (s ++ [0]) c = Some ((s ++ [c]) ++ [0]).
Proof.
  unfold ParseString_append, set_back, push_back.
  rewrite removelast_last. destruct s; reflexivity.
Qed.

Lemma ParseString_extend_terminated : forall cs s,
  ParseString_extend (Some (s ++ [0])) cs = Some ((s ++ cs) ++ [0]).
Proof.
  induction cs as [ | c cs IH]; intros s; cbn [ParseString_extend].
  - rewrite app_nil_r. reflexivity.
  - rewrite ParseString_append_terminated, IH.
    rewrite <- (app_assoc s [c] cs). reflexivity.
Qed.

Lemma ParseString_data_terminated : forall s rest,
  ParseString_data (s ++ 0 :: rest) = Some (c_str s).
Proof.
  induction s as [ | c s IH]; intros rest; [reflexivity | ].
  cbn [app ParseString_data c_str].
  destruct (c =? 0); [reflexivity | ]. rewrite IH. reflexivity.
Qed.

Lemma c_str_idem : forall s, c_str (c_str s) = c_str s.
Proof.
  induction s as [ | c s IH]; [reflexivity | ].
  cbn [c_str]. destruct (c =? 0) eqn:E; [reflexivity | ].
  cbn [c_str]. rewrite E, IH. reflexivity.
Qed.

(** ** The end of the input *)

Section Exhaustion.

Context {ext : Externals}.

Lemma next_sound rd :
  Forall (fun c => c <> EndOfFile) rd ->
  Forall (fun c => c <> EndOfFile) (snd (next rd)) /\
  (fst (next rd) = EndOfFile -> snd (next rd) = []).
Proof.
  intros H. destruct rd as [ | c rd]; cbn [next fst snd].
  - split; [constructor | reflexivity].
  - inversion H; subst. split; [assumption | congruence].
Qed.

Lemma nextChar_sound l : sound l -> sound (snd (nextChar l)).
Proof.
  intros [H _]. unfold nextChar.
  pose proof (next_sound _ H) as Hn.
  destruct (next (m_reader l)) as [pk rd].
  destruct (m_peekChar l =? NEWLINE); exact Hn.
Qed.

Lemma nextLine_loop_sound : forall rd c,
  Forall (fun c => c <> EndOfFile) rd ->
  Forall (fun c => c <> EndOfFile) (snd (nextLine_loop rd c)).
Proof.
  induction rd as [ | x rd IH]; intros c H; cbn [nextLine_loop];
    destruct (c =? NEWLINE); try exact H.
  inversion H; subst. destruct (x =? EndOfFile); [assumption | ].
  apply IH. assumption.
Qed.

Lemma nextLine_sound l : sound l -> sound (nextLine l).
Proof.
  intros [H _]. unfold nextLine.
  pose proof (nextLine_loop_sound (m_reader l) (m_peekChar l) H) as H1.
  destruct (nextLine_loop (m_reader l) (m_peekChar l)) as [c rd].
  cbn [snd] in H1. pose proof (next_sound _ H1) as Hn.
  destruct (next rd) as [pk rd']. exact Hn.
Qed.

Lemma lexReadInteger_loop_sound fuel : forall pow integer l,
  sound l ->
  ensures never (fun r => sound (snd r))
    (lexReadInteger_loop fuel pow integer l).
Proof.
  induction fuel as [ | fuel IH]; intros pow integer l Hl; simpl; [exact I | ].
  destruct (isNumeric (m_peekChar l)); [ | exact Hl].
  pose proof (nextChar_sound l Hl) as Hn.
  destruct (nextChar l) as [c l1]. apply IH. exact Hn.
Qed.

Lemma lexReadInteger_power_sound fuel l :
  sound l ->
  ensures never (fun r => sound (snd r)) (lexReadInteger_power fuel l).
Proof.
  intros Hl. unfold lexReadInteger_power.
  eapply ensures_bind; [apply lexReadInteger_loop_sound; exact Hl | ].
  intros [[pw i] l1] H. exact H.
Qed.

Lemma lexReadInteger_sound fuel l :
  sound l ->
  ensures never (fun r => sound (snd r)) (lexReadInteger fuel l).
Proof.
  intros Hl. unfold lexReadInteger.
  eapply ensures_bind; [apply lexReadInteger_power_sound; exact Hl | ].
  intros [[pw i] l1] H. exact H.
Qed.

(** A numeric token is not the end of input. *)
Lemma lexTokenFloat_sound fuel l token integer :
  sound l ->
  ensures never (fun r => sound (snd r) /\ fst (fst r) <> PT_EOF)
    (lexTokenFloat fuel l token integer).
Proof.
  intros Hl. unfold lexTokenFloat.
  eapply ensures_bind; [apply lexReadInteger_power_sound; exact Hl | ].
  intros [[pw fr] l1] H1. cbn [snd] in H1.
  destruct (toLower (m_peekChar l1) =? LOWER_E);
    [ | split; [exact H1 | discriminate]].
  pose proof (nextChar_sound l1 H1) as H2.
  destruct (nextChar l1) as [c1 l2]. cbn [snd] in H2.
  pose proof (nextChar_sound l2 H2) as H3.
  destruct (nextChar l2) as [c2 l3]. cbn [snd] in H3.
  unfold lexTokenFloatExponent.
  eapply ensures_bind; [apply lexReadInteger_sound; exact H3 | ].
  intros [pw' l4] H4. split; [exact H4 | discriminate].
Qed.

Lemma lexTokenInteger_sound fuel l token :
  sound l ->
  ensures never (fun r => sound (snd r) /\ fst (fst r) <> PT_EOF)
    (lexTokenInteger fuel l token).
Proof.
  intros Hl. unfold lexTokenInteger.
  eapply ensures_bind; [apply lexReadInteger_sound; exact Hl | ].
  intros [i l1] H1. cbn [snd] in H1.
  destruct (m_peekChar l1 =? DOT); [ | split; [exact H1 | discriminate]].
  pose proof (nextChar_sound l1 H1) as H2.
  destruct (nextChar l1) as [c1 l2]. cbn [snd] in H2.
  pose proof (nextChar_sound l2 H2) as H3.
  destruct (nextChar l2) as [c2 l3]. cbn [snd] in H3.
  apply lexTokenFloat_sound. exact H3.
Qed.

(** No keyword of the reserved table resolves to [PT_EOF]. *)
Lemma symResolve_not_eof token : symResolve token PT_STRING <> PT_EOF.
Proof.
  unfold symResolve.
  generalize (c_str (m_lexicon token)); intro key.
  unfold sg_reserved; simpl.
  repeat (destruct (list_Z_eqb _ key); [discriminate | ]).
  discriminate.
Qed.

Lemma lexTokenIdentifier_loop_sound fuel : forall l token,
  sound l ->
  ensures never (fun r => sound (snd r) /\ fst (fst r) <> PT_EOF)
    (lexTokenIdentifier_loop fuel l token).
Proof.
  induction fuel as [ | fuel IH]; intros l token Hl; simpl; [exact I | ].
  destruct (isAlpha (m_peekChar l));
    [ | split; [exact Hl | apply symResolve_not_eof]].
  pose proof (nextChar_sound l Hl) as Hn.
  destruct (nextChar l) as [c l1]. apply IH. exact Hn.
Qed.

Lemma sound_reads_nil l : sound l -> m_peekChar l = EndOfFile -> reads l [].
Proof. intros [_ H] Hp. split; [exact Hp | apply H; exact Hp]. Qed.

(** The tokenization loop answers [PT_EOF] only when nothing is left. *)
Lemma lexToken_loop_sound fuel : forall l token,
  sound l ->
  ensures (fun _ => True)
    (fun r => sound (snd r) /\ (fst (fst r) = PT_EOF -> reads (snd r) []))
    (lexToken_loop fuel l token).
Proof.
  induction fuel as [ | fuel IH]; intros l token Hl; cbn [lexToken_loop];
    [exact I | ].
  pose proof (nextChar_sound l Hl) as Hn.
  assert (Hend : m_peekChar l = EndOfFile -> reads (snd (nextChar l)) []).
  { intros Hp. pose proof (sound_reads_nil l Hl Hp) as Hr.
    destruct (nextChar_reads_nil l Hr) as (l1 & E & Hr1 & _).
    rewrite E. exact Hr1. }
  assert (Hc : fst (nextChar l) = m_peekChar l).
  { unfold nextChar. destruct (next (m_reader l)).
    destruct (m_peekChar l =? NEWLINE); reflexivity. }
  destruct (nextChar l) as [c l1]. cbn [fst snd] in *. subst c.
  destruct (m_peekChar l =? EndOfFile) eqn:E1.
  { split; [exact Hn | ]. intros _. apply Hend. apply Z.eqb_eq. exact E1. }
  destruct (isWhitespace (m_peekChar l)); [apply IH; exact Hn | ].
  destruct (m_peekChar l =? NEWLINE); [split; [exact Hn | discriminate] | ].
  destruct (m_peekChar l =? HASH).
  { split; [apply nextLine_sound; exact Hn | discriminate]. }
  destruct (m_peekChar l =? SLASH); [split; [exact Hn | discriminate] | ].
  destruct (isNumeric (m_currChar l1)).
  { eapply ensures_weaken;
      [apply lexTokenInteger_sound; exact Hn | auto | ].
    intros r [H1 H2]. split; [exact H1 | congruence]. }
  destruct (isAlpha (m_currChar l1)); [ | exact I].
  eapply ensures_weaken;
    [apply lexTokenIdentifier_loop_sound; exact Hn | auto | ].
  intros r [H1 H2]. split; [exact H1 | congruence].
Qed.

Lemma nextToken_settled fuel l :
  sound l -> ensures (fun _ => True) settled (nextToken fuel l).
Proof.
  intros Hs. unfold nextToken.
  assert (Hs' : sound (if skipsLine (m_token (m_currToken (swapTokens l)))
                       then nextLine (swapTokens l) else swapTokens l)).
  { destruct (skipsLine _); [apply nextLine_sound | ]; exact Hs. }
  pose proof (ensures_both _ _ _ _ _
                (lexToken_loop_sound fuel _ (m_peekToken (swapTokens l)) Hs')
                (lexToken_lexed fuel (swapTokens l)
                   (m_peekToken (swapTokens l)))) as H.
  unfold lexToken in *.
  destruct (lexToken_loop fuel _ _) as [[[k token] l1] | e | ];
    cbn [bind ensures] in *; [ | exact I | exact I].
  destruct H as [[H1 H2] [H3 _]]. cbn [fst snd] in *.
  split; [exact H1 | ]. split; [exact H3 | ].
  intros Hk. apply reads_set_peekToken. apply H2. exact Hk.
Qed.

Lemma nextToken_exhausted fuel l l1 :
  exhausted l -> nextToken fuel l = Ok l1 ->
  exhausted l1 /\ currToken l1 = peekToken l.
Proof.
  intros [Hk Hr] En.
  assert (Hs : skipsLine (m_token (peekToken l)) = false)
    by (rewrite Hk; reflexivity).
  destruct fuel as [ | fuel].
  { unfold nextToken, lexToken in En. cbn [lexToken_loop bind] in En.
    discriminate. }
  destruct (nextToken_eof fuel l Hr Hs) as (l2 & En2 & Hk2 & Hr2 & Hc2).
  rewrite En in En2. inversion En2; subst l2.
  split; [split; assumption | exact Hc2].
Qed.

(** The turn of the loop of [parse] in which it returns. *)
Lemma parse_body_returns fuel p b p' :
  settled (lexer p) ->
  parse_body fuel p = Ok (Some b, p') ->
  b = true /\ exhausted (lexer p') /\ exists l1, p' = set_lexer p l1.
Proof.
  intros (Hs & Hp & He) H. unfold parse_body in H.
  destruct (nextToken fuel (lexer p)) as [l1 | e | ] eqn:En;
    cbn [bind] in H; try discriminate.
  destruct (nextToken_Ok _ _ _ En) as [_ Hc].
  unfold currToken in H. rewrite Hc in H.
  destruct (m_token (m_peekToken (lexer p))) eqn:Hk; try discriminate;
    try (match type of H with
         | bind ?r _ = _ => destruct r; discriminate
         end).
  inversion H; subst b p'. split; [reflexivity | ].
  destruct (nextToken_exhausted fuel (lexer p) l1 (conj Hk (He Hk)) En)
    as [Hx _].
  split; [exact Hx | exists l1; reflexivity].
Qed.

End Exhaustion.

Section ExhaustedRuns.

Context {ext : Externals}.

Lemma parse_returns_exhausted fuel : forall p b p',
  settled (lexer p) ->
  parse fuel p = Ok (b, p') ->
  b = true /\ exhausted (lexer p').
Proof.
  induction fuel as [ | fuel IH]; intros p b p' Hs H; cbn [parse] in H;
    [discriminate | ].
  pose proof (parse_body_keeps (fun _ => True) settled
                (fun fuel l Hl => nextToken_settled fuel l (proj1 Hl))
                (fun l Hl => proj1 (proj2 Hl))
                fuel p Hs) as Hk.
  destruct (parse_body fuel p) as [[[b1 | ] p1] | e | ] eqn:Eb;
    cbn [bind] in H; try discriminate.
  - inversion H; subst b1 p1.
    destruct (parse_body_returns fuel p b p' Hs Eb) as (Hb & Hx & _).
    split; assumption.
  - apply (IH p1 b p'); [exact Hk | exact H].
Qed.

End ExhaustedRuns.

(** ** Index groups token by token *)

Section SingleGroups.

Context {ext : Externals}.

Lemma parseFaceIndices_single fuel l l' ia :
  m_token (peekToken l) = PT_INTEGER ->
  nextToken fuel l = Ok l' ->
  m_token (peekToken l') <> PT_SEPARATOR ->
  parseFaceIndices fuel l ia =
  Ok (true, (wrap64 (read_asInteger (m_attribute (peekToken l))), 0, 0), l').
Proof.
  intros Hk En Hs. destruct ia as [[i0 i1] i2].
  destruct (nextToken_Ok _ _ _ En) as [_ Hc].
  unfold parseFaceIndices, parseInteger, checkToken.
  rewrite Hk, En. cbn [bind negb].
  rewrite (ParseToken_eqb_neq _ _ Hs). cbn [bind].
  rewrite (ParseToken_eqb_neq _ _ Hs). cbn [bind].
  unfold currToken, peekToken. rewrite Hc. reflexivity.
Qed.

Lemma parseFaceIndices_none fuel l ia :
  m_token (peekToken l) <> PT_INTEGER ->
  parseFaceIndices fuel l ia = Ok (false, ia, l).
Proof.
  intros Hk. destruct ia as [[i0 i1] i2].
  unfold parseFaceIndices, parseInteger.
  destruct (m_token (peekToken l)); try congruence; reflexivity.
Qed.

End SingleGroups.

(** * The claims of the specification *)

Open Scope string_scope.
Open Scope list_scope.

(** C1.  Directive lines and the deferred line skip.  The specification says that
    the rest of the line is discarded after each of the five directive
    keywords, use-material included.  The switch that opens [lexToken]
    has no case for [PT_USEMATERIAL]: the text after [usemtl] is lexed
    and parsed like any other text, so the line "usemtl v 1 2 3" calls
    [onVertex], while the same text after [g] calls nothing. *)
Theorem usemtl_line_is_not_skipped :
  skipsLine PT_USEMATERIAL = false /\
  calls_of (run 20 ["usemtl v 1 2 3"]) =
    Some (true, [onVertex (mkFloat4 1 2 3 1)]) /\
  calls_of (run 20 ["g v 1 2 3"]) = Some (true, []).
Proof.
  split; [reflexivity | ].
  split; vm_compute; reflexivity.
Qed.

(** C3.  Sign of a fractional literal.  The specification says that the leading
    sign applies to the whole magnitude, so that "-0.5" is negative.
    [lexTokenFloat] decides the sign from the integer part alone, and the
    integer part of "-0.5" is [0]: the literal lexes to a float token
    with a positive value.  (The divisor is one power of ten short as
    well, which makes the value 5 rather than 1/2.)  A literal with a
    non-zero integer part keeps its sign: "-1.5" lexes to a negative
    value. *)
Theorem minus_zero_point_five_lexes_positive :
  (exists p, KAbstractObjParserPrivate 10 (chars "-0.5") blank = Ok p /\
             m_token (peekToken (lexer p)) = PT_FLOAT /\
             m_attribute (peekToken (lexer p)) = asFloat 5%Q) /\
  calls_of (run 30 ["v -0.5 -0.25 -1.5"]) =
    Some (true, [onVertex (mkFloat4 5 (5 # 2) (-6) 1)]).
Proof.
  split.
  - eexists. split; [vm_compute; reflexivity | ]. split; reflexivity.
  - vm_compute. reflexivity.
Qed.

(** C4.  Exponent after an integer.  The specification says that "1e5" is one
    float token of value 100000.  Only [lexTokenFloat] looks for an
    exponent; [lexTokenInteger] does not, so "1e5" is three tokens: the
    integer 1, the identifier "e" and the integer 5.  With a decimal
    point the exponent is read: "1.0e5" is one float token of value
    100000. *)
Theorem exponent_after_integer_is_not_read :
  tokenize 10 (chars "1e5") blank =
    Ok [PT_INTEGER; PT_STRING; PT_INTEGER; PT_EOF] /\
  (exists p, KAbstractObjParserPrivate 10 (chars "1e5") blank = Ok p /\
             m_attribute (peekToken (lexer p)) = asInteger 1) /\
  tokenize 10 (chars "1.0e5") blank = Ok [PT_FLOAT; PT_EOF] /\
  (exists p, KAbstractObjParserPrivate 10 (chars "1.0e5") blank = Ok p /\
             m_attribute (peekToken (lexer p)) = asFloat 100000%Q).
Proof.
  split; [vm_compute; reflexivity | ].
  split; [eexists; split; [vm_compute; reflexivity | reflexivity] | ].
  split; [vm_compute; reflexivity | ].
  eexists; split; [vm_compute; reflexivity | reflexivity].
Qed.

(** C5.  Third component of a parameter statement.  The specification says that
    the third component handed to [onParameter] is 0.0 when the second
    field is absent.  [parseParameter] then sets slot 1 to zero and never
    writes slot 2: after the vertex statement "v 1 2 3" the statement
    "vp 7" calls [onParameter] with third component 3, the z of the
    vertex. *)
Theorem parameter_third_component_is_stale :
  calls_of (run 30 ["v 1 2 3"; "vp 7"]) =
    Some (true, [onVertex (mkFloat4 1 2 3 1);
                 onParameter (mkFloat4 7 0 3 1)]).
Proof. vm_compute. reflexivity. Qed.

(** C6.  The face counter.  The specification says that after N face statements
    the face counter equals N.  [parseFace] does not touch
    [m_faceCount]: after two face statements, both delivered to the
    sink, the counter is still 0, while the vertex counter of the same
    run is 1. *)
Theorem face_counter_stays_zero :
  match run 30 ["f 1 2 3"; "v 1 2 3"; "f 4 5 6"] with
  | Ok (b, p) =>
      b = true /\
      map call_kind (sink p) = [PT_FACE; PT_VERTEX; PT_FACE] /\
      m_vertexCount p = 1 /\
      m_faceCount p = 0
  | _ => False
  end.
Proof. vm_compute. repeat split; reflexivity. Qed.

Section GeneralClaims.

Context {ext : Externals}.

(** C7.  A run without fatal error.  Provided the end of input is neither
    numeric nor alphabetic for the character helpers, on every input and
    with fuel beyond the length of the input, a run on which no fatal
    error occurs returns [true], and the calls it has made to the sink
    are, in number, kind and order, the geometry keywords of the token
    stream of the input: one call per recognised statement. *)
Theorem parse_returns_true_with_statements_in_order :
  isNumeric EndOfFile = false ->
  isAlpha EndOfFile = false ->
  forall fuel reader u,
  (List.length reader + 2 <= fuel)%nat ->
  (forall e, KAbstractObjParser_parse fuel reader u <> Fatal e) ->
  exists p ts,
    KAbstractObjParser_parse fuel reader u = Ok (true, p) /\
    tokenize fuel reader u = Ok ts /\
    map call_kind (sink p) = statements ts.
Proof.
  intros Hn Ha fuel reader u Hf Hnf.
  pose proof (parse_statements Hn Ha fuel reader u Hf) as H.
  destruct (KAbstractObjParser_parse fuel reader u) as [[b p] | e | ].
  - destruct H as (-> & ts & Ht & Hs). exists p, ts. auto.
  - exfalso. apply (Hnf e). reflexivity.
  - contradiction.
Qed.

(** C8, as amended.  A face statement without index groups is accepted:
    when the token after the face keyword is not an integer, [parseFace]
    reports no error, consumes nothing and calls [onFace] once with
    count 0. *)
Theorem face_without_groups_is_an_empty_face :
  forall fuel p,
  m_token (peekToken (lexer p)) <> PT_INTEGER ->
  exists p',
    parseFace (S fuel) p = Ok p' /\
    lexer p' = lexer p /\
    sink p' = sink p ++ [onFace [index_array_new] 0].
Proof.
  intros fuel p H. rewrite (parseFace_no_group fuel p H).
  eexists. split; [reflexivity | ]. split; reflexivity.
Qed.

(** C9.  The only fatal error.  Whatever the input and the fuel, a run
    that ends in a fatal error ends in the lexer's unexpected-character
    error: never in the error-token branch of the loop of [parse], and
    never in the token mismatch of [expectToken], which no statement rule
    calls. *)
Theorem fatal_errors_are_lexical :
  forall fuel reader u e,
  KAbstractObjParser_parse fuel reader u = Fatal e ->
  (exists line col c, e = UnexpectedCharacter line col c) /\
  e <> EncounteredError /\
  (forall expected received, e <> TokenMismatch expected received).
Proof.
  intros fuel reader u e H.
  assert (Hl : lexical e).
  { unfold KAbstractObjParser_parse in H.
    pose proof (constructor_ok fuel reader u) as H1.
    destruct (KAbstractObjParserPrivate fuel reader u) as [p0 | e0 | ];
      simpl in *; [ | inversion H; subst; exact H1 | discriminate].
    destruct H1 as (Hp & _).
    pose proof (parse_runs fuel p0 Hp) as H2.
    rewrite H in H2. exact H2. }
  split; [exact Hl | ].
  destruct Hl as (line & col & c & ->).
  split; [discriminate | intros; discriminate].
Qed.

(** C10.  Missing mandatory fields.  When a vertex, texture or normal
    statement has fewer numeric fields than the rule reads without a
    default (three, two and three), the rule reports no error: it
    increments its counter, leaves every slot it could not fill with the
    content it had before the statement, and calls the sink with the
    scratch storage in that state. *)
Theorem missing_fields_keep_stale_values :
  forall fuel p vals l',
  numeric_fields fuel (lexer p) vals l' ->
  ((List.length vals < 3)%nat ->
   exists p',
     parseVertex fuel p = Ok p' /\
     m_vertexCount p' = wrap64 (m_vertexCount p + 1) /\
     sink p' = sink p ++ [onVertex (m_float4 p')] /\
     forall i, (List.length vals <= i < 3)%nat ->
               get_float (m_float4 p') i = get_float (m_float4 p) i) /\
  ((List.length vals < 2)%nat ->
   exists p',
     parseTexture fuel p = Ok p' /\
     m_textureCount p' = wrap64 (m_textureCount p + 1) /\
     sink p' = sink p ++ [onTexture (m_float4 p')] /\
     forall i, (List.length vals <= i < 2)%nat ->
               get_float (m_float4 p') i = get_float (m_float4 p) i) /\
  ((List.length vals < 3)%nat ->
   exists p',
     parseNormal fuel p = Ok p' /\
     m_normalCount p' = wrap64 (m_normalCount p + 1) /\
     sink p' = sink p ++ [onNormal (m_float4 p')] /\
     forall i, (List.length vals <= i < 3)%nat ->
               get_float (m_float4 p') i = get_float (m_float4 p) i).
Proof.
  intros fuel p vals l' H.
  split; [ | split]; intros Hlen.
  - rewrite (parseVertex_fields fuel p vals l' H Hlen).
    eexists. split; [reflexivity | ]. split; [reflexivity | ].
    split; [reflexivity | ]. intros i Hi.
    cbn [m_float4 call set_float4 after_fields].
    rewrite get_set_float_other by lia. apply fill_other; lia.
  - rewrite (parseTexture_fields fuel p vals l' H Hlen).
    eexists. split; [reflexivity | ]. split; [reflexivity | ].
    split; [reflexivity | ]. intros i Hi.
    cbn [m_float4 call set_float4 after_fields].
    rewrite get_set_float_other by lia. apply fill_other; lia.
  - rewrite (parseNormal_fields fuel p vals l' H Hlen).
    eexists. split; [reflexivity | ]. split; [reflexivity | ].
    split; [reflexivity | ]. intros i Hi.
    cbn [m_float4 call set_float4 after_fields].
    apply fill_other; lia.
Qed.

End GeneralClaims.

Lemma parse_returns_true_witness :
  exists p ts,
    KAbstractObjParser_parse 60
      (text ["v 1 2 3"; "g a b"; "f 1/2/3 4//5 6"; "vn 0 0 1"]) blank
    = Ok (true, p) /\
    tokenize 60
      (text ["v 1 2 3"; "g a b"; "f 1/2/3 4//5 6"; "vn 0 0 1"]) blank
    = Ok ts /\
    map call_kind (sink p) = statements ts.
Proof.
  apply (parse_returns_true_with_statements_in_order
           (ext := ascii_externals) eq_refl eq_refl).
  - apply Nat.leb_le. vm_compute. reflexivity.
  - intros e. vm_compute. discriminate.
Defined.

(** C8, as stated, fails: the text "f" followed by a newline is parsed
    without error, and the sink receives [onFace] with count 0. *)
Lemma face_without_groups_is_no_error :
  calls_of (run 10 ["f"]) = Some (true, [onFace [index_array_new] 0]).
Proof. vm_compute. reflexivity. Qed.

Lemma face_without_groups_witness :
  exists p,
    at_first_token 10 ["f"] blank = Ok p /\
    m_token (peekToken (lexer p)) <> PT_INTEGER /\
    exists p',
      parseFace 10 p = Ok p' /\
      lexer p' = lexer p /\
      sink p' = sink p ++ [onFace [index_array_new] 0].
Proof.
  eexists. split; [vm_compute; reflexivity | ].
  split; [vm_compute; discriminate | ].
  apply (face_without_groups_is_an_empty_face (ext := ascii_externals) 9).
  vm_compute. discriminate.
Defined.

Lemma fatal_errors_witness :
  run 20 ["v 1 2 $"] = Fatal (UnexpectedCharacter 1 7 36) /\
  (exists line col c,
     UnexpectedCharacter 1 7 36 = UnexpectedCharacter line col c) /\
  UnexpectedCharacter 1 7 36 <> EncounteredError /\
  (forall expected received,
     UnexpectedCharacter 1 7 36 <> TokenMismatch expected received).
Proof.
  split; [vm_compute; reflexivity | ].
  apply (fatal_errors_are_lexical (ext := ascii_externals)
           20 (text ["v 1 2 $"]) blank).
  vm_compute. reflexivity.
Defined.

Lemma missing_fields_witness :
  exists p l',
    at_first_token 20 ["vn 7 8"] stale = Ok p /\
    numeric_fields 20 (lexer p) [7%Q; 8%Q] l' /\
    exists p',
      parseNormal 20 p = Ok p' /\
      m_normalCount p' = wrap64 (m_normalCount p + 1) /\
      sink p' = sink p ++ [onNormal (m_float4 p')] /\
      forall i, (2 <= i < 3)%nat ->
                get_float (m_float4 p') i = get_float (m_float4 p) i.
Proof.
  eexists. eexists. split; [vm_compute; reflexivity | ].
  match goal with
  | |- ?A /\ _ => assert (H : A)
  end.
  { split; [vm_compute; reflexivity | ].
    split; [vm_compute; reflexivity | ].
    eexists. split; [vm_compute; reflexivity | ].
    split; [vm_compute; reflexivity | ].
    split; [vm_compute; reflexivity | ].
    eexists. split; [vm_compute; reflexivity | ].
    split; [reflexivity | vm_compute; reflexivity]. }
  split; [exact H | ].
  apply (missing_fields_keep_stale_values (ext := ascii_externals)
           20 _ [7%Q; 8%Q] _ H).
  simpl. lia.
Defined.

(** The concrete reading of the character helpers is conventional. *)
Lemma ascii_externals_conventional : conventional ascii_externals.
Proof.
  unfold conventional. simpl.
  repeat (split; [try reflexivity | ]); try reflexivity.
  - left. lia.
  - intros c H. rewrite H. reflexivity.
  - intros c H. unfold isWhitespace, SPACE, TAB, CR in H.
    assert (E : c = 32 \/ c = 9 \/ c = 13) by lia.
    destruct E as [-> | [-> | ->]]; reflexivity.
  - intros c H. unfold isWhitespace, SPACE, TAB, CR in H.
    assert (E : c = 32 \/ c = 9 \/ c = 13) by lia.
    destruct E as [-> | [-> | ->]]; reflexivity.
Qed.

(** C2, as stated, fails: the line "f 1/ 2" holds two groups separated by
    a space, the first with an empty texture slot, yet [onFace] receives
    count 1 and the single triple (1,2,0): the second group was read as
    the texture index of the first. *)
Lemma face_group_ending_with_separator_is_merged :
  let gs := [mkGroup [SPACE] (chars "1") Empty Absent;
             mkGroup [SPACE] (chars "2") Absent Absent] in
  face_line gs [] = text ["f 1/ 2"] /\
  Forall group_ok gs /\
  calls_of (KAbstractObjParser_parse 20 (face_line gs []) blank) =
    Some (true, [onFace [(1, 2, 0); (0, 0, 0)] 1]) /\
  1 <> Z.of_nat (List.length gs) /\
  texture_of (1, 2, 0) <> 0.
Proof.
  cbv zeta. split; [reflexivity | ].
  split.
  { repeat constructor; try discriminate; reflexivity. }
  split; [vm_compute; reflexivity | ].
  split; simpl; discriminate.
Qed.

Section FaceClaim.

Context {ext : Externals}.

(** C2, as amended.  For conventional character helpers and every face
    statement whose index groups, separated by whitespace, are well
    formed and of which only the last may end with a separator:
    wherever the statement stands in the input, the turn of the loop of
    [parse] that meets its keyword calls [onFace] exactly once, with the
    number of groups as count and the triples of the groups in order,
    and leaves the reader after the newline; a run on the statement
    alone returns [true] after that one call; and the triple of a group
    holds 0 in every texture or normal slot that is absent or empty. *)
Theorem face_line_decodes_every_group :
  conventional ext ->
  forall gs tl,
  groups_ok gs ->
  blanks tl ->
  (forall rest fuel p,
     m_token (peekToken (lexer p)) = PT_FACE ->
     reads (lexer p) (groups_text gs tl ++ rest) ->
     (List.length (groups_text gs tl ++ rest) < fuel)%nat ->
     exists p',
       parse_body fuel p = Ok (None, p') /\
       sink p' = sink p ++ [onFace (map triple gs ++ [index_array_new])
                              (Z.of_nat (List.length gs))] /\
       reads (lexer p') rest) /\
  (forall fuel u,
     (List.length (face_line gs tl) + 2 <= fuel)%nat ->
     exists p,
       KAbstractObjParser_parse fuel (face_line gs tl) u = Ok (true, p) /\
       sink p = [onFace (map triple gs ++ [index_array_new])
                   (Z.of_nat (List.length gs))]) /\
  (forall g, In g gs ->
     (g_texture g = Absent \/ g_texture g = Empty ->
      texture_of (triple g) = 0) /\
     (g_normal g = Absent \/ g_normal g = Empty ->
      normal_of (triple g) = 0)).
Proof.
  intros (H1 & H2 & H3 & H4 & H5 & H6 & H7 & H8 & H9 & H10 & H11)
    gs tl Hok Htl.
  split; [ | split].
  - intros rest fuel p Hk Hr Hf.
    destruct (face_turn H1 H2 H3 H4 H5 H6 H7 gs tl rest fuel p
                Hk Hr Hok Htl Hf) as (p' & E & Hs & _ & Hr' & _).
    exists p'. auto.
  - intros fuel u Hf. apply face_line_parse; assumption.
  - intros g _. unfold triple, texture_of, normal_of. simpl.
    split; intros [-> | ->]; reflexivity.
Qed.

End FaceClaim.

Lemma face_line_witness :
  let gs := [mkGroup [SPACE] (chars "1")
               (Index (chars "2")) (Index (chars "3"));
             mkGroup [SPACE] (chars "4") Empty (Index (chars "5"));
             mkGroup [SPACE] (chars "6") Absent Absent] in
  face_line gs [] = text ["f 1/2/3 4//5 6"] /\
  map (triple (ext := ascii_externals)) gs
    = [(1, 2, 3); (4, 0, 5); (6, 0, 0)] /\
  exists p,
    KAbstractObjParser_parse 20 (face_line gs []) blank = Ok (true, p) /\
    sink p = [onFace (map triple gs ++ [index_array_new]) 3].
Proof.
  cbv zeta. split; [reflexivity | ]. split; [vm_compute; reflexivity | ].
  refine (proj1 (proj2 (face_line_decodes_every_group
                          (ext := ascii_externals)
                          ascii_externals_conventional _ [] _ _))
            20%nat blank _).
  - repeat split; try discriminate; repeat constructor.
  - constructor.
  - apply Nat.leb_le. vm_compute. reflexivity.
Defined.

Section Extras.

Context {ext : Externals}.

(** The deferred line skip for the four kinds the switch lists.  When the
    current token is a group, object, smoothing or material-library
    keyword and the reader stands in a line, [lexToken] discards the
    rest of that line, whatever it holds, and runs its tokenization loop
    from the first character after the newline, with the token members
    untouched. *)
Theorem directive_line_is_skipped :
  forall fuel l token cs rest,
  skipsLine (m_token (currToken l)) = true ->
  reads l (cs ++ NEWLINE :: rest) ->
  Forall in_line cs ->
  exists l',
    lexToken fuel l token = lexToken_loop fuel l' token /\
    reads l' rest /\ same_tokens l l'.
Proof.
  intros fuel l token cs rest Hs Hr Hl.
  exists (nextLine l). unfold lexToken.
  unfold currToken in Hs. rewrite Hs.
  split; [reflexivity | ].
  split; [eapply nextLine_reads; eassumption | apply nextLine_tokens].
Qed.

(** The statistics counters after a run.  Whatever the input, when a run
    returns, the vertex, texture, normal and parameter counters equal
    (modulo 2^64) the number of calls of the matching kind made to the
    sink, and the face counter is 0. *)
Theorem counters_after_run :
  forall fuel reader u b p,
  KAbstractObjParser_parse fuel reader u = Ok (b, p) ->
  counters_agree p.
Proof.
  intros fuel reader u b p H. unfold KAbstractObjParser_parse in H.
  pose proof (constructor_ok fuel reader u) as H1.
  destruct (KAbstractObjParserPrivate fuel reader u) as [p0 | e | ];
    simpl in *; try discriminate.
  destruct H1 as (Hp & Hs & C1 & C2 & C3 & C4 & C5).
  pose proof (parse_runs fuel p0 Hp) as H2.
  rewrite H in H2. destruct H2 as [_ Hr]. simpl in Hr.
  apply (runs_counters _ _ Hr).
  unfold counters_agree. rewrite Hs, C1, C2, C3, C4, C5.
  repeat split.
Qed.

End Extras.

Lemma directive_line_witness :
  exists l',
    lexToken 10 after_group_keyword Token_new
      = lexToken_loop 10 l' Token_new /\
    reads l' (text ["v 1"]) /\ same_tokens after_group_keyword l'.
Proof.
  apply (directive_line_is_skipped (ext := ascii_externals)
           10 after_group_keyword Token_new (chars " a$b") (text ["v 1"])).
  - reflexivity.
  - split; reflexivity.
  - repeat constructor; discriminate.
Defined.

Lemma counters_witness :
  exists p,
    run 40 ["v 1 2 3"; "f 1 2 3"; "v 4 5 6"] = Ok (true, p) /\
    counters_agree p.
Proof.
  eexists. split; [vm_compute; reflexivity | ].
  apply (counters_after_run (ext := ascii_externals) 40
           (text ["v 1 2 3"; "f 1 2 3"; "v 4 5 6"]) blank true).
  vm_compute. reflexivity.
Defined.

(** * Further properties of the lexer, the parser and the containers *)

(** The concrete reading of the character helpers meets what the
    properties below ask of them. *)

Lemma ascii_eof_not_char :
  EndOfFile (Externals := ascii_externals) < 0 \/
  255 < EndOfFile (Externals := ascii_externals).
Proof. left. simpl. lia. Qed.

Lemma ascii_letters c :
  isLetter c = true ->
  isAlpha (Externals := ascii_externals) c = true /\
  isNumeric (Externals := ascii_externals) c = false.
Proof.
  intros H. split; [exact H | ].
  unfold isLetter, isUpper, isLower in H. simpl.
  unfold isDigit, MINUS, PLUS. lia.
Qed.

Lemma ascii_digits c :
  isDigit c = true ->
  isNumeric (Externals := ascii_externals) c = true /\
  ctoi (Externals := ascii_externals) c = c - 48.
Proof.
  intros H. simpl. rewrite H. split; reflexivity.
Qed.

Section WordTokens.

Context {ext : Externals}.


End WordTokens.


Section IntegerLiterals.

Context {ext : Externals}.


End IntegerLiterals.


Section FloatLiterals.

Context {ext : Externals}.



End FloatLiterals.



Section Comments.

Context {ext : Externals}.


End Comments.


Section Positions.

Context {ext : Externals}.

(** Where the error stands.  Provided the reader delivers no character
    equal to the end-of-input value, the input is shorter than [2^31 - 1]
    characters and the indeterminate lookahead character the constructor
    starts from is not a newline: whenever a run ends in a fatal error,
    the error names a character of the input that is neither whitespace,
    newline, hash sign, slash, numeric nor alphabetic, together with the
    line it stands on and its column in that line, both counted from
    1. *)
Theorem unexpected_character_is_reported_where_it_stands :
  forall fuel reader u e,
  Forall (fun c => c <> EndOfFile) reader ->
  Z.of_nat (List.length reader) < 2 ^ 31 - 1 ->
  u_peekChar u <> NEWLINE ->
  KAbstractObjParser_parse fuel reader u = Fatal e ->
  exists pre c post,
    reader = pre ++ c :: post /\
    e = UnexpectedCharacter (line_of pre) (column_of pre + 1) c /\
    unexpected c.
Proof.
  intros fuel reader u e Hchars Hsmall Hu H.
  change (at_position reader e).
  set (Inv := fun l => located reader l /\ peek_ok l).
  assert (Hkeep : forall fuel l,
             Inv l -> ensures (at_position reader) Inv (nextToken fuel l)).
  { intros fuel' l [Hl _].
    eapply ensures_weaken;
      [exact (ensures_both _ _ _ _ _
                (nextToken_located reader Hchars Hsmall fuel' l Hl)
                (nextToken_ok fuel' l))
      | intros e' [He _]; exact He
      | intros l' [Hl' [Hp' _]]; split; assumption]. }
  unfold KAbstractObjParser_parse, KAbstractObjParserPrivate in H.
  set (l0 := mkLexer reader (u_currChar u) (u_peekChar u)
               Token_new Token_new 1 (-1)) in H.
  assert (Hl1 : located reader (snd (nextChar l0))).
  { exists [], reader. split; [reflexivity | ].
    unfold nextChar, l0. cbn [m_peekChar m_reader m_currLineCount
                               m_currCharCount m_currToken m_peekToken].
    rewrite (proj2 (Z.eqb_neq _ _) Hu).
    destruct reader as [ | c rd]; cbn [next snd];
      (split; [split; reflexivity | intros _; split; reflexivity]). }
  destruct (nextChar l0) as [c0 l1]. cbn [snd] in Hl1.
  pose proof (ensures_both _ _ _ _ _
                (nextToken_located reader Hchars Hsmall fuel l1 Hl1)
                (nextToken_ok fuel l1)) as Hn.
  destruct (nextToken fuel l1) as [l2 | e2 | ]; cbn [bind] in H;
    [ | inversion H; subst; apply Hn | discriminate].
  cbn [ensures] in Hn. destruct Hn as [Hl2 [Hp2 _]].
  pose proof (parse_keeps (at_position reader) Inv Hkeep
                (fun l Hl => proj2 Hl) fuel
                (mkParser l2 0 0 0 0 0 (u_float4 u) [] [])
                (conj Hl2 Hp2)) as Hp.
  rewrite H in Hp. exact Hp.
Qed.

End Positions.

Lemma position_witness :
  run 40 ["v 1 2 3"; "f 1 2 $"] = Fatal (UnexpectedCharacter 2 7 36) /\
  exists pre c post,
    text ["v 1 2 3"; "f 1 2 $"] = pre ++ c :: post /\
    UnexpectedCharacter 2 7 36 =
      UnexpectedCharacter (line_of pre) (column_of pre + 1) c /\
    unexpected c.
Proof.
  split; [vm_compute; reflexivity | ].
  apply (unexpected_character_is_reported_where_it_stands
           (ext := ascii_externals)
           40 (text ["v 1 2 3"; "f 1 2 $"]) blank).
  - repeat constructor; discriminate.
  - vm_compute. reflexivity.
  - discriminate.
  - vm_compute. reflexivity.
Defined.

Section Arity.

Context {ext : Externals}.

Ltac open_run :=
  repeat match goal with
  | H : numeric_run _ _ (_ :: _) _ |- _ =>
      let Hk := fresh "Hk" in
      let Hv := fresh "Hv" in
      let l1 := fresh "l" in
      let Hn := fresh "Hn" in
      destruct H as (Hk & Hv & l1 & Hn & H)
  | H : numeric_run _ _ [] _ |- _ => cbn [numeric_run] in H; subst
  end.

Ltac read_run :=
  repeat first
    [ erewrite parseFloat_at_present by eassumption; cbn [bind]
    | rewrite parseFloat_at_absent by assumption; cbn [bind] ].

Ltac delivered :=
  eexists; split; [reflexivity | ]; split; reflexivity.

(** Statements written in full.  A rule that finds as many numeric
    fields as it can take hands them to the sink in the order written and
    consumes exactly those tokens, whatever follows them: four fields for
    a vertex, three for a texture coordinate, a normal and a parameter
    point.  The fourth slot of the scratch storage is written by the
    vertex rule only: the other three calls carry it as it was. *)
Theorem full_statements_deliver_the_fields_written :
  forall fuel p l',
  (forall x y z w,
     numeric_run fuel (lexer p) [x; y; z; w] l' ->
     exists p', parseVertex fuel p = Ok p' /\ lexer p' = l' /\
       sink p' = sink p ++ [onVertex (mkFloat4 x y z w)]) /\
  (forall x y z,
     numeric_run fuel (lexer p) [x; y; z] l' ->
     (exists p', parseTexture fuel p = Ok p' /\ lexer p' = l' /\
        sink p' = sink p ++ [onTexture (mkFloat4 x y z (x3 (m_float4 p)))]) /\
     (exists p', parseNormal fuel p = Ok p' /\ lexer p' = l' /\
        sink p' = sink p ++ [onNormal (mkFloat4 x y z (x3 (m_float4 p)))]) /\
     (exists p', parseParameter fuel p = Ok p' /\ lexer p' = l' /\
        sink p' = sink p
                  ++ [onParameter (mkFloat4 x y z (x3 (m_float4 p)))])).
Proof.
  intros fuel p l'. split.
  - intros x y z w H. unfold parseVertex. open_run. read_run. delivered.
  - intros x y z H. split; [ | split].
    + unfold parseTexture. open_run. read_run. delivered.
    + unfold parseNormal. open_run. read_run. delivered.
    + unfold parseParameter. open_run. read_run. delivered.
Qed.

(** Defaults.  When the token after the fields is not numeric: a vertex
    statement with three fields is delivered with fourth component 1, a
    texture statement with two fields with third component 1, and a
    parameter statement with two fields with third component 0. *)
Theorem short_statements_are_completed_by_defaults :
  forall fuel p l',
  (forall x y z,
     numeric_fields fuel (lexer p) [x; y; z] l' ->
     exists p', parseVertex fuel p = Ok p' /\ lexer p' = l' /\
       sink p' = sink p ++ [onVertex (mkFloat4 x y z 1)]) /\
  (forall x y,
     numeric_fields fuel (lexer p) [x; y] l' ->
     (exists p', parseTexture fuel p = Ok p' /\ lexer p' = l' /\
        sink p' = sink p ++ [onTexture (mkFloat4 x y 1 (x3 (m_float4 p)))]) /\
     (exists p', parseParameter fuel p = Ok p' /\ lexer p' = l' /\
        sink p' = sink p
                  ++ [onParameter (mkFloat4 x y 0 (x3 (m_float4 p)))])).
Proof.
  intros fuel p l'. split.
  - intros x y z H. destruct (numeric_fields_run _ _ _ _ H) as [Hr Hs].
    clear H. unfold parseVertex. open_run. read_run. delivered.
  - intros x y H. destruct (numeric_fields_run _ _ _ _ H) as [Hr Hs].
    clear H. split.
    + unfold parseTexture. open_run. read_run. delivered.
    + unfold parseParameter. open_run. read_run. delivered.
Qed.

End Arity.

Ltac run_fields :=
  repeat first
    [ reflexivity
    | split; [vm_compute; reflexivity | ]
    | eexists; split; [vm_compute; reflexivity | ] ].

Lemma full_statements_witness :
  exists p l',
    at_first_token 30 ["v 1 2 3 4 5"] stale = Ok p /\
    numeric_run 30 (lexer p) [1%Q; 2%Q; 3%Q; 4%Q] l' /\
    exists p',
      parseVertex 30 p = Ok p' /\ lexer p' = l' /\
      sink p' = sink p ++ [onVertex (mkFloat4 1 2 3 4)].
Proof.
  eexists. eexists. split; [vm_compute; reflexivity | ].
  match goal with
  | |- ?A /\ _ => assert (H : A)
  end.
  { cbn [numeric_run]. run_fields. }
  split; [exact H | ].
  exact (proj1 (full_statements_deliver_the_fields_written
                  (ext := ascii_externals) 30 _ _) 1%Q 2%Q 3%Q 4%Q H).
Defined.

Lemma short_statements_witness :
  exists p l',
    at_first_token 30 ["vt 1 2"] stale = Ok p /\
    numeric_fields 30 (lexer p) [1%Q; 2%Q] l' /\
    exists p',
      parseTexture 30 p = Ok p' /\ lexer p' = l' /\
      sink p' = sink p ++ [onTexture (mkFloat4 1 2 1 14)].
Proof.
  eexists. eexists. split; [vm_compute; reflexivity | ].
  match goal with
  | |- ?A /\ _ => assert (H : A)
  end.
  { cbn [numeric_fields]. run_fields. }
  split; [exact H | ].
  exact (proj1 (proj2 (short_statements_are_completed_by_defaults
                         (ext := ascii_externals) 30 _ _) 1%Q 2%Q H)).
Defined.

Section GeometryLines.

Context {ext : Externals}.

Ltac open_run :=
  repeat match goal with
  | H : numeric_run _ _ (_ :: _) _ |- _ =>
      let Hk := fresh "Hk" in
      let Hv := fresh "Hv" in
      let l1 := fresh "l" in
      let Hn := fresh "Hn" in
      destruct H as (Hk & Hv & l1 & Hn & H)
  | H : numeric_run _ _ [] _ |- _ => cbn [numeric_run] in H; subst
  end.

Ltac read_run :=
  repeat first
    [ erewrite parseFloat_at_present by eassumption; cbn [bind]
    | rewrite parseFloat_at_absent by assumption; cbn [bind] ].

(** The rule of a keyword on the fields of its line. *)
Ltac rule_on_fields helpers unfold_rule :=
  lazymatch goal with
  | Hfs : Forall field_ok (?f :: ?fs),
    Hb : blanks ?tl,
    Hr : reads (lexer ?p) (fields_text (?f :: ?fs) ++ ?tl ++ NEWLINE :: ?rest),
    Hf : (List.length (fields_text (?f :: ?fs) ++ ?tl) < ?fuel)%nat,
    Hk : m_token (peekToken (lexer ?p)) = _ |- _ =>
      let l1 := fresh "l1" in
      let l' := fresh "l'" in
      let En := fresh "En" in
      let Hc := fresh "Hc" in
      let Hnf := fresh "Hnf" in
      let Hr' := fresh "Hr'" in
      let Hrun := fresh "Hrun" in
      let Hs := fresh "Hs" in
      destruct (keyword_turn helpers fuel p f fs tl rest
                  ltac:(rewrite Hk; reflexivity) Hfs Hb Hr Hf)
        as (l1 & l' & En & Hc & Hnf & Hr');
      destruct (numeric_fields_run _ _ _ _ Hnf) as [Hrun Hs];
      clear Hnf;
      unfold parse_body; rewrite En; cbn [bind];
      rewrite Hc, Hk;
      change l1 with (lexer (set_lexer p l1)) in Hrun;
      cbn [map] in Hrun; cbn [nth map];
      repeat match goal with
             | |- context [field_value ?f] =>
                 let a := fresh "a" in
                 set (a := field_value f) in *; clearbody a
             end;
      unfold_rule; open_run; read_run;
      eexists; split; [reflexivity | ]; split; [reflexivity | exact Hr']
  end.


End GeometryLines.

Lemma ascii_numerate : numerate ascii_externals.
Proof.
  split; [exact ascii_eof_not_char | ].
  split; [exact ascii_digits | ].
  split; [reflexivity | ]. split; [reflexivity | ]. split; [reflexivity | ].
  intros c H.
  assert (E : c = 32 \/ c = 9 \/ c = 13 \/ c = 10)
    by (unfold isWhitespace, SPACE, TAB, CR, NEWLINE in H; lia).
  destruct E as [-> | [-> | [-> | ->]]]; split; (reflexivity || discriminate).
Qed.


(** The reserved words.  Whatever is inserted into an empty map ordered
    by [ParseCompare], looking a key up finds the value inserted first
    under the same characters, and nothing when no insertion had them.
    For the map the constructor of [ParseMap] builds: the ten words are
    all kept, each is found with its own token, no other key is found,
    and [symResolve] answers what the map holds for the lexicon of the
    token, or else the kind it was given. *)
Theorem reserved_map_finds_exactly_the_ten_words :
  (forall kvs key,
     map_find (fold_left map_insert kvs []) key = find kvs key) /\
  List.length ParseMap_new = 10%nat /\
  (forall k t, In (k, t) sg_reserved -> map_find ParseMap_new k = Some t) /\
  (forall key, ~ In key (map fst sg_reserved) ->
               map_find ParseMap_new key = None) /\
  (forall token t,
     symResolve token t =
     match map_find ParseMap_new (c_str (m_lexicon token)) with
     | Some k => k
     | None => t
     end).
Proof.
  assert (H : forall kvs key,
             map_find (fold_left map_insert kvs []) key = find kvs key).
  { intros kvs key.
    destruct (fold_map_insert kvs [] key) as [Ha Hf]; [exact I | ].
    rewrite (map_find_find _ _ Ha). exact Hf. }
  split; [exact H | ]. split; [reflexivity | ].
  unfold ParseMap_new. split; [ | split].
  - intros k t Hin. rewrite H. cbn [sg_reserved In] in Hin.
    repeat (destruct Hin as [Hin | Hin];
            [inversion Hin; subst; reflexivity | ]).
    contradiction.
  - intros key Hn. rewrite H. apply find_absent.
    apply Forall_forall. intros e He Heq. apply Hn.
    rewrite <- Heq. apply in_map. exact He.
  - intros token t. rewrite H. reflexivity.
Qed.

Lemma reserved_map_witness :
  In (chars "vt", PT_TEXTURE) sg_reserved /\
  map_find ParseMap_new (chars "vt") = Some PT_TEXTURE /\
  ~ In (chars "vx") (map fst sg_reserved) /\
  map_find ParseMap_new (chars "vx") = None.
Proof.
  assert (H1 : In (chars "vt", PT_TEXTURE) sg_reserved)
    by (right; left; reflexivity).
  assert (H2 : ~ In (chars "vx") (map fst sg_reserved)).
  { cbn [sg_reserved map fst In]. intros H.
    repeat (destruct H as [H | H]; [discriminate | ]). exact H. }
  split; [exact H1 | ].
  split; [exact (proj1 (proj2 (proj2 reserved_map_finds_exactly_the_ten_words))
                   _ _ H1) | ].
  split; [exact H2 | ].
  exact (proj1 (proj2 (proj2 (proj2 reserved_map_finds_exactly_the_ten_words)))
           _ H2).
Defined.

(** The order of strings.  [ParseCompare], the order of the reserved map,
    is a strict total order on C strings: no string comes before itself,
    the order is transitive, and two strings neither of which comes
    before the other hold the same characters.  [operator<] on two
    terminated [ParseString]s is that order on what [data()] reads. *)
Theorem string_order_is_strict_and_total :
  (forall a, ParseCompare a a = false) /\
  (forall a b c,
     ParseCompare a b = true -> ParseCompare b c = true ->
     ParseCompare a c = true) /\
  (forall a b,
     ParseCompare a b = false -> ParseCompare b a = false -> a = b) /\
  (forall s t,
     ParseString_less (s ++ [0]) (t ++ [0]) =
     Some (ParseCompare (c_str s) (c_str t))).
Proof.
  split; [exact ParseCompare_irrefl | ].
  split; [exact ParseCompare_trans | ].
  split; [exact ParseCompare_equiv | ].
  intros s t. unfold ParseString_less.
  rewrite !ParseString_data_terminated. reflexivity.
Qed.

Lemma string_order_witness :
  ParseCompare (chars "f") (chars "v") = true /\
  ParseCompare (chars "v") (chars "vt") = true /\
  ParseCompare (chars "f") (chars "vt") = true.
Proof.
  assert (H1 : ParseCompare (chars "f") (chars "v") = true) by reflexivity.
  assert (H2 : ParseCompare (chars "v") (chars "vt") = true) by reflexivity.
  split; [exact H1 | ]. split; [exact H2 | ].
  exact (proj1 (proj2 string_order_is_strict_and_total) _ _ _ H1 H2).
Defined.

(** The lexicon of a token.  A string set by assigning a character and
    extended by appending characters, as [lexTokenIdentifier] does, is a
    vector that holds those characters and one NUL after them, and
    [data()] reads the characters up to the first NUL among them,
    whatever the string held before.  A freshly constructed string reads
    as the empty string and takes appended characters the same way. *)
Theorem character_appends_keep_the_string_terminated :
  forall v c cs,
  ParseString_extend (ParseString_assign v c) cs = Some ((c :: cs) ++ [0]) /\
  ParseString_data ((c :: cs) ++ [0]) = Some (c_str (c :: cs)) /\
  ParseString_data ParseString_new = Some [] /\
  ParseString_extend (Some ParseString_new) cs = Some (cs ++ [0]).
Proof.
  intros v c cs. split; [ | split; [ | split]].
  - unfold ParseString_assign, ParseString_clear.
    change (push_back [] 0) with ([] ++ [0]).
    rewrite ParseString_append_terminated.
    rewrite ParseString_extend_terminated. reflexivity.
  - apply ParseString_data_terminated.
  - reflexivity.
  - unfold ParseString_new. change (push_back [] 0) with ([] ++ [0]).
    rewrite ParseString_extend_terminated. reflexivity.
Qed.

(** C strings.  Constructing a [ParseString] from a C string that is not
    empty gives a string that reads back as the C string; from the empty
    C string it gives the empty vector, without terminator, for which
    neither [data()] nor the appending of a character is defined.
    Assigning a C string to a [ParseString], or appending one to a
    terminated [ParseString], puts the characters after the terminator:
    after an assignment [data()] reads the empty string, after an append
    what it read before. *)
Theorem c_strings_are_stored_after_the_terminator :
  (forall str, c_str str <> [] ->
     ParseString_data (ParseString_of_str str) = Some (c_str str)) /\
  (forall str c, c_str str = [] ->
     ParseString_of_str str = [] /\
     ParseString_data (ParseString_of_str str) = None /\
     ParseString_append (ParseString_of_str str) c = None) /\
  (forall v str, ParseString_data (ParseString_assign_str v str) = Some []) /\
  (forall s str,
     ParseString_data (ParseString_append_str (s ++ [0]) str) =
     ParseString_data (s ++ [0])).
Proof.
  split; [ | split; [ | split]].
  - intros str Hne. unfold ParseString_of_str, ParseString_append_str.
    destruct (c_str str) as [ | c s] eqn:E; [congruence | ].
    cbn [app]. unfold push_back.
    rewrite ParseString_data_terminated, <- E. f_equal. apply c_str_idem.
  - intros str c E. unfold ParseString_of_str, ParseString_append_str.
    rewrite E. repeat split.
  - intros v str.
    unfold ParseString_assign_str, ParseString_append_str, ParseString_clear.
    destruct (c_str str); reflexivity.
  - intros s str. unfold ParseString_append_str.
    destruct (c_str str) as [ | c t]; [reflexivity | ].
    unfold push_back. rewrite <- !app_assoc. cbn [app].
    rewrite (ParseString_data_terminated s []).
    apply ParseString_data_terminated.
Qed.

Lemma c_strings_witness :
  ParseString_data (ParseString_of_str (chars "vt")) = Some (chars "vt") /\
  ParseString_of_str [] = [] /\
  ParseString_data (ParseString_of_str []) = None /\
  ParseString_append (ParseString_of_str []) 118 = None.
Proof.
  split.
  - apply (proj1 c_strings_are_stored_after_the_terminator (chars "vt")).
    discriminate.
  - apply (proj1 (proj2 c_strings_are_stored_after_the_terminator) [] 118).
    reflexivity.
Defined.

Section Lookahead.

Context {ext : Externals}.

(** The lookahead token.  What [peekToken] shows is what the next call
    of [nextToken] makes the current token, kind, lexicon and attribute.
    So [checkToken] and [expectToken] decide on the same token: when the
    lookahead token has the kind asked for, both advance exactly as
    [nextToken] does; when it has another kind, [checkToken] answers
    [false] and leaves the lexer as it was, while [expectToken], if the
    lexer gets past the token, ends in the mismatch error that names
    both kinds. *)
Theorem checkToken_and_expectToken_decide_on_the_lookahead_token :
  forall fuel l t,
  (forall l1, nextToken fuel l = Ok l1 -> currToken l1 = peekToken l) /\
  (m_token (peekToken l) = t ->
   expectToken fuel l t = nextToken fuel l /\
   checkToken fuel l t = (l1 <- nextToken fuel l ;; Ok (true, l1))) /\
  (m_token (peekToken l) <> t ->
   checkToken fuel l t = Ok (false, l) /\
   forall l1, nextToken fuel l = Ok l1 ->
     expectToken fuel l t = Fatal (TokenMismatch t (m_token (peekToken l)))).
Proof.
  intros fuel l t.
  assert (Hc : forall l1, nextToken fuel l = Ok l1 ->
                          currToken l1 = peekToken l).
  { intros l1 H. apply (nextToken_Ok _ _ _ H). }
  split; [exact Hc | ]. split.
  - intros Hk. split.
    + unfold expectToken.
      destruct (nextToken fuel l) as [l1 | e | ] eqn:En;
        cbn [bind]; try reflexivity.
      rewrite (Hc l1 eq_refl), Hk.
      rewrite (proj2 (ParseToken_eqb_eq t t) eq_refl). reflexivity.
    + unfold checkToken.
      rewrite (proj2 (ParseToken_eqb_eq _ _) Hk). reflexivity.
  - intros Hk. split.
    + unfold checkToken. rewrite (ParseToken_eqb_neq _ _ Hk). reflexivity.
    + intros l1 En. unfold expectToken. rewrite En. cbn [bind].
      rewrite (Hc l1 En), (ParseToken_eqb_neq _ _ Hk). reflexivity.
Qed.

End Lookahead.

Lemma lookahead_witness :
  exists p,
    KAbstractObjParserPrivate 10 (chars "/ 1") blank = Ok p /\
    m_token (peekToken (lexer p)) = PT_SEPARATOR /\
    (expectToken 10 (lexer p) PT_SEPARATOR = nextToken 10 (lexer p) /\
     checkToken 10 (lexer p) PT_SEPARATOR =
       (l1 <- nextToken 10 (lexer p) ;; Ok (true, l1))) /\
    checkToken 10 (lexer p) PT_INTEGER = Ok (false, lexer p) /\
    expectToken 10 (lexer p) PT_INTEGER =
      Fatal (TokenMismatch PT_INTEGER PT_SEPARATOR).
Proof.
  eexists. split; [vm_compute; reflexivity | ].
  split; [reflexivity | ].
  split.
  - apply (proj1 (proj2
             (checkToken_and_expectToken_decide_on_the_lookahead_token
                (ext := ascii_externals) 10 _ PT_SEPARATOR))).
    reflexivity.
  - match goal with
    | |- checkToken _ ?l _ = _ /\ _ =>
        destruct (proj2 (proj2
                    (checkToken_and_expectToken_decide_on_the_lookahead_token
                       (ext := ascii_externals) 10 l PT_INTEGER))
                    ltac:(discriminate)) as [Hc He]
    end.
    split; [exact Hc | ].
    eapply He. vm_compute. reflexivity.
Defined.

Section RelativeIndices.

Context {ext : Externals}.

(** Negative indices.  A face statement whose only group is a minus sign
    and digits writing a number [n] with [0 < n < 2^31] calls [onFace]
    with count 1 and the vertex index [2^64 - n]: the negative [int] of
    the token is converted to the unsigned index type. *)
Theorem negative_face_index_is_taken_modulo_two_to_the_64 :
  (EndOfFile < 0 \/ 255 < EndOfFile) ->
  (forall c, isDigit c = true -> isNumeric c = true /\ ctoi c = c - 48) ->
  isNumeric MINUS = true ->
  isNumeric NEWLINE = false ->
  forall fuel p ws ds rest,
  m_token (peekToken (lexer p)) = PT_FACE ->
  blanks ws ->
  digits ds ->
  0 < decimal ds < 2 ^ 31 ->
  reads (lexer p) (ws ++ MINUS :: ds ++ NEWLINE :: rest) ->
  (List.length (ws ++ MINUS :: ds) < fuel)%nat ->
  exists p',
    parse_body fuel p = Ok (None, p') /\
    sink p' = sink p ++ [onFace [(2 ^ 64 - decimal ds, 0, 0);
                                 index_array_new] 1] /\
    reads (lexer p') rest.
Proof.
  intros Heof Hdigit Hminus Hnl fuel p ws ds rest Hface Hb [Hne Hds] Hn
    Hr Hf.
  assert (Hlit : literal Minus ds).
  { split; [exact Hds | ]. split; [discriminate | lia]. }
  destruct (nextToken_literal fuel (lexer p) ws Minus ds MINUS ds
              (NEWLINE :: rest) Heof Hdigit eq_refl
              (sign_ordinary Minus MINUS eq_refl) Hminus)
    as (l1 & En & Hk1 & Hx1 & Hr1 & Hc1);
    try assumption.
  { rewrite Hface. reflexivity. }
  { unfold NEWLINE, DOT. cbn [first_of]. lia. }
  assert (Hlen : (2 <= List.length (ws ++ MINUS :: ds))%nat).
  { rewrite length_app. cbn [List.length].
    destruct ds; [congruence | cbn [List.length]; lia]. }
  destruct fuel as [ | [ | [ | fuel]]]; try lia.
  destruct (nextToken_newline (S fuel) l1 rest Heof)
    as (l2 & En2 & Hk2 & Hr2 & Hc2); [rewrite Hk1; reflexivity | exact Hr1 | ].
  unfold parse_body. rewrite En. cbn [bind].
  rewrite Hc1, Hface.
  unfold parseFace. cbn [lexer set_lexer parseFace_loop].
  rewrite (parseFaceIndices_single (S (S fuel)) l1 l2 _ Hk1 En2)
    by (rewrite Hk2; discriminate).
  cbn [bind].
  rewrite (parseFaceIndices_none (S fuel) l2)
    by (rewrite Hk2; discriminate).
  cbn [bind]. unfold peekToken in Hx1. unfold peekToken. rewrite Hx1.
  cbn [read_asInteger sign_factor].
  replace (-1 * decimal ds) with (- decimal ds) by lia.
  rewrite wrap64_negative by lia.
  eexists. split; [reflexivity | ].
  split; [reflexivity | exact Hr2].
Qed.

End RelativeIndices.

Lemma negative_face_index_witness :
  exists p,
    KAbstractObjParserPrivate 20 (text ["f -1"; "v 1"]) blank = Ok p /\
    exists p',
      parse_body 20 p = Ok (None, p') /\
      sink p' = sink p ++ [onFace [(18446744073709551615, 0, 0);
                                   index_array_new] 1] /\
      reads (lexer p') (text ["v 1"]).
Proof.
  eexists. split; [vm_compute; reflexivity | ].
  apply (negative_face_index_is_taken_modulo_two_to_the_64
           (ext := ascii_externals)
           ascii_eof_not_char ascii_digits eq_refl eq_refl
           20 _ [SPACE] (chars "1") (text ["v 1"])).
  - reflexivity.
  - repeat constructor.
  - split; [discriminate | repeat constructor].
  - vm_compute. split; reflexivity.
  - split; reflexivity.
  - simpl. lia.
Defined.

Section Turns.

Context {ext : Externals}.

(** One statement per turn.  A turn of the loop of [parse] that does not
    fail makes the lookahead token current and dispatches on its kind.
    It ends the loop, with [true], exactly when that kind is [PT_EOF].
    After a geometry keyword the rule consumes nothing but integer, float
    and separator tokens, so the token that ends the statement is still
    the lookahead token when the turn is over, and the sink is called
    exactly once, with the call of the keyword; after any other token
    nothing more is consumed and nothing else changes. *)
Theorem a_turn_takes_one_statement_and_only_its_numbers :
  forall fuel p r p',
  peek_ok (lexer p) ->
  parse_body fuel p = Ok (r, p') ->
  let k := m_token (peekToken (lexer p)) in
  exists l1,
    currToken l1 = peekToken (lexer p) /\
    steps l1 (lexer p') /\
    (r = Some true /\ k = PT_EOF \/ r = None /\ k <> PT_EOF) /\
    if geometry k
    then exists c, sink p' = sink p ++ [c] /\ call_kind c = k
    else p' = set_lexer p l1.
Proof.
  intros fuel p r p' Hp H. cbv zeta.
  pose proof (parse_body_turn fuel p Hp) as Ht. rewrite H in Ht.
  destruct Ht as (fuel' & l1 & Hn & Ht). cbn [fst snd] in Ht.
  destruct (nextToken_Ok _ _ _ Hn) as [_ Hc].
  assert (Hk : m_token (currToken l1) = m_token (peekToken (lexer p))).
  { unfold currToken, peekToken. rewrite Hc. reflexivity. }
  rewrite Hk in Ht. exists l1. split; [exact Hc | ].
  destruct r as [b | ].
  - destruct Ht as (-> & He & ->). rewrite He.
    split; [apply steps_refl | ]. split; [left; auto | reflexivity].
  - destruct Ht as [He Ht].
    destruct (geometry (m_token (peekToken (lexer p)))).
    + destruct Ht as (Hs & _ & c & Hsink & Hcall).
      split; [exact Hs | ]. split; [right; auto | ].
      exists c. split; assumption.
    + subst p'. split; [apply steps_refl | ]. split; [right; auto | ].
      reflexivity.
Qed.

End Turns.

Lemma turn_witness :
  exists p p',
    KAbstractObjParserPrivate 20 (text ["vn 1 2"; "v 3 4 5"]) blank = Ok p /\
    parse_body 20 p = Ok (None, p') /\
    exists l1,
      currToken l1 = peekToken (lexer p) /\
      steps l1 (lexer p') /\
      (None = Some true /\ m_token (peekToken (lexer p)) = PT_EOF \/
       None = (None : option bool) /\
       m_token (peekToken (lexer p)) <> PT_EOF) /\
      exists c, sink p' = sink p ++ [c] /\ call_kind c = PT_NORMAL.
Proof.
  eexists. eexists. split; [vm_compute; reflexivity | ].
  match goal with
  | |- ?A /\ _ => assert (H : A) by (vm_compute; reflexivity)
  end.
  split; [exact H | ].
  refine (a_turn_takes_one_statement_and_only_its_numbers
            (ext := ascii_externals) 20 _ None _ _ H).
  vm_compute. discriminate.
Defined.

Section EndOfInput.

Context {ext : Externals}.

(** The end of the input.  Provided the reader delivers no character
    equal to the end-of-input value: when a run returns, the whole input
    has been read, the lookahead token is [PT_EOF], and calling [parse]
    again returns [true] at once, making no call to the sink and leaving
    counters and scratch storage as they are. *)
Theorem parse_returns_only_at_the_end_of_the_input :
  forall fuel reader u b p,
  Forall (fun c => c <> EndOfFile) reader ->
  KAbstractObjParser_parse fuel reader u = Ok (b, p) ->
  b = true /\
  m_token (peekToken (lexer p)) = PT_EOF /\
  reads (lexer p) [] /\
  forall n, exists l',
    parse (S (S n)) p = Ok (true, set_lexer p l').
Proof.
  intros fuel reader u b p Hchars H.
  unfold KAbstractObjParser_parse, KAbstractObjParserPrivate in H.
  set (l0 := mkLexer reader (u_currChar u) (u_peekChar u)
               Token_new Token_new 1 (-1)) in H.
  assert (Hs1 : sound (snd (nextChar l0))).
  { unfold nextChar, l0. cbn [m_peekChar m_reader].
    pose proof (next_sound reader Hchars) as Hn.
    destruct (next reader) as [pk rd].
    destruct (u_peekChar u =? NEWLINE)%Z; exact Hn. }
  destruct (nextChar l0) as [c0 l1]. cbn [snd] in Hs1.
  pose proof (nextToken_settled fuel l1 Hs1) as Hs2.
  destruct (nextToken fuel l1) as [l2 | e2 | ]; cbn [bind] in H;
    try discriminate.
  cbn [ensures] in Hs2.
  destruct (parse_returns_exhausted fuel
              (mkParser l2 0 0 0 0 0 (u_float4 u) [] []) b p Hs2 H)
    as [Hb [Hk Hr]].
  split; [exact Hb | ]. split; [exact Hk | ]. split; [exact Hr | ].
  intros n.
  assert (Hskip : skipsLine (m_token (peekToken (lexer p))) = false)
    by (rewrite Hk; reflexivity).
  destruct (nextToken_eof n (lexer p) Hr Hskip)
    as (l' & En & Hk' & Hr' & Hc').
  exists l'. cbn [parse]. unfold parse_body. rewrite En. cbn [bind].
  unfold currToken. rewrite Hc'. unfold peekToken in Hk. rewrite Hk.
  reflexivity.
Qed.

End EndOfInput.

Lemma end_of_input_witness :
  exists p,
    run 30 ["v 1 2 3"; "g end"] = Ok (true, p) /\
    true = true /\
    m_token (peekToken (lexer p)) = PT_EOF /\
    reads (lexer p) [] /\
    forall n, exists l', parse (S (S n)) p = Ok (true, set_lexer p l').
Proof.
  eexists. split; [vm_compute; reflexivity | ].
  apply (parse_returns_only_at_the_end_of_the_input (ext := ascii_externals)
           30 (text ["v 1 2 3"; "g end"]) blank).
  - repeat constructor; discriminate.
  - vm_compute. reflexivity.
Defined.
